(** * hello-myo: the orientation decoder and the gesture/home tracker of
    [DataCollector]

    A shallow embedding of [src/hello-myo.cpp].  The C++ [float] values are
    IEEE-754 binary32 and the [double] intermediates binary64; both are
    modelled with the standard library's [spec_float], at precision 24 with
    maximal exponent 128 and at precision 53 with maximal exponent 1024, so
    that the arithmetic and the comparisons are the machine's own (round to
    nearest even, signed zeros, infinities, NaN).  [atan2] and [asin] belong
    to the C library: the decoder takes them as parameters. *)

From Stdlib Require Import ZArith Bool List Lia Ascii.
From Stdlib Require Import Floats.SpecFloat.
From stdpp Require Import gmap strings.
Import ListNotations.

Local Open Scope Z_scope.

(** ** binary32 arithmetic *)

Module F32.

Definition prec : Z := 24.
Definition emax : Z := 128.

Definition float := spec_float.

Definition valid (x : float) : bool := valid_binary prec emax x.

Definition sub (x y : float) : float := SFsub prec emax x y.
Definition add (x y : float) : float := SFadd prec emax x y.
Definition mul (x y : float) : float := SFmul prec emax x y.
Definition div (x y : float) : float := SFdiv prec emax x y.
Definition abs (x : float) : float := SFabs x.
Definition opp (x : float) : float := SFopp x.

(** [x < y], [x > y], [x != y], [x <= y] of C++ on floats. *)
Definition lt (x y : float) : bool := SFltb x y.
Definition gt (x y : float) : bool := SFltb y x.
Definition ne (x y : float) : bool := negb (SFeqb x y).
Definition le (x y : float) : bool := SFleb x y.

(** Conversion of an integer literal. *)
Definition of_Z (z : Z) : float := binary_normalize prec emax z 0 false.

(** Conversion of a binary64 value ([double]) to binary32. *)
Definition of_double (d : spec_float) : float :=
  match d with
  | S754_finite s m e => binary_round prec emax s m e
  | _ => d
  end.

Definition zero : float := S754_zero false.
(** [-1], the initial value of the three home fields. *)
Definition minus_one : float := S754_finite true 8388608 (-23).
(** [17], the excluded yaw difference. *)
Definition seventeen : float := S754_finite false 8912896 (-19).
(** [0.7] passed to a [float] parameter: 0x3F333333. *)
Definition tol : float := S754_finite false 11744051 (-24).
(** [18], the top of the display scale. *)
Definition eighteen : float := S754_finite false 9437184 (-19).
(** [1.0f] and [2.0f]. *)
Definition one : float := S754_finite false 8388608 (-23).
Definition two : float := S754_finite false 8388608 (-22).

End F32.

Abbreviation float := F32.float.

(** ** binary64 arithmetic *)

Module F64.

Definition prec : Z := 53.
Definition emax : Z := 1024.

Definition double := spec_float.

Definition mul (x y : double) : double := SFmul prec emax x y.
Definition div (x y : double) : double := SFdiv prec emax x y.

(** Conversion of a binary32 value to binary64 (exact). *)
Definition of_float (x : float) : double :=
  match x with
  | S754_finite s m e => binary_round prec emax s m e
  | _ => x
  end.

(** Conversion of an integer. *)
Definition of_Z (z : Z) : double := binary_normalize prec emax z 0 false.

End F64.

(** [M_PI] of <cmath>, 0x400921FB54442D18, and [(float)M_PI]. *)
Definition M_PI : F64.double := S754_finite false 7074237752028440 (-51).
Definition pi_f : float := F32.of_double M_PI.

(** ** Poses of the SDK *)

(** Modelled from the spec: [myo::Pose] belongs to the SDK header
    [myo/myo.hpp], which is not part of the sources; the glossary names
    fist, fingers-spread, wave-out, rest and unknown, and the SDK has two
    more.  [toString] gives the names the source compares against. *)
Inductive Pose :=
| rest | fist | waveIn | waveOut | fingersSpread | doubleTap | unknown.

Definition toString (p : Pose) : string :=
  match p with
  | rest => "rest"
  | fist => "fist"
  | waveIn => "waveIn"
  | waveOut => "waveOut"
  | fingersSpread => "fingersSpread"
  | doubleTap => "doubleTap"
  | unknown => "unknown"
  end.

Inductive Arm := armLeft | armRight | armUnknown.

(** ** The letter table *)

(** The assignments of [matchLetterToGesture], in source order. *)
Definition letter_assignments : list (string * string) :=
  [ ("", " "); ("pitchyawpitch", "a"); ("rollpitch", "b"); ("roll", "c");
    ("rollpitch", "d"); ("rollpitchyaw", "e"); ("pitchpitchyaw", "f");
    ("rollpitchyaw", "g"); ("pitchroll", "h"); ("yawpitchyaw", "i");
    ("yawpitchroll", "j"); ("pitchyawyaw", "k") ].

(** [letterMap[k] = v] on a [std::map]: insert or overwrite. *)
Definition assign (m : gmap string string) (kv : string * string) :
  gmap string string := <[kv.1 := kv.2]> m.

Definition letterMap : gmap string string :=
  foldl assign ∅ letter_assignments.

(** [return letterMap[gesture]]: a missing key reads as the
    default-constructed string. *)
Definition matchLetterToGesture (gesture : string) : string :=
  default "" (letterMap !! gesture).

(** ** The collector *)

Record DataCollector := mkDataCollector {
  onArm : bool;
  whichArm : Arm;
  isUnlocked : bool;
  roll_w : float;
  pitch_w : float;
  yaw_w : float;
  currentPose : Pose;
  home_roll : float;
  home_yaw : float;
  home_pitch : float;
  max_roll : float;
  max_yaw : float;
  max_pitch : float;
  gestures : string;
  word : string
}.

(** The constructor initialises [onArm], [isUnlocked], the three display
    values and [currentPose]; the home fields and the two strings have
    default member initialisers.  [whichArm] and the three accumulators are
    left uninitialised: their first values are arbitrary. *)
Definition DataCollector_new (arm0 : Arm) (mr0 my0 mp0 : float) : DataCollector :=
  {| onArm := false; whichArm := arm0; isUnlocked := false;
     roll_w := F32.zero; pitch_w := F32.zero; yaw_w := F32.zero;
     currentPose := unknown;
     home_roll := F32.minus_one; home_yaw := F32.minus_one;
     home_pitch := F32.minus_one;
     max_roll := mr0; max_yaw := my0; max_pitch := mp0;
     gestures := ""; word := "" |}.

Definition epsilonCompare (var1 var2 err : float) : bool :=
  negb (F32.lt var2 (F32.sub var1 err) || F32.gt var2 (F32.add var1 err)).

(** What [print] does besides changing the collector, one constructor per
    statement.  The status line (gauges, lock state, arm, pose name) is
    written before any of these; it is [status_line] further down. *)
Inductive output :=
| SayFist                      (* line 151 *)
| SayLetter (letter : string)  (* line 159 *)
| SayWord (w : string)         (* line 162 *)
| SayHomeReached               (* line 177 *)
| SayFloat (x : float)         (* lines 178-180 *)
| SayLabel (l : string)        (* lines 185, 188, 191 *)
| Wait2s                       (* lines 156-157 and 194-195 *)
| RunSystem (cmd : string).    (* lines 169 and 173 *)

Definition set_home (c : DataCollector) (r y p : float) : DataCollector :=
  {| onArm := onArm c; whichArm := whichArm c; isUnlocked := isUnlocked c;
     roll_w := roll_w c; pitch_w := pitch_w c; yaw_w := yaw_w c;
     currentPose := currentPose c;
     home_roll := r; home_yaw := y; home_pitch := p;
     max_roll := max_roll c; max_yaw := max_yaw c; max_pitch := max_pitch c;
     gestures := gestures c; word := word c |}.

Definition set_max_roll (c : DataCollector) (v : float) : DataCollector :=
  {| onArm := onArm c; whichArm := whichArm c; isUnlocked := isUnlocked c;
     roll_w := roll_w c; pitch_w := pitch_w c; yaw_w := yaw_w c;
     currentPose := currentPose c;
     home_roll := home_roll c; home_yaw := home_yaw c;
     home_pitch := home_pitch c;
     max_roll := v; max_yaw := max_yaw c; max_pitch := max_pitch c;
     gestures := gestures c; word := word c |}.

Definition set_max_yaw (c : DataCollector) (v : float) : DataCollector :=
  {| onArm := onArm c; whichArm := whichArm c; isUnlocked := isUnlocked c;
     roll_w := roll_w c; pitch_w := pitch_w c; yaw_w := yaw_w c;
     currentPose := currentPose c;
     home_roll := home_roll c; home_yaw := home_yaw c;
     home_pitch := home_pitch c;
     max_roll := max_roll c; max_yaw := v; max_pitch := max_pitch c;
     gestures := gestures c; word := word c |}.

Definition set_max_pitch (c : DataCollector) (v : float) : DataCollector :=
  {| onArm := onArm c; whichArm := whichArm c; isUnlocked := isUnlocked c;
     roll_w := roll_w c; pitch_w := pitch_w c; yaw_w := yaw_w c;
     currentPose := currentPose c;
     home_roll := home_roll c; home_yaw := home_yaw c;
     home_pitch := home_pitch c;
     max_roll := max_roll c; max_yaw := max_yaw c; max_pitch := v;
     gestures := gestures c; word := word c |}.

Definition set_gestures (c : DataCollector) (g : string) : DataCollector :=
  {| onArm := onArm c; whichArm := whichArm c; isUnlocked := isUnlocked c;
     roll_w := roll_w c; pitch_w := pitch_w c; yaw_w := yaw_w c;
     currentPose := currentPose c;
     home_roll := home_roll c; home_yaw := home_yaw c;
     home_pitch := home_pitch c;
     max_roll := max_roll c; max_yaw := max_yaw c; max_pitch := max_pitch c;
     gestures := g; word := word c |}.

Definition set_word (c : DataCollector) (w : string) : DataCollector :=
  {| onArm := onArm c; whichArm := whichArm c; isUnlocked := isUnlocked c;
     roll_w := roll_w c; pitch_w := pitch_w c; yaw_w := yaw_w c;
     currentPose := currentPose c;
     home_roll := home_roll c; home_yaw := home_yaw c;
     home_pitch := home_pitch c;
     max_roll := max_roll c; max_yaw := max_yaw c; max_pitch := max_pitch c;
     gestures := gestures c; word := w |}.

Definition set_orientation (c : DataCollector) (r p y : float) : DataCollector :=
  {| onArm := onArm c; whichArm := whichArm c; isUnlocked := isUnlocked c;
     roll_w := r; pitch_w := p; yaw_w := y;
     currentPose := currentPose c;
     home_roll := home_roll c; home_yaw := home_yaw c;
     home_pitch := home_pitch c;
     max_roll := max_roll c; max_yaw := max_yaw c; max_pitch := max_pitch c;
     gestures := gestures c; word := word c |}.

Definition set_pose (c : DataCollector) (p : Pose) : DataCollector :=
  {| onArm := onArm c; whichArm := whichArm c; isUnlocked := isUnlocked c;
     roll_w := roll_w c; pitch_w := pitch_w c; yaw_w := yaw_w c;
     currentPose := p;
     home_roll := home_roll c; home_yaw := home_yaw c;
     home_pitch := home_pitch c;
     max_roll := max_roll c; max_yaw := max_yaw c; max_pitch := max_pitch c;
     gestures := gestures c; word := word c |}.

Definition set_arm (c : DataCollector) (on : bool) (a : Arm) : DataCollector :=
  {| onArm := on; whichArm := a; isUnlocked := isUnlocked c;
     roll_w := roll_w c; pitch_w := pitch_w c; yaw_w := yaw_w c;
     currentPose := currentPose c;
     home_roll := home_roll c; home_yaw := home_yaw c;
     home_pitch := home_pitch c;
     max_roll := max_roll c; max_yaw := max_yaw c; max_pitch := max_pitch c;
     gestures := gestures c; word := word c |}.

Definition set_unlocked (c : DataCollector) (u : bool) : DataCollector :=
  {| onArm := onArm c; whichArm := whichArm c; isUnlocked := u;
     roll_w := roll_w c; pitch_w := pitch_w c; yaw_w := yaw_w c;
     currentPose := currentPose c;
     home_roll := home_roll c; home_yaw := home_yaw c;
     home_pitch := home_pitch c;
     max_roll := max_roll c; max_yaw := max_yaw c; max_pitch := max_pitch c;
     gestures := gestures c; word := word c |}.

(** *** [print], branch by branch *)

(** Lines 150-166: the pose is "fist". *)
Definition fist_branch (c : DataCollector) : DataCollector * list output :=
  let c1 := set_home c (roll_w c) (yaw_w c) (pitch_w c) in
  let letter := matchLetterToGesture (gestures c1) in
  let c2 := set_gestures c1 "" in
  let c3 := set_word c2 (word c2 +:+ letter) in
  (c3, [SayFist; Wait2s; SayLetter letter; SayWord (word c3)]).

(** Line 176: the test guarding "home reached". *)
Definition at_home (c : DataCollector) : bool :=
  epsilonCompare (roll_w c) (home_roll c) F32.tol
  && epsilonCompare (pitch_w c) (home_pitch c) F32.tol
  && epsilonCompare (yaw_w c) (home_yaw c) F32.tol.

(** Lines 184-192: three independent tests, each appending its label. *)
Definition append_labels (c : DataCollector) : DataCollector * list output :=
  let '(c1, o1) :=
    if F32.gt (max_yaw c) (max_roll c) && F32.gt (max_yaw c) (max_pitch c)
    then (set_gestures c (gestures c +:+ "yaw"), [SayLabel "yaw"])
    else (c, []) in
  let '(c2, o2) :=
    if F32.gt (max_roll c1) (max_yaw c1) && F32.gt (max_roll c1) (max_pitch c1)
    then (set_gestures c1 (gestures c1 +:+ "roll"), [SayLabel "roll"])
    else (c1, []) in
  let '(c3, o3) :=
    if F32.gt (max_pitch c2) (max_roll c2) && F32.gt (max_pitch c2) (max_yaw c2)
    then (set_gestures c2 (gestures c2 +:+ "pitch"), [SayLabel "pitch"])
    else (c2, []) in
  (c3, o1 ++ o2 ++ o3).

(** Lines 177-198: the body of the "home reached" test. *)
Definition home_reached (c : DataCollector) : DataCollector * list output :=
  let header := [SayHomeReached; SayFloat (max_roll c);
                 SayFloat (max_pitch c); SayFloat (max_yaw c)] in
  let '(c1, labels) := append_labels c in
  let c2 := set_max_roll c1 F32.zero in
  let c3 := set_max_yaw c2 F32.zero in
  let c4 := set_max_pitch c3 F32.zero in
  (c4, header ++ labels ++ [Wait2s]).

(** Lines 202-210: "observe delta", run after the home test whether or not
    it fired.  The operands are [float], and [abs] is the [float] overload
    that <cmath> declares. *)
Definition observe_delta (c : DataCollector) : DataCollector :=
  let c1 :=
    if F32.gt (F32.abs (F32.sub (roll_w c) (home_roll c))) (max_roll c)
    then set_max_roll c (F32.abs (F32.sub (roll_w c) (home_roll c)))
    else c in
  let c2 :=
    if F32.gt (F32.abs (F32.sub (yaw_w c1) (home_yaw c1))) (max_yaw c1)
       && F32.ne (F32.abs (F32.sub (yaw_w c1) (home_yaw c1))) F32.seventeen
    then set_max_yaw c1 (F32.abs (F32.sub (yaw_w c1) (home_yaw c1)))
    else c1 in
  if F32.gt (F32.abs (F32.sub (pitch_w c2) (home_pitch c2))) (max_pitch c2)
  then set_max_pitch c2 (F32.abs (F32.sub (pitch_w c2) (home_pitch c2)))
  else c2.

(** Lines 175-211: any pose other than the three named ones. *)
Definition other_branch (c : DataCollector) : DataCollector * list output :=
  let '(c1, out) := if at_home c then home_reached c else (c, []) in
  (observe_delta c1, out).

(** Lines 139-217: [print] from the test of [onArm] on.  The gauges of
    lines 135-137 are written first and convert the three display values
    to counts; where that fails ([status_line] is [None]) the update stops
    before any of this code, so [print] is what an update does in the
    states where the status line is written, those with the display
    values on the scale among them.  [print_complete] puts the two
    together. *)
Definition print (c : DataCollector) : DataCollector * list output :=
  if onArm c then
    let poseString := toString (currentPose c) in
    if String.eqb poseString "fist" then fist_branch c
    else if String.eqb poseString "fingersSpread" then
      (c, [RunSystem ("python testgrid.py " +:+ word c)])
    else if String.eqb poseString "waveOut" then
      (c, [RunSystem ("python testtwil.py " +:+ word c)])
    else other_branch c
  else (c, []).

(** ** Events *)

(** The callbacks the hub delivers, and the [print] that ends each turn of
    the main loop.  [OnOrientationData] carries the three display values
    that the callback stores; the decoder below computes them from the
    quaternion. *)
Inductive event :=
| OnUnpair
| OnOrientationData (r p y : float)
| OnPose (p : Pose)
| OnArmSync (a : Arm)
| OnArmUnsync
| OnUnlock
| OnLock
| Print.

Definition handle (c : DataCollector) (e : event) : DataCollector * list output :=
  match e with
  | OnUnpair =>
      (set_unlocked
         (set_arm (set_orientation c F32.zero F32.zero F32.zero)
                  false (whichArm c)) false, [])
  | OnOrientationData r p y => (set_orientation c r p y, [])
  | OnPose p => (set_pose c p, [])
  | OnArmSync a => (set_arm c true a, [])
  | OnArmUnsync => (set_arm c false (whichArm c), [])
  | OnUnlock => (set_unlocked c true, [])
  | OnLock => (set_unlocked c false, [])
  | Print => print c
  end.

Fixpoint run (c : DataCollector) (es : list event) : DataCollector * list output :=
  match es with
  | [] => (c, [])
  | e :: es' =>
      let '(c1, o1) := handle c e in
      let '(c2, o2) := run c1 es' in
      (c2, o1 ++ o2)
  end.

(** ** The orientation decoder *)

Record Quaternion := mkQuaternion { qw : float; qx : float; qy : float; qz : float }.

(** [std::min(a, b)] and [std::max(a, b)]. *)
Definition fmin (a b : float) : float := if F32.lt b a then b else a.
Definition fmax (a b : float) : float := if F32.lt a b then b else a.

(** [static_cast<float>((angle + offset) / range * 18)], with [angle] and
    [offset] of type float and [range] of type double: the sum is a float
    sum, the quotient and the product are double operations. *)
Definition rescale (offset : float) (range : F64.double) (angle : float) : float :=
  F32.of_double
    (F64.mul (F64.div (F64.of_float (F32.add angle offset)) range) (F64.of_Z 18)).

Section Decoder.

Variable atan2f : float -> float -> float.
Variable asinf : float -> float.

Definition roll_angle (q : Quaternion) : float :=
  atan2f
    (F32.mul F32.two (F32.add (F32.mul (qw q) (qx q)) (F32.mul (qy q) (qz q))))
    (F32.sub F32.one
       (F32.mul F32.two (F32.add (F32.mul (qx q) (qx q)) (F32.mul (qy q) (qy q))))).

(** The argument handed to [asin]. *)
Definition pitch_arg (q : Quaternion) : float :=
  fmax F32.minus_one
    (fmin F32.one
       (F32.mul F32.two (F32.sub (F32.mul (qw q) (qy q)) (F32.mul (qz q) (qx q))))).

Definition pitch_angle (q : Quaternion) : float := asinf (pitch_arg q).

Definition yaw_angle (q : Quaternion) : float :=
  atan2f
    (F32.mul F32.two (F32.add (F32.mul (qw q) (qz q)) (F32.mul (qx q) (qy q))))
    (F32.sub F32.one
       (F32.mul F32.two (F32.add (F32.mul (qy q) (qy q)) (F32.mul (qz q) (qz q))))).

(** Lines 57-59: the values stored in [roll_w], [pitch_w] and [yaw_w]. *)
Definition decoded_roll (q : Quaternion) : float :=
  rescale pi_f (F64.mul M_PI (F64.of_float F32.two)) (roll_angle q).

Definition decoded_pitch (q : Quaternion) : float :=
  rescale (F32.div pi_f F32.two) M_PI (pitch_angle q).

Definition decoded_yaw (q : Quaternion) : float :=
  rescale pi_f (F64.mul M_PI (F64.of_float F32.two)) (yaw_angle q).

(** [onOrientationData], as the event it is for the collector. *)
Definition onOrientationData (q : Quaternion) : event :=
  OnOrientationData (decoded_roll q) (decoded_pitch q) (decoded_yaw q).

End Decoder.

Definition is_home_reached (o : output) : bool :=
  match o with SayHomeReached => true | _ => false end.

(** How often "home reached" was written. *)
Definition count_fired (out : list output) : nat :=
  length (List.filter is_home_reached out).

Definition fired (out : list output) : bool := existsb is_home_reached out.

(** ** Vocabulary of the specification *)

(** The poses that reach the last [else] of [print]. *)
Definition is_other (p : Pose) : bool :=
  match p with
  | fist | fingersSpread | waveOut => false
  | _ => true
  end.

(** Home Reference still at its sentinel. *)
Definition home_unset (c : DataCollector) : Prop :=
  home_roll c = F32.minus_one /\ home_yaw c = F32.minus_one /\
  home_pitch c = F32.minus_one.

(** A display value on the scale [0, 18]. *)
Definition in_scale (x : float) : bool :=
  F32.le F32.zero x && F32.le x F32.eighteen.

(** The orientation events of a trace carry display values on the scale. *)
Definition decoded (e : event) : bool :=
  match e with
  | OnOrientationData r p y => in_scale r && in_scale p && in_scale y
  | _ => true
  end.

(** A binary32 value on the display scale. *)
Definition display_value (x : float) : bool := F32.valid x && in_scale x.

Definition is_nan (x : float) : bool :=
  match x with S754_nan => true | _ => false end.

(** What the C library promises of [atan2] and [asin], read in binary32:
    for arguments that are not NaN, [atan2] returns a value between
    [-(float)M_PI] and [(float)M_PI]; for an argument between -1 and 1,
    [asin] returns a value between [-(float)M_PI/2] and [(float)M_PI/2]. *)
Definition atan2_contract (atan2f : float -> float -> float) : Prop :=
  forall y x, is_nan y = false -> is_nan x = false ->
    F32.valid (atan2f y x) = true /\
    F32.le (F32.opp pi_f) (atan2f y x) = true /\
    F32.le (atan2f y x) pi_f = true.

Definition asin_contract (asinf : float -> float) : Prop :=
  forall v, F32.le F32.minus_one v = true -> F32.le v F32.one = true ->
    F32.valid (asinf v) = true /\
    F32.le (F32.opp (F32.div pi_f F32.two)) (asinf v) = true /\
    F32.le (asinf v) (F32.div pi_f F32.two) = true.

(** The components of a unit quaternion are binary32 values of magnitude
    at most one; the bound asked for is two, which leaves room for the
    rounding of a quaternion normalised in binary32. *)
Definition unit_component (c : float) : bool :=
  F32.valid c && F32.le (F32.abs c) F32.two.

Definition unit_components (q : Quaternion) : Prop :=
  unit_component (qw q) && unit_component (qx q) &&
  unit_component (qy q) && unit_component (qz q) = true.

(** The identity rotation, and the values the two library functions take
    on it: [atan2(0, 1) = 0] and [asin(0) = 0]. *)
Definition identity_rotation : Quaternion :=
  {| qw := F32.one; qx := F32.zero; qy := F32.zero; qz := F32.zero |}.
Definition atan2_zero (y x : float) : float := F32.zero.
Definition asin_zero (v : float) : float := F32.zero.

(** Modelled from the spec: the label of the dominant axis, the one whose
    accumulator is strictly greater than each of the other two, and no
    label on a tie. *)
Definition dominant_label (c : DataCollector) : string :=
  if F32.gt (max_roll c) (max_pitch c) && F32.gt (max_roll c) (max_yaw c)
  then "roll"
  else if F32.gt (max_pitch c) (max_roll c) && F32.gt (max_pitch c) (max_yaw c)
  then "pitch"
  else if F32.gt (max_yaw c) (max_roll c) && F32.gt (max_yaw c) (max_pitch c)
  then "yaw"
  else "".

(** Home Reference and the current Orientation, as triples. *)
Definition home_reference (c : DataCollector) : float * float * float :=
  (home_roll c, home_pitch c, home_yaw c).
Definition current_orientation (c : DataCollector) : float * float * float :=
  (roll_w c, pitch_w c, yaw_w c).

(** Event [e] in state [c] is an update that takes the "fist" branch of
    [print] (lines 139 and 150). *)
Definition is_fist_update (c : DataCollector) (e : event) : bool :=
  match e with
  | Print => onArm c && String.eqb (toString (currentPose c)) "fist"
  | _ => false
  end.

(** One step of "observe delta" on one axis, starting from accumulator
    [acc]. *)
Definition accumulate (cur home acc : float) : float :=
  if F32.gt (F32.abs (F32.sub cur home)) acc
  then F32.abs (F32.sub cur home) else acc.

(** ** Rounding internals used by the proofs *)

(** The steps of [binary_round_aux] on a mantissa [m] at exponent [e]:
    the first shift, the rounded mantissa, the second shift, and the
    mantissa and exponent of the result. *)
Definition rnd_k1 (prec emax m e : Z) : Z :=
  Z.max 0 (fexp prec emax (Zdigits2 m + e) - e).

Definition rnd_e1 (prec emax m e : Z) : Z := e + rnd_k1 prec emax m e.

Definition rnd_r1 (prec emax m e : Z) (l : location) : shr_record :=
  fst (shr_fexp prec emax m e l).

Definition rnd_m2 (prec emax m e : Z) (l : location) : Z :=
  round_nearest_even (shr_m (rnd_r1 prec emax m e l))
    (loc_of_shr_record (rnd_r1 prec emax m e l)).

Definition rnd_k2 (prec emax m e : Z) (l : location) : Z :=
  Z.max 0 (fexp prec emax (Zdigits2 (rnd_m2 prec emax m e l) + rnd_e1 prec emax m e)
           - rnd_e1 prec emax m e).

Definition rnd_m (prec emax m e : Z) (l : location) : Z :=
  rnd_m2 prec emax m e l / 2 ^ rnd_k2 prec emax m e l.

Definition rnd_e (prec emax m e : Z) (l : location) : Z :=
  rnd_e1 prec emax m e + rnd_k2 prec emax m e l.

(** [x] is zero or positive, with at most [prec] digits, and at most
    [mB * 2^eB] in the order of canonical values. *)
Definition pos_le (prec : Z) (x : spec_float) (mB eB : Z) : Prop :=
  match x with
  | S754_zero _ => True
  | S754_finite false m e =>
      Z.pos m < 2 ^ prec /\ (e < eB \/ (e = eB /\ Z.pos m <= mB))
  | _ => False
  end.

(** [x] is positive and at least [mB * 2^eB]. *)
Definition pos_ge (x : spec_float) (mB eB : Z) : Prop :=
  match x with
  | S754_finite false m e => eB < e \/ (e = eB /\ mB <= Z.pos m)
  | S754_infinity false => True
  | _ => False
  end.

Definition has_sign (sx : bool) (x : spec_float) : Prop :=
  match x with
  | S754_zero s | S754_infinity s | S754_finite s _ _ => s = sx
  | S754_nan => False
  end.

Definition is_nonneg (x : spec_float) : bool :=
  match x with
  | S754_zero _ => true
  | S754_finite false _ _ => true
  | S754_infinity false => true
  | _ => false
  end.

(** [|x| <= 2^k] *)
Definition bounded_by (k : Z) (x : float) : Prop :=
  pos_le 24 (SFabs x) (2 ^ 23) (k - 23).

(** The mantissas of [(float)M_PI] and of [M_PI]. *)
Definition ma : positive := 13176795.
Definition mc : positive := 7074237752028440.

(** ** Scenarios *)

(** The pose sequence [fist, (roll deviates, then home reached), fist]:
    the arm is synced, the first fist is made at orientation
    [(hr, hp, hy)], the pose changes to [other], the roll moves to [r] and
    comes back, and a second fist follows.  Each [Print] is one update. *)
Definition scenario (a : Arm) (other : Pose) (hr hp hy r : float) : list event :=
  [ OnArmSync a; OnOrientationData hr hp hy; OnPose fist; Print;
    OnPose other; OnOrientationData r hp hy; Print;
    OnOrientationData hr hp hy; Print;
    OnPose fist; Print ].

(** The keys written in the table construction that are not the empty
    string, one per assignment. *)
Definition nonempty_keys : list string :=
  List.filter (fun k => negb (String.eqb k "")) (map fst letter_assignments).

Definition is_finite (x : float) : bool :=
  match x with
  | S754_zero _ | S754_finite _ _ _ => true
  | _ => false
  end.

(** Some binary32 values used in examples. *)
Definition f9 : float := F32.of_Z 9.
Definition f12 : float := F32.of_Z 12.
Definition f1 : float := F32.of_Z 1.
(** 9.5 *)
Definition f9_5 : float := S754_finite false 9961472 (-20).
(** 0.5 *)
Definition f0_5 : float := S754_finite false 8388608 (-24).

(** All three display values are on the scale. *)
Definition on_scale (c : DataCollector) : Prop :=
  in_scale (roll_w c) && in_scale (pitch_w c) && in_scale (yaw_w c) = true.

(** The three display values are binary32 values on the scale: states
    in which the status line of an update is written, so that the update
    reaches the tracker. *)
Definition on_display (c : DataCollector) : bool :=
  display_value (roll_w c) && display_value (pitch_w c) && display_value (yaw_w c).

(** A collector on a synced arm, in pose [p], with gesture buffer [g]. *)
Definition collector_with (p : Pose) (g : string) : DataCollector :=
  set_gestures
    (set_pose
       (set_arm (DataCollector_new armLeft F32.zero F32.zero F32.zero)
                true armLeft) p) g.

(** The collector after the first fist of a session at orientation
    [(hr, hp, hy)], the pose then changed to [rest] and the orientation to
    [(r, p, y)]; the accumulators start at zero. *)
Definition after_fist_at (hr hp hy r p y : float) : DataCollector :=
  fst (run (DataCollector_new armLeft F32.zero F32.zero F32.zero)
         [ OnArmSync armLeft; OnOrientationData hr hp hy; OnPose fist; Print;
           OnPose rest; OnOrientationData r p y ]).

(** A roll excursion to 12 and back to the home orientation (9, 9, 9),
    before the update that detects the return. *)
Definition back_home_after_roll : DataCollector :=
  fst (run (after_fist_at f9 f9 f9 f12 f9 f9)
         [ Print; OnOrientationData f9 f9 f9 ]).

(** ** Vocabulary of the further properties *)

(** The letters a commit can append to the word. *)
Definition letters : list string :=
  [" "; "a"; "c"; "d"; "f"; "g"; "h"; "i"; "j"; "k"].

(** The labels "home reached" can append to the gesture buffer. *)
Definition labels : list string := ["yaw"; "roll"; "pitch"].

(** The events that are an update, and those that sync the arm. *)
Definition is_print (e : event) : bool :=
  match e with Print => true | _ => false end.

Definition is_arm_sync (e : event) : bool :=
  match e with OnArmSync _ => true | _ => false end.

(** How many updates a trace holds. *)
Definition count_updates (es : list event) : nat :=
  length (List.filter is_print es).

(** The fields only [print] writes, and the fields only the callbacks
    write. *)
Definition tracker_state (c : DataCollector) :=
  (home_reference c, (max_roll c, max_pitch c, max_yaw c), gestures c, word c).

Definition callback_state (c : DataCollector) :=
  (onArm c, whichArm c, isUnlocked c, current_orientation c, currentPose c).

(** [n] consecutive updates with no callback in between. *)
Definition updates (n : nat) (c : DataCollector) : DataCollector :=
  Nat.iter n (fun c' => fst (print c')) c.

(** Concatenation of a list of strings. *)
Definition concat_all (ls : list string) : string :=
  fold_right (fun l s => l +:+ s) "" ls.

(** The commands a run hands to [system]. *)
Definition commands (out : list output) : list string :=
  flat_map (fun o => match o with RunSystem cmd => [cmd] | _ => [] end) out.

(** The characters of [letters]. *)
Definition letter_char (a : ascii) : bool :=
  existsb (Ascii.eqb a) [" "; "a"; "c"; "d"; "f"; "g"; "h"; "i"; "j"; "k"]%char.

(** A string made of the letters a commit can append. *)
Fixpoint over_letters (s : string) : bool :=
  match s with
  | EmptyString => true
  | String a s' => letter_char a && over_letters s'
  end.

(** The command prefix of the two poses that run a command (lines
    167-174). *)
Definition command_prefix (p : Pose) : option string :=
  if String.eqb (toString p) "fist" then None
  else if String.eqb (toString p) "fingersSpread" then Some "python testgrid.py "
  else if String.eqb (toString p) "waveOut" then Some "python testtwil.py "
  else None.

(** [n] spaces. *)
Definition spaces (n : nat) : string := concat_all (repeat " " n).

(** Conversion of a [float] to the unsigned count of
    [std::string(count, ch)]: the value is truncated toward zero.  The
    conversion is undefined for NaN, for an infinity and for a value that
    truncates below zero, which is [None] here; the upper end of the
    unsigned range is not modelled. *)
Definition to_count (x : float) : option Z :=
  match x with
  | S754_zero _ => Some 0
  | S754_finite s m e =>
      let t := if 0 <=? e then Z.pos m * 2 ^ e else Z.pos m / 2 ^ (- e) in
      if s then (if t =? 0 then Some 0 else None) else Some t
  | _ => None
  end.

(** [std::string(n, ch)]. *)
Fixpoint fill (n : nat) (ch : ascii) : string :=
  match n with
  | O => ""
  | S n' => String ch (fill n' ch)
  end.

(** One gauge of lines 135-137: a bracket, [v] stars, [18 - v] blanks, a
    bracket.  The subtraction is the [float] one, and both operands of
    [std::string] are converted to counts. *)
Definition gauge (v : float) : option string :=
  match to_count v, to_count (F32.sub F32.eighteen v) with
  | Some a, Some b =>
      Some ("[" +:+ fill (Z.to_nat a) "*" +:+ fill (Z.to_nat b) " " +:+ "]")
  | _, _ => None
  end.

(** The pose field of line 149.  [14 - poseString.size()] is unsigned: for
    a name longer than 14 it wraps around and [std::string] throws. *)
Definition pose_field (p : Pose) : option string :=
  let s := toString p in
  if (String.length s <=? 14)%nat
  then Some ("[" +:+ s +:+ fill (14 - String.length s) " " +:+ "]")
  else None.

(** The fields after the gauges: lines 147-149 with the arm synced, line
    216 without. *)
Definition status_fields (c : DataCollector) : option string :=
  if onArm c then
    match pose_field (currentPose c) with
    | Some f =>
        Some ("[" +:+ (if isUnlocked c then "unlocked" else "locked  ") +:+ "]"
              +:+ "[" +:+ (match whichArm c with armLeft => "L" | _ => "R" end) +:+ "]"
              +:+ f)
    | None => None
    end
  else Some ("[" +:+ fill 8 " " +:+ "]" +:+ "[?]" +:+ "[" +:+ fill 14 " " +:+ "]").

(** The status line [print] writes before it looks at the pose (lines
    132-149 and 216): a carriage return, the three gauges and the fields.
    [None] where a conversion is undefined or [std::string] throws. *)
Definition status_line (c : DataCollector) : option string :=
  match gauge (roll_w c), gauge (pitch_w c), gauge (yaw_w c), status_fields c with
  | Some r, Some p, Some y, Some f => Some (String "013" (r +:+ p +:+ y +:+ f))
  | _, _, _, _ => None
  end.

(** The whole of [print], lines 129-220: the status line, then the code
    from line 139 on.  Where the status line cannot be written the update
    stops there, with the collector as it was. *)
Definition print_complete (c : DataCollector) :
  option (DataCollector * (string * list output)) :=
  match status_line c with
  | Some s => Some (fst (print c), (s, snd (print c)))
  | None => None
  end.



(** A whole number and a half. *)
Definition and_a_half (n : Z) : float := F32.add (F32.of_Z n) f0_5.

(** A collector in pose "fist" on a synced arm, at orientation
    (9, 12, 1). *)
Definition fist_at_9_12_1 : DataCollector :=
  set_orientation (collector_with fist "") f9 f12 f1.

(** The quaternion with the four components negated: the same rotation. *)
Definition negate (q : Quaternion) : Quaternion :=
  {| qw := F32.opp (qw q); qx := F32.opp (qx q);
     qy := F32.opp (qy q); qz := F32.opp (qz q) |}.


(** * Proofs *)

(** ** Digits and shifts *)

Lemma digits2_pos_size (p : positive) : digits2_pos p = Pos.size p.
Proof. induction p; simpl; congruence. Qed.

Lemma digits2_pos_bounds (p : positive) :
  2 ^ (Z.pos (digits2_pos p) - 1) <= Z.pos p < 2 ^ Z.pos (digits2_pos p).
Proof.
  rewrite digits2_pos_size. split.
  - pose proof (Pos.size_le p) as H.
    assert (Hs : (Z.pos (2 ^ Pos.size p) <= Z.pos p~0)%Z) by (apply Pos2Z.pos_le_pos; exact H).
    rewrite Pos2Z.inj_pow in Hs.
    replace (Z.pos (Pos.size p)) with (Z.succ (Z.pos (Pos.size p) - 1)) in Hs by lia.
    rewrite Z.pow_succ_r in Hs by lia. lia.
  - pose proof (Pos.size_gt p) as H.
    apply Pos2Z.pos_lt_pos in H. rewrite Pos2Z.inj_pow in H. exact H.
Qed.

Lemma Zdigits2_nonneg (m : Z) : 0 <= Zdigits2 m.
Proof. destruct m; simpl; lia. Qed.

Lemma Zdigits2_le (m k : Z) : 0 <= k -> 0 <= m < 2 ^ k -> Zdigits2 m <= k.
Proof.
  intros Hk [H0 Hm]. destruct m as [|p|p]; simpl; [lia| |lia].
  pose proof (digits2_pos_bounds p) as [Hlo _].
  destruct (Z_le_gt_dec (Z.pos (digits2_pos p)) k) as [|Hgt]; [assumption|].
  assert (2 ^ k <= 2 ^ (Z.pos (digits2_pos p) - 1)) by (apply Z.pow_le_mono_r; lia).
  lia.
Qed.

Lemma Zdigits2_lt_pow (m : Z) : 0 <= m -> m < 2 ^ Zdigits2 m.
Proof.
  intros H. destruct m as [|p|p]; simpl; [reflexivity| |lia].
  apply digits2_pos_bounds.
Qed.

Lemma Zdigits2_ge_pow (m : Z) : 0 < m -> 2 ^ (Zdigits2 m - 1) <= m.
Proof.
  intros H. destruct m as [|p|p]; simpl; try lia.
  apply digits2_pos_bounds.
Qed.

Lemma pos_iter_xO (m d : positive) :
  Z.pos (Pos.iter xO m d) = Z.pos m * 2 ^ Z.pos d.
Proof.
  rewrite <- Z.shiftl_mul_pow2 by lia. simpl.
  apply (Pos.iter_swap_gen _ _ Z.pos xO (Z.mul 2)). reflexivity.
Qed.

Lemma shl_align_spec (m : positive) (e e' : Z) :
  e' <= e ->
  Z.pos (fst (shl_align m e e')) = Z.pos m * 2 ^ (e - e') /\
  snd (shl_align m e e') = e'.
Proof.
  intros H. unfold shl_align.
  destruct (e' - e) as [|p|p] eqn:E; simpl.
  - replace (e - e') with 0 by lia. change (2 ^ 0) with 1. split; lia.
  - lia.
  - rewrite pos_iter_xO. replace (e - e') with (Z.pos p) by lia. auto.
Qed.

Lemma shl_align_id (m : positive) (e e' : Z) :
  e <= e' -> shl_align m e e' = (m, e).
Proof. intros H. unfold shl_align. destruct (e' - e) eqn:E; try reflexivity. lia. Qed.

Lemma shr_1_m (r : shr_record) :
  0 <= shr_m r -> shr_m (shr_1 r) = shr_m r / 2.
Proof.
  destruct r as [m r s]; simpl. intros H.
  destruct m as [|[p|p|]|p]; simpl; try reflexivity; try lia.
  - rewrite Pos2Z.inj_xI. apply (Z.div_unique _ _ _ 1); lia.
  - rewrite Pos2Z.inj_xO. apply (Z.div_unique _ _ _ 0); lia.
Qed.

Lemma shr_1_r (r : shr_record) :
  0 <= shr_m r -> shr_r (shr_1 r) = Z.odd (shr_m r).
Proof.
  destruct r as [m r s]; simpl. intros H.
  destruct m as [|[p|p|]|p]; simpl; try reflexivity; lia.
Qed.

Lemma iter_pos_shr_1_m (p : positive) (r : shr_record) :
  0 <= shr_m r -> shr_m (SpecFloat.iter_pos shr_1 p r) = shr_m r / 2 ^ Z.pos p.
Proof.
  revert r. induction p as [p IH|p IH|]; intros r H; simpl SpecFloat.iter_pos.
  - assert (H1 : 0 <= shr_m (shr_1 r)) by (rewrite shr_1_m by lia; apply Z.div_pos; lia).
    assert (H2 : 0 <= shr_m (SpecFloat.iter_pos shr_1 p (shr_1 r))) by (rewrite IH by lia; apply Z.div_pos; lia).
    rewrite IH by lia. rewrite IH by lia. rewrite shr_1_m by lia.
    rewrite !Z.div_div by lia. f_equal.
    replace (Z.pos p~1) with (1 + Z.pos p + Z.pos p) by lia.
    rewrite !Z.pow_add_r by lia. lia.
  - assert (H2 : 0 <= shr_m (SpecFloat.iter_pos shr_1 p r)) by (rewrite IH by lia; apply Z.div_pos; lia).
    rewrite IH by lia. rewrite IH by lia.
    rewrite !Z.div_div by lia. f_equal.
    replace (Z.pos p~0) with (Z.pos p + Z.pos p) by lia.
    rewrite !Z.pow_add_r by lia. lia.
  - rewrite shr_1_m by lia. reflexivity.
Qed.

Lemma iter_pos_shr_1_r (p : positive) (r : shr_record) :
  0 <= shr_m r ->
  shr_r (SpecFloat.iter_pos shr_1 p r) = Z.testbit (shr_m r) (Z.pos p - 1).
Proof.
  revert r. induction p as [p IH|p IH|]; intros r H; simpl SpecFloat.iter_pos.
  - assert (H1 : 0 <= shr_m (shr_1 r)) by (rewrite shr_1_m by lia; apply Z.div_pos; lia).
    assert (H2 : 0 <= shr_m (SpecFloat.iter_pos shr_1 p (shr_1 r))) by (rewrite iter_pos_shr_1_m by lia; apply Z.div_pos; lia).
    rewrite IH by lia. rewrite iter_pos_shr_1_m by lia. rewrite shr_1_m by lia.
    rewrite Z.div_div by lia.
    replace (2 * 2 ^ Z.pos p) with (2 ^ (Z.pos p + 1)) by (rewrite Z.pow_add_r by lia; lia).
    rewrite <- Z.shiftr_div_pow2 by lia. rewrite Z.shiftr_spec by lia.
    f_equal. lia.
  - assert (H2 : 0 <= shr_m (SpecFloat.iter_pos shr_1 p r)) by (rewrite iter_pos_shr_1_m by lia; apply Z.div_pos; lia).
    rewrite IH by lia. rewrite iter_pos_shr_1_m by lia.
    rewrite <- Z.shiftr_div_pow2 by lia. rewrite Z.shiftr_spec by lia.
    f_equal. lia.
  - rewrite shr_1_r by lia. symmetry. apply Z.bit0_odd.
Qed.

Lemma shr_snd (r : shr_record) (e n : Z) : snd (shr r e n) = e + Z.max 0 n.
Proof. destruct n; simpl; lia. Qed.

Lemma shr_fst_m (r : shr_record) (e n : Z) :
  0 <= shr_m r -> shr_m (fst (shr r e n)) = shr_m r / 2 ^ Z.max 0 n.
Proof.
  intros H. destruct n as [|p|p]; simpl.
  - rewrite Z.div_1_r. reflexivity.
  - apply iter_pos_shr_1_m. assumption.
  - rewrite Z.div_1_r. reflexivity.
Qed.

Lemma shr_fst_r (r : shr_record) (e n : Z) :
  0 <= shr_m r -> 0 < n -> shr_r (fst (shr r e n)) = Z.testbit (shr_m r) (n - 1).
Proof.
  intros H Hn. destruct n as [|p|p]; try lia. simpl.
  apply iter_pos_shr_1_r. assumption.
Qed.

Lemma shr_fst_id (r : shr_record) (e n : Z) : n <= 0 -> fst (shr r e n) = r.
Proof. destruct n; try reflexivity; lia. Qed.

Lemma shr_record_of_loc_m (m : Z) (l : location) : shr_m (shr_record_of_loc m l) = m.
Proof. destruct l as [|[]]; reflexivity. Qed.

Lemma loc_of_shr_record_of_loc (m : Z) (l : location) :
  loc_of_shr_record (shr_record_of_loc m l) = l.
Proof. destruct l as [|[]]; reflexivity. Qed.

Lemma round_nearest_even_bounds (m : Z) (l : location) :
  m <= round_nearest_even m l <= m + 1.
Proof. unfold round_nearest_even. destruct l as [|[]]; try destruct (Z.even m); lia. Qed.

Lemma round_nearest_even_down (r : shr_record) :
  shr_r r = false -> round_nearest_even (shr_m r) (loc_of_shr_record r) = shr_m r.
Proof. destruct r as [x [] []]; simpl; intros; congruence. Qed.

(** ** The steps of rounding *)

Section Rounding.
Variables prec emax : Z.
Hypothesis Hprec : 0 < prec.

Lemma fexp_ge (x : Z) : x - prec <= SpecFloat.fexp prec emax x.
Proof. unfold SpecFloat.fexp. lia. Qed.

Lemma fexp_ge_emin (x : Z) : SpecFloat.emin prec emax <= SpecFloat.fexp prec emax x.
Proof. unfold SpecFloat.fexp. lia. Qed.

Lemma fexp_mono (x y : Z) : x <= y -> SpecFloat.fexp prec emax x <= SpecFloat.fexp prec emax y.
Proof. unfold SpecFloat.fexp. lia. Qed.

Lemma rnd_r1_m (m e : Z) (l : location) :
  0 <= m -> shr_m (rnd_r1 prec emax m e l) = m / 2 ^ rnd_k1 prec emax m e.
Proof.
  intros Hm. unfold rnd_r1, shr_fexp, rnd_k1.
  rewrite shr_fst_m by (rewrite shr_record_of_loc_m; lia).
  rewrite shr_record_of_loc_m. reflexivity.
Qed.

Lemma rnd_k1_nonneg (m e : Z) : 0 <= rnd_k1 prec emax m e.
Proof. unfold rnd_k1. lia. Qed.

Lemma rnd_k2_nonneg (m e : Z) (l : location) : 0 <= rnd_k2 prec emax m e l.
Proof. unfold rnd_k2. lia. Qed.

Lemma rnd_m2_bounds (m e : Z) (l : location) :
  0 <= m ->
  m / 2 ^ rnd_k1 prec emax m e <= rnd_m2 prec emax m e l
    <= m / 2 ^ rnd_k1 prec emax m e + 1.
Proof.
  intros Hm. unfold rnd_m2. rewrite <- (rnd_r1_m m e l Hm).
  apply round_nearest_even_bounds.
Qed.

Lemma rnd_m2_nonneg (m e : Z) (l : location) : 0 <= m -> 0 <= rnd_m2 prec emax m e l.
Proof.
  intros Hm. pose proof (rnd_m2_bounds m e l Hm).
  assert (0 <= m / 2 ^ rnd_k1 prec emax m e)
    by (apply Z.div_pos; [lia | apply Z.pow_pos_nonneg; [lia | apply rnd_k1_nonneg]]).
  lia.
Qed.

Lemma rnd_m_nonneg (m e : Z) (l : location) : 0 <= m -> 0 <= rnd_m prec emax m e l.
Proof.
  intros Hm. unfold rnd_m. apply Z.div_pos; [apply rnd_m2_nonneg; assumption|].
  apply Z.pow_pos_nonneg; [lia | apply rnd_k2_nonneg].
Qed.

Lemma binary_round_aux_eq (sx : bool) (m e : Z) (l : location) :
  0 <= m ->
  binary_round_aux prec emax sx m e l =
  match rnd_m prec emax m e l with
  | Z0 => S754_zero sx
  | Zpos p =>
      if rnd_e prec emax m e l <=? emax - prec
      then S754_finite sx p (rnd_e prec emax m e l) else S754_infinity sx
  | Zneg _ => S754_nan
  end.
Proof.
  intros Hm. unfold binary_round_aux.
  pose proof (rnd_m2_nonneg m e l Hm) as H2.
  unfold rnd_m, rnd_e, rnd_k2, rnd_e1, rnd_k1 in *.
  unfold rnd_m2, rnd_r1 in *.
  assert (Hs : snd (shr_fexp prec emax m e l) = e + Z.max 0 (SpecFloat.fexp prec emax (Zdigits2 m + e) - e))
    by (unfold shr_fexp; apply shr_snd).
  destruct (shr_fexp prec emax m e l) as [r1 e1]. simpl fst in *. simpl snd in Hs. subst e1.
  set (m2 := round_nearest_even (shr_m r1) (loc_of_shr_record r1)) in *.
  set (E := e + Z.max 0 (SpecFloat.fexp prec emax (Zdigits2 m + e) - e)) in *.
  unfold shr_fexp.
  assert (Hs2 := shr_snd (shr_record_of_loc m2 loc_Exact) E (SpecFloat.fexp prec emax (Zdigits2 m2 + E) - E)).
  assert (Hm2 := shr_fst_m (shr_record_of_loc m2 loc_Exact) E (SpecFloat.fexp prec emax (Zdigits2 m2 + E) - E) H2).
  destruct (shr (shr_record_of_loc m2 loc_Exact) E _) as [r2 e2].
  simpl in Hs2, Hm2. subst e2. rewrite Hm2. reflexivity.
Qed.

(** the final mantissa has at most [prec] digits *)
Lemma rnd_m_lt (m e : Z) (l : location) :
  0 <= m -> rnd_m prec emax m e l < 2 ^ prec.
Proof.
  intros Hm. unfold rnd_m.
  pose proof (rnd_m2_nonneg m e l Hm) as H2.
  set (m2 := rnd_m2 prec emax m e l) in *.
  pose proof (Zdigits2_lt_pow m2 H2) as Hd.
  pose proof (Zdigits2_nonneg m2) as Hd0.
  unfold rnd_k2. fold m2.
  set (E := rnd_e1 prec emax m e).
  pose proof (fexp_ge (Zdigits2 m2 + E)) as Hf.
  set (k := Z.max 0 (SpecFloat.fexp prec emax (Zdigits2 m2 + E) - E)).
  assert (Hk : 0 <= k) by lia.
  apply Z.div_lt_upper_bound; [apply Z.pow_pos_nonneg; lia|].
  rewrite <- Z.pow_add_r by lia.
  apply Z.lt_le_trans with (1 := Hd).
  apply Z.pow_le_mono_r; lia.
Qed.

End Rounding.

(** ** Rounding stays below a canonical bound *)

Section Bound.
Variables prec emax : Z.
Hypothesis Hprec : 0 < prec.

Lemma Zdigits2_pos (m : Z) : 0 < m -> 1 <= Zdigits2 m.
Proof. destruct m; simpl; lia. Qed.

Lemma testbit_low_false (m q k : Z) :
  0 < k -> 0 <= m -> 2 * m < (2 * q + 1) * 2 ^ k -> m / 2 ^ k = q ->
  Z.testbit m (k - 1) = false.
Proof.
  intros Hk Hm Hlt Hq.
  assert (Hp : 0 < 2 ^ k) by (apply Z.pow_pos_nonneg; lia).
  assert (Hp1 : 0 < 2 ^ (k - 1)) by (apply Z.pow_pos_nonneg; lia).
  assert (Hk2 : 2 ^ k = 2 * 2 ^ (k - 1)).
  { replace k with (1 + (k - 1)) at 1 by lia. rewrite Z.pow_add_r by lia. reflexivity. }
  pose proof (Z.div_mod m (2 ^ k) ltac:(lia)) as Hdm.
  pose proof (Z.mod_pos_bound m (2 ^ k) Hp) as Hmod.
  rewrite Hq in Hdm.
  apply Z.testbit_false; [lia|].
  assert (Hd : m / 2 ^ (k - 1) = 2 * q).
  { symmetry. apply (Z.div_unique _ _ _ (m mod 2 ^ k)); nia. }
  rewrite Hd. rewrite Z.mul_comm. apply Z.mod_mul. lia.
Qed.

Lemma round_le_bound (m e : Z) (l : location) (mB eB : Z) :
  0 <= m -> 0 < mB ->
  SpecFloat.fexp prec emax (Zdigits2 mB + eB) = eB ->
  e <= eB ->
  2 * m < (2 * mB + 1) * 2 ^ (eB - e) ->
  (l <> loc_Exact -> 2 * (m + 1) <= (2 * mB + 1) * 2 ^ (eB - e)) ->
  rnd_e prec emax m e l < eB \/
  (rnd_e prec emax m e l = eB /\ rnd_m prec emax m e l <= mB).
Proof.
  intros Hm HmB Hcan He Hlt Hinex.
  pose proof (Zdigits2_nonneg m) as HD0.
  pose proof (Zdigits2_lt_pow m Hm) as HDm.
  pose proof (Zdigits2_lt_pow mB ltac:(lia)) as HDB.
  pose proof (Zdigits2_nonneg mB) as HDB0.
  set (D := Zdigits2 m) in *. set (DB := Zdigits2 mB) in *.
  assert (Hpe : 0 < 2 ^ (eB - e)) by (apply Z.pow_pos_nonneg; lia).
  (* step 1 *)
  assert (HF : SpecFloat.fexp prec emax (D + e) <= eB).
  { rewrite <- Hcan. apply fexp_mono.
    destruct (Z.eq_dec m 0) as [-> | Hne].
    - unfold D. simpl. lia.
    - pose proof (Zdigits2_ge_pow m ltac:(lia)) as Hge. fold D in Hge.
      pose proof (Zdigits2_pos m ltac:(lia)) as Hd1. fold D in Hd1.
      assert (H1 : 2 ^ D <= 2 * m).
      { replace D with (1 + (D - 1)) at 1 by lia.
        rewrite Z.pow_add_r by lia. lia. }
      assert (H2 : 2 * mB + 1 < 2 ^ (DB + 1)).
      { rewrite Z.pow_add_r by lia. lia. }
      assert (H3 : 2 ^ D < 2 ^ (DB + 1 + (eB - e))).
      { rewrite (Z.pow_add_r 2 (DB + 1)) by lia. nia. }
      apply Z.pow_lt_mono_r_iff in H3; lia. }
  pose proof (fexp_ge prec emax (D + e)) as HFge.
  pose proof (fexp_ge_emin prec emax (D + e)) as HFmin.
  set (F := SpecFloat.fexp prec emax (D + e)) in *.
  pose proof (rnd_m2_bounds prec emax m e l Hm) as Hm2.
  pose proof (rnd_m2_nonneg prec emax m e l Hm) as Hm20.
  unfold rnd_e, rnd_m, rnd_k2, rnd_e1 in *.
  assert (Hk1 : rnd_k1 prec emax m e = Z.max 0 (F - e)) by reflexivity.
  set (k1 := rnd_k1 prec emax m e) in *.
  set (E := e + k1) in *.
  assert (HE : E <= eB) by lia.
  assert (Hpk : 0 < 2 ^ k1) by (apply Z.pow_pos_nonneg; lia).
  (* step 3 *)
  assert (Hm1 : m / 2 ^ k1 < 2 ^ prec).
  { apply Z.div_lt_upper_bound; [assumption|].
    rewrite <- Z.pow_add_r by lia.
    apply Z.lt_le_trans with (1 := HDm). apply Z.pow_le_mono_r; lia. }
  set (m2 := rnd_m2 prec emax m e l) in *.
  pose proof (Zdigits2_nonneg m2) as HD20.
  assert (HD2 : Zdigits2 m2 <= prec + 1).
  { apply Zdigits2_le; [lia|]. split; [lia|]. rewrite Z.pow_add_r by lia. lia. }
  set (k2 := Z.max 0 (SpecFloat.fexp prec emax (Zdigits2 m2 + E) - E)).
  assert (Hk2 : 0 <= k2 <= 1).
  { unfold k2. pose proof (fexp_mono prec emax (Zdigits2 m2 + E) (prec + 1 + E) ltac:(lia)) as H.
    unfold SpecFloat.fexp in H |- *. lia. }
  destruct (Z_lt_le_dec E eB) as [Hlt' | Hge'].
  - (* E < eB *)
    destruct (Z.eq_dec (E + k2) eB) as [Heq | Hneq]; [right | left; lia].
    split; [assumption|].
    assert (k2 = 1) by lia.
    assert (Hnorm : DB = prec).
    { unfold SpecFloat.fexp in Hcan. lia. }
    pose proof (Zdigits2_ge_pow mB HmB) as HgeB. fold DB in HgeB. rewrite Hnorm in HgeB.
    replace k2 with 1 by lia. change (2 ^ 1) with 2.
    assert (m2 <= 2 ^ prec) by lia.
    assert (2 ^ prec = 2 * 2 ^ (prec - 1)).
    { replace prec with (1 + (prec - 1)) at 1 by lia. rewrite Z.pow_add_r by lia. reflexivity. }
    assert (m2 / 2 < 2 ^ (prec - 1) + 1) by (apply Z.div_lt_upper_bound; lia).
    lia.
  - (* E = eB *)
    assert (HEe : E = eB) by lia.
    assert (Hk1e : k1 = eB - e) by lia.
    assert (Hm1B : m / 2 ^ k1 <= mB).
    { assert (m / 2 ^ k1 < mB + 1); [|lia].
      apply Z.div_lt_upper_bound; [assumption|]. rewrite Hk1e. nia. }
    assert (Hm2B : m2 <= mB).
    { destruct (Z_lt_le_dec (m / 2 ^ k1) mB) as [|Hge2]; [lia|].
      assert (Hq : m / 2 ^ k1 = mB) by lia.
      assert (Hdown : m2 = m / 2 ^ k1); [|lia].
      unfold m2, rnd_m2.
      replace (m / 2 ^ k1) with (shr_m (rnd_r1 prec emax m e l))
        by (apply rnd_r1_m; exact Hm).
      destruct (Z_lt_le_dec 0 k1) as [Hpos | Hzero].
      + apply round_nearest_even_down.
        unfold rnd_r1, shr_fexp. fold D. fold F.
        rewrite shr_fst_r; [ | rewrite shr_record_of_loc_m; lia | lia ].
        rewrite shr_record_of_loc_m.
        replace (F - e) with k1 by lia.
        apply (testbit_low_false m mB k1); try assumption.
        rewrite Hk1e. assumption.
      + assert (k1 = 0) by lia.
        unfold rnd_r1, shr_fexp. fold D. fold F.
        rewrite shr_fst_id by lia.
        rewrite loc_of_shr_record_of_loc, shr_record_of_loc_m.
        destruct l as [|c]; [reflexivity|].
        exfalso. assert (Hx : loc_Inexact c <> loc_Exact) by discriminate.
        specialize (Hinex Hx).
        replace (eB - e) with 0 in * by lia. change (2 ^ 0) with 1 in *.
        replace k1 with 0 in Hq by lia. change (2 ^ 0) with 1 in Hq.
        rewrite Z.div_1_r in Hq. lia. }
    assert (Hk20 : k2 = 0).
    { unfold k2.
      assert (Zdigits2 m2 <= DB) by (apply Zdigits2_le; lia).
      pose proof (fexp_mono prec emax (Zdigits2 m2 + E) (DB + eB) ltac:(lia)). lia. }
    right. rewrite Hk20. change (2 ^ 0) with 1. rewrite Z.div_1_r. lia.
Qed.

End Bound.

(** ** Bounds on rounded results *)

Lemma scale_lt (a b ea eb z z' : Z) :
  z <= ea -> z <= eb -> z' <= ea -> z' <= eb ->
  a * 2 ^ (ea - z) < b * 2 ^ (eb - z) ->
  a * 2 ^ (ea - z') < b * 2 ^ (eb - z').
Proof.
  intros H1 H2 H3 H4 H.
  set (w := Z.min z z').
  assert (Hw : a * 2 ^ (ea - w) < b * 2 ^ (eb - w)).
  { replace (ea - w) with ((ea - z) + (z - w)) by lia.
    replace (eb - w) with ((eb - z) + (z - w)) by lia.
    rewrite !Z.pow_add_r by lia.
    assert (0 < 2 ^ (z - w)) by (apply Z.pow_pos_nonneg; lia). nia. }
  replace (ea - w) with ((ea - z') + (z' - w)) in Hw by lia.
  replace (eb - w) with ((eb - z') + (z' - w)) in Hw by lia.
  rewrite !Z.pow_add_r in Hw by lia.
  assert (0 < 2 ^ (z' - w)) by (apply Z.pow_pos_nonneg; lia). nia.
Qed.

Lemma scale_le (a b ea eb z z' : Z) :
  z <= ea -> z <= eb -> z' <= ea -> z' <= eb ->
  a * 2 ^ (ea - z) <= b * 2 ^ (eb - z) ->
  a * 2 ^ (ea - z') <= b * 2 ^ (eb - z').
Proof.
  intros H1 H2 H3 H4 H.
  set (w := Z.min z z').
  assert (Hw : a * 2 ^ (ea - w) <= b * 2 ^ (eb - w)).
  { replace (ea - w) with ((ea - z) + (z - w)) by lia.
    replace (eb - w) with ((eb - z) + (z - w)) by lia.
    rewrite !Z.pow_add_r by lia.
    assert (0 < 2 ^ (z - w)) by (apply Z.pow_pos_nonneg; lia). nia. }
  replace (ea - w) with ((ea - z') + (z' - w)) in Hw by lia.
  replace (eb - w) with ((eb - z') + (z' - w)) in Hw by lia.
  rewrite !Z.pow_add_r in Hw by lia.
  assert (0 < 2 ^ (z' - w)) by (apply Z.pow_pos_nonneg; lia). nia.
Qed.

Section Wrappers.
Variables prec emax : Z.
Hypothesis Hprec : 0 < prec.

Lemma pos_le_value (m : positive) (e mB eB z : Z) :
  pos_le prec (S754_finite false m e) mB eB ->
  2 ^ (prec - 1) <= mB -> z <= e -> z <= eB ->
  Z.pos m * 2 ^ (e - z) <= mB * 2 ^ (eB - z).
Proof.
  intros [Hm Hlex] HB Hz1 Hz2.
  assert (H2 : 2 ^ prec = 2 * 2 ^ (prec - 1)).
  { replace prec with (1 + (prec - 1)) at 1 by lia. rewrite Z.pow_add_r by lia. reflexivity. }
  assert (Hp : 0 < 2 ^ (e - z)) by (apply Z.pow_pos_nonneg; lia).
  destruct Hlex as [Hlt | [Heq Hle]].
  - replace (eB - z) with ((eB - e - 1) + 1 + (e - z)) by lia.
    rewrite !Z.pow_add_r by lia. change (2 ^ 1) with 2.
    assert (0 < 2 ^ (eB - e - 1)) by (apply Z.pow_pos_nonneg; lia).
    apply Z.le_trans with (2 * mB * 2 ^ (e - z)); [nia|].
    replace (mB * (2 ^ (eB - e - 1) * 2 * 2 ^ (e - z)))
      with (2 ^ (eB - e - 1) * (2 * mB * 2 ^ (e - z))) by ring.
    assert (0 <= 2 * mB * 2 ^ (e - z)) by nia. nia.
  - rewrite Heq. apply Z.mul_le_mono_nonneg_r; lia.
Qed.

Lemma pos_le_leb (x : spec_float) (mB : positive) (eB : Z) :
  pos_le prec x (Z.pos mB) eB -> SFleb x (S754_finite false mB eB) = true.
Proof.
  destruct x as [s|s| |s m e]; simpl; try tauto; try reflexivity.
  destruct s; [tauto|]. intros [_ Hlex]. unfold SFleb, SFcompare.
  change (Pos.compare_cont Eq m mB) with (m ?= mB)%positive.
  destruct (Z.compare_spec e eB); try lia; try reflexivity.
  destruct (Pos.compare_spec m mB); try lia; reflexivity.
Qed.

Lemma pos_le_nonneg (x : spec_float) (mB eB : Z) :
  pos_le prec x mB eB -> SFleb (S754_zero false) x = true.
Proof.
  destruct x as [s|s| |s m e]; simpl; try tauto; try reflexivity.
  destruct s; [tauto|]. reflexivity.
Qed.

(** reading a bound off a comparison of canonical values *)
Lemma leb_pos_le (m : positive) (e : Z) (mB : positive) (eB : Z) :
  valid_binary prec emax (S754_finite false m e) = true ->
  SFleb (S754_finite false m e) (S754_finite false mB eB) = true ->
  pos_le prec (S754_finite false m e) (Z.pos mB) eB.
Proof.
  intros Hv Hle. simpl. split.
  - simpl in Hv. unfold bounded, canonical_mantissa in Hv.
    apply andb_true_iff in Hv as [Hc _]. apply Z.eqb_eq in Hc.
    pose proof (fexp_ge prec emax (Z.pos (digits2_pos m) + e)).
    pose proof (digits2_pos_bounds m) as [_ Hlt].
    apply Z.lt_le_trans with (1 := Hlt). apply Z.pow_le_mono_r; lia.
  - unfold SFleb, SFcompare in Hle.
    change (Pos.compare_cont Eq m mB) with (m ?= mB)%positive in Hle.
    destruct (Z.compare_spec e eB); try lia; try discriminate.
    destruct (Pos.compare_spec m mB); try lia; discriminate.
Qed.

Lemma bra_pos_le (m e : Z) (l : location) (mB eB : Z) :
  0 <= m -> 0 < mB ->
  SpecFloat.fexp prec emax (Zdigits2 mB + eB) = eB ->
  eB <= emax - prec ->
  e <= eB ->
  2 * m < (2 * mB + 1) * 2 ^ (eB - e) ->
  (l <> loc_Exact -> 2 * (m + 1) <= (2 * mB + 1) * 2 ^ (eB - e)) ->
  pos_le prec (binary_round_aux prec emax false m e l) mB eB.
Proof.
  intros Hm HmB Hcan Hfin He Hlt Hin.
  rewrite binary_round_aux_eq by assumption.
  pose proof (rnd_m_nonneg prec emax m e l Hm) as H0.
  pose proof (rnd_m_lt prec emax Hprec m e l Hm) as H1.
  pose proof (round_le_bound prec emax Hprec m e l mB eB Hm HmB Hcan He Hlt Hin) as H2.
  destruct (rnd_m prec emax m e l) as [|p|p]; [exact I| |lia].
  destruct (Z.leb_spec (rnd_e prec emax m e l) (emax - prec)); [|lia].
  simpl. split; assumption.
Qed.

Lemma fexp_digits_le (m : positive) (e mB eB z : Z) :
  0 < mB ->
  SpecFloat.fexp prec emax (Zdigits2 mB + eB) = eB ->
  z <= e -> z <= eB ->
  2 * Z.pos m * 2 ^ (e - z) < (2 * mB + 1) * 2 ^ (eB - z) ->
  SpecFloat.fexp prec emax (Z.pos (digits2_pos m) + e) <= eB.
Proof.
  intros HmB Hcan Hz1 Hz2 Hlt.
  rewrite <- Hcan. apply fexp_mono.
  pose proof (digits2_pos_bounds m) as [Hlo _].
  pose proof (Zdigits2_lt_pow mB ltac:(lia)) as HDB.
  pose proof (Zdigits2_nonneg mB) as HDB0.
  set (D := Z.pos (digits2_pos m)) in *. set (DB := Zdigits2 mB) in *.
  assert (HD1 : 1 <= D) by (unfold D; lia).
  assert (H1 : 2 ^ D <= 2 * Z.pos m).
  { replace D with (1 + (D - 1)) at 1 by lia. rewrite Z.pow_add_r by lia. lia. }
  assert (H2 : 2 * mB + 1 < 2 ^ (DB + 1)) by (rewrite Z.pow_add_r by lia; lia).
  assert (Hp1 : 0 < 2 ^ (e - z)) by (apply Z.pow_pos_nonneg; lia).
  assert (Hp2 : 0 < 2 ^ (eB - z)) by (apply Z.pow_pos_nonneg; lia).
  assert (H3 : 2 ^ (D + (e - z)) < 2 ^ (DB + 1 + (eB - z))).
  { rewrite !Z.pow_add_r by lia. rewrite Z.pow_add_r in H2 by lia. nia. }
  apply Z.pow_lt_mono_r_iff in H3; lia.
Qed.

Lemma binary_round_pos_le (m : positive) (e mB eB z : Z) :
  0 < mB ->
  SpecFloat.fexp prec emax (Zdigits2 mB + eB) = eB ->
  eB <= emax - prec ->
  z <= e -> z <= eB ->
  2 * Z.pos m * 2 ^ (e - z) < (2 * mB + 1) * 2 ^ (eB - z) ->
  pos_le prec (binary_round prec emax false m e) mB eB.
Proof.
  intros HmB Hcan Hfin Hz1 Hz2 Hlt.
  pose proof (fexp_digits_le m e mB eB z HmB Hcan Hz1 Hz2 Hlt) as HF.
  unfold binary_round.
  set (F := SpecFloat.fexp prec emax (Z.pos (digits2_pos m) + e)) in *.
  destruct (Z_le_gt_dec e F) as [Hle | Hgt].
  - rewrite shl_align_id by assumption.
    apply bra_pos_le; try assumption; try lia; [|congruence].
    pose proof (scale_lt (2 * Z.pos m) (2 * mB + 1) e eB z e Hz1 Hz2 ltac:(lia) ltac:(lia) Hlt) as H.
    rewrite Z.sub_diag in H. change (2 ^ 0) with 1 in H. lia.
  - destruct (shl_align_spec m e F ltac:(lia)) as [Hv He'].
    destruct (shl_align m e F) as [mz ez]. cbn [fst snd] in Hv, He'. subst ez.
    apply bra_pos_le; try assumption; try lia; [|congruence].
    rewrite Hv.
    pose proof (scale_lt (2 * Z.pos m) (2 * mB + 1) e eB z F Hz1 Hz2 ltac:(lia) ltac:(lia) Hlt) as H.
    lia.
Qed.

End Wrappers.

(** ** Rounding stays above a canonical bound *)

Lemma SFcompare_antisym (x y : spec_float) :
  SFcompare y x = option_map CompOpp (SFcompare x y).
Proof.
  unfold SFcompare.
  destruct x as [sx|sx| |sx mx ex], y as [sy|sy| |sy my ey];
    try destruct sx; try destruct sy; try reflexivity;
  change (Pos.compare_cont Eq mx my) with (mx ?= my)%positive;
  change (Pos.compare_cont Eq my mx) with (my ?= mx)%positive;
  cbn [option_map]; rewrite (Z.compare_antisym ex ey), (Pos.compare_antisym mx my);
  destruct (ex ?= ey); try reflexivity;
  destruct (mx ?= my)%positive; reflexivity.
Qed.

Lemma leb_not_ltb (x y : spec_float) : SFleb x y = true -> SFltb y x = false.
Proof.
  unfold SFleb, SFltb. rewrite (SFcompare_antisym x y).
  destruct (SFcompare x y) as [[]|]; simpl; congruence.
Qed.

Section Lower.
Variables prec emax : Z.
Hypothesis Hprec : 0 < prec.

Lemma round_ge_bound (m e : Z) (l : location) (mB eB z : Z) :
  0 <= m -> 0 < mB ->
  SpecFloat.fexp prec emax (Zdigits2 mB + eB) = eB ->
  z <= e -> z <= eB ->
  mB * 2 ^ (eB - z) <= m * 2 ^ (e - z) ->
  0 < rnd_m prec emax m e l /\
  (eB < rnd_e prec emax m e l \/
   (rnd_e prec emax m e l = eB /\ mB <= rnd_m prec emax m e l)).
Proof.
  intros Hm HmB Hcan Hz1 Hz2 Hval.
  pose proof (Zdigits2_lt_pow m Hm) as HDm.
  pose proof (Zdigits2_nonneg m) as HD0.
  pose proof (Zdigits2_ge_pow mB HmB) as HDB.
  pose proof (Zdigits2_pos mB HmB) as HDB1.
  set (D := Zdigits2 m) in *. set (DB := Zdigits2 mB) in *.
  assert (Hp1 : 0 < 2 ^ (e - z)) by (apply Z.pow_pos_nonneg; lia).
  assert (Hp2 : 0 < 2 ^ (eB - z)) by (apply Z.pow_pos_nonneg; lia).
  assert (Hmpos : 0 < m) by nia.
  pose proof (Zdigits2_ge_pow m Hmpos) as HDge. fold D in HDge.
  pose proof (Zdigits2_pos m Hmpos) as HD1. fold D in HD1.
  assert (HDD : DB + eB <= D + e).
  { assert (H3 : 2 ^ (DB - 1 + (eB - z)) < 2 ^ (D + (e - z))).
    { rewrite !Z.pow_add_r by lia. nia. }
    apply Z.pow_lt_mono_r_iff in H3; lia. }
  pose proof (fexp_mono prec emax _ _ HDD) as HF. rewrite Hcan in HF.
  pose proof (fexp_ge_emin prec emax (DB + eB)) as Hemin. rewrite Hcan in Hemin.
  pose proof (fexp_ge_emin prec emax (D + e)) as HFmin.
  assert (HFdef : SpecFloat.fexp prec emax (D + e)
                  = Z.max (D + e - prec) (SpecFloat.emin prec emax)) by reflexivity.
  set (F := SpecFloat.fexp prec emax (D + e)) in *.
  pose proof (rnd_m2_bounds prec emax m e l Hm) as Hm2.
  unfold rnd_e, rnd_m, rnd_k2, rnd_e1 in *.
  assert (Hk1 : rnd_k1 prec emax m e = Z.max 0 (F - e)) by reflexivity.
  set (k1 := rnd_k1 prec emax m e) in *.
  set (E := e + k1) in *.
  assert (Hpk : 0 < 2 ^ k1) by (apply Z.pow_pos_nonneg; lia).
  assert (Hm1 : 1 <= m / 2 ^ k1).
  { apply Z.div_le_lower_bound; [assumption|]. rewrite Z.mul_1_r.
    apply Z.le_trans with (2 ^ (D - 1)); [|assumption].
    apply Z.pow_le_mono_r; lia. }
  set (m2 := rnd_m2 prec emax m e l) in *.
  assert (Hm2pos : 0 < m2) by lia.
  pose proof (Zdigits2_ge_pow m2 Hm2pos) as HD2ge.
  pose proof (Zdigits2_pos m2 Hm2pos) as HD21.
  assert (HF2def : SpecFloat.fexp prec emax (Zdigits2 m2 + E)
                   = Z.max (Zdigits2 m2 + E - prec) (SpecFloat.emin prec emax)) by reflexivity.
  set (F2 := SpecFloat.fexp prec emax (Zdigits2 m2 + E)) in *.
  set (k2 := Z.max 0 (F2 - E)).
  assert (Hpk2 : 0 < 2 ^ k2) by (apply Z.pow_pos_nonneg; lia).
  assert (Hm3 : 1 <= m2 / 2 ^ k2).
  { apply Z.div_le_lower_bound; [assumption|]. rewrite Z.mul_1_r.
    apply Z.le_trans with (2 ^ (Zdigits2 m2 - 1)); [|assumption].
    apply Z.pow_le_mono_r; lia. }
  split; [lia|].
  destruct (Z_lt_le_dec eB (E + k2)) as [Hlt | Hge]; [left; assumption | right].
  assert (HEe : E = eB) by lia. assert (Hk20 : k2 = 0) by lia.
  split; [lia|].
  rewrite Hk20. change (2 ^ 0) with 1. rewrite Z.div_1_r.
  assert (mB <= m / 2 ^ k1); [|lia].
  apply Z.div_le_lower_bound; [assumption|].
  pose proof (scale_le mB m eB e z e Hz2 Hz1 ltac:(lia) ltac:(lia) Hval) as H.
  rewrite Z.sub_diag in H. change (2 ^ 0) with 1 in H.
  replace k1 with (eB - e) by lia. lia.
Qed.

End Lower.

Lemma pos_ge_not_ltb (x : spec_float) (mB : positive) (eB : Z) :
  pos_ge x (Z.pos mB) eB -> SFltb x (S754_finite false mB eB) = false.
Proof.
  destruct x as [s|s| |s m e]; cbn [pos_ge]; try tauto.
  - destruct s; [tauto | reflexivity].
  - destruct s; [tauto|]. intros Hlex. unfold SFltb, SFcompare.
    change (Pos.compare_cont Eq m mB) with (m ?= mB)%positive.
    destruct (Z.compare_spec e eB); try lia; try reflexivity.
    destruct (Pos.compare_spec m mB); try lia; reflexivity.
Qed.

Lemma binary_round_pos_ge (prec emax : Z) (m : positive) (e mB eB z : Z) :
  0 < prec -> 0 < mB ->
  SpecFloat.fexp prec emax (Zdigits2 mB + eB) = eB ->
  z <= e -> z <= eB ->
  mB * 2 ^ (eB - z) <= Z.pos m * 2 ^ (e - z) ->
  pos_ge (binary_round prec emax false m e) mB eB.
Proof.
  intros Hprec HmB Hcan Hz1 Hz2 Hval. unfold binary_round.
  set (F := SpecFloat.fexp prec emax (Z.pos (digits2_pos m) + e)).
  assert (Hres : forall mz ez, ez <= e -> Z.pos mz * 2 ^ (ez - Z.min z ez) = Z.pos m * 2 ^ (e - Z.min z ez) ->
            pos_ge (binary_round_aux prec emax false (Z.pos mz) ez loc_Exact) mB eB).
  { intros mz ez Hez Hv.
    rewrite binary_round_aux_eq by lia.
    destruct (round_ge_bound prec emax Hprec (Z.pos mz) ez loc_Exact mB eB (Z.min z ez))
      as [Hpos Hlex]; try lia; try assumption.
    - rewrite Hv. apply (scale_le mB (Z.pos m) eB e z); lia.
    - destruct (rnd_m prec emax (Z.pos mz) ez loc_Exact) as [|p|p]; try lia.
      destruct (_ <=? _); [|exact I]. exact Hlex. }
  destruct (Z_le_gt_dec e F) as [Hle | Hgt].
  - rewrite shl_align_id by assumption. apply Hres; [lia | reflexivity].
  - destruct (shl_align_spec m e F ltac:(lia)) as [Hv He'].
    destruct (shl_align m e F) as [mz ez]. cbn [fst snd] in Hv, He'. subst ez.
    apply Hres; [lia|]. rewrite Hv.
    rewrite <- Z.mul_assoc, <- Z.pow_add_r by lia. f_equal. f_equal. lia.
Qed.

Lemma binary_round_has_sign (prec emax : Z) (sx : bool) (m : positive) (e : Z) :
  has_sign sx (binary_round prec emax sx m e).
Proof.
  unfold binary_round. destruct (shl_align m e _) as [mz ez].
  rewrite binary_round_aux_eq by lia.
  pose proof (rnd_m_nonneg prec emax (Z.pos mz) ez loc_Exact ltac:(lia)).
  destruct (rnd_m prec emax (Z.pos mz) ez loc_Exact); [reflexivity | | lia].
  destruct (_ <=? _); reflexivity.
Qed.

(** ** Rounded results are canonical *)

Lemma Zdigits2_unique (x d : Z) :
  0 < x -> 2 ^ (d - 1) <= x < 2 ^ d -> Zdigits2 x = d.
Proof.
  intros Hx [Hlo Hhi].
  pose proof (Zdigits2_lt_pow x ltac:(lia)) as H1.
  pose proof (Zdigits2_ge_pow x Hx) as H2.
  pose proof (Zdigits2_pos x Hx) as H3.
  assert (Hd : 0 < d).
  { destruct (Z_lt_le_dec 0 d); [assumption|].
    assert (2 ^ d <= 1); [|lia].
    destruct (Z.eq_dec d 0) as [-> | Hn]; [reflexivity|].
    rewrite Z.pow_neg_r by lia. lia. }
  assert (A : 2 ^ (d - 1) < 2 ^ Zdigits2 x) by lia.
  assert (B : 2 ^ (Zdigits2 x - 1) < 2 ^ d) by lia.
  apply Z.pow_lt_mono_r_iff in A; try lia. apply Z.pow_lt_mono_r_iff in B; lia.
Qed.

Lemma Zdigits2_div_pow2 (m k : Z) :
  0 <= k -> 2 ^ k <= m -> Zdigits2 (m / 2 ^ k) = Zdigits2 m - k.
Proof.
  intros Hk Hm.
  assert (Hp : 0 < 2 ^ k) by (apply Z.pow_pos_nonneg; lia).
  assert (Hmpos : 0 < m) by lia.
  pose proof (Zdigits2_lt_pow m ltac:(lia)) as H1.
  pose proof (Zdigits2_ge_pow m Hmpos) as H2.
  set (D := Zdigits2 m) in *.
  assert (HDk : k < D).
  { assert (A : 2 ^ k < 2 ^ D) by lia. apply Z.pow_lt_mono_r_iff in A; unfold D; try lia.
    apply Zdigits2_nonneg. }
  apply Zdigits2_unique.
  - apply Z.div_str_pos. lia.
  - split.
    + apply Z.div_le_lower_bound; [assumption|].
      rewrite <- Z.pow_add_r by lia. replace (k + (D - k - 1)) with (D - 1) by lia. assumption.
    + apply Z.div_lt_upper_bound; [assumption|].
      rewrite <- Z.pow_add_r by lia. replace (k + (D - k)) with D by lia. assumption.
Qed.

Lemma Zdigits2_mono (a b : Z) : 0 <= a <= b -> Zdigits2 a <= Zdigits2 b.
Proof.
  intros [Ha Hab]. apply Zdigits2_le; [apply Zdigits2_nonneg|].
  pose proof (Zdigits2_lt_pow b ltac:(lia)). lia.
Qed.

Section Valid.
Variables prec emax : Z.
Hypothesis Hprec : 0 < prec.

(** rounding a mantissa that has enough digits gives a canonical one *)
Lemma rnd_canonical (m e : Z) (l : location) :
  0 <= m -> e <= SpecFloat.fexp prec emax (Zdigits2 m + e) ->
  0 < rnd_m prec emax m e l ->
  SpecFloat.fexp prec emax (Zdigits2 (rnd_m prec emax m e l) + rnd_e prec emax m e l)
  = rnd_e prec emax m e l.
Proof.
  intros Hm He Hpos.
  pose proof (rnd_m2_bounds prec emax m e l Hm) as Hm2.
  pose proof (rnd_m2_nonneg prec emax m e l Hm) as Hm20.
  unfold rnd_e, rnd_m, rnd_k2, rnd_e1 in *.
  assert (HFdef : SpecFloat.fexp prec emax (Zdigits2 m + e)
                  = Z.max (Zdigits2 m + e - prec) (SpecFloat.emin prec emax)) by reflexivity.
  set (F := SpecFloat.fexp prec emax (Zdigits2 m + e)) in *.
  assert (Hk1 : rnd_k1 prec emax m e = Z.max 0 (F - e)) by reflexivity.
  set (k1 := rnd_k1 prec emax m e) in *.
  set (E := e + k1) in *.
  assert (HE : E = F) by lia.
  set (m2 := rnd_m2 prec emax m e l) in *.
  assert (HF2def : SpecFloat.fexp prec emax (Zdigits2 m2 + E)
                   = Z.max (Zdigits2 m2 + E - prec) (SpecFloat.emin prec emax)) by reflexivity.
  set (F2 := SpecFloat.fexp prec emax (Zdigits2 m2 + E)) in *.
  set (k2 := Z.max 0 (F2 - E)) in *.
  assert (Hpk1 : 0 < 2 ^ k1) by (apply Z.pow_pos_nonneg; lia).
  assert (Hpk2 : 0 < 2 ^ k2) by (apply Z.pow_pos_nonneg; lia).
  assert (Hm2pos : 0 < m2).
  { destruct (Z_lt_le_dec 0 m2); [assumption|].
    assert (m2 = 0) by lia. rewrite H in Hpos. rewrite Z.div_0_l in Hpos; lia. }
  assert (Hge : 2 ^ k2 <= m2).
  { destruct (Z_lt_le_dec m2 (2 ^ k2)); [|assumption].
    rewrite Z.div_small in Hpos by lia. lia. }
  rewrite Zdigits2_div_pow2 by lia.
  replace (Zdigits2 m2 - k2 + (E + k2)) with (Zdigits2 m2 + E) by lia.
  fold F2.
  destruct (Z_lt_le_dec 0 (F2 - E)) as [Hk2pos | Hk20]; [lia|].
  assert (k2 = 0) by lia.
  assert (E <= F2); [|lia].
  destruct (Z_lt_le_dec (m / 2 ^ k1) 1) as [Hsmall | Hbig].
  - (* the shifted mantissa vanished: subnormal range *)
    assert (Hz : m / 2 ^ k1 = 0).
    { assert (0 <= m / 2 ^ k1) by (apply Z.div_pos; lia). lia. }
    apply Z.div_small_iff in Hz; [|lia].
    destruct Hz as [Hz | Hz]; [|lia].
    pose proof (Zdigits2_nonneg m) as HD0.
    assert (HDk : Zdigits2 m <= k1) by (apply Zdigits2_le; lia).
    lia.
  - assert (Hd1 : Zdigits2 (m / 2 ^ k1) = Zdigits2 m - k1).
    { apply Zdigits2_div_pow2; [lia|].
      destruct (Z_lt_le_dec m (2 ^ k1)); [|assumption].
      rewrite Z.div_small in Hbig by lia. lia. }
    pose proof (Zdigits2_mono (m / 2 ^ k1) m2 ltac:(lia)) as Hmono.
    lia.
Qed.

Lemma binary_round_valid (s : bool) (m : positive) (e : Z) :
  valid_binary prec emax (binary_round prec emax s m e) = true.
Proof.
  unfold binary_round.
  set (F := SpecFloat.fexp prec emax (Z.pos (digits2_pos m) + e)).
  assert (Hres : forall mz ez,
            ez <= SpecFloat.fexp prec emax (Zdigits2 (Z.pos mz) + ez) ->
            valid_binary prec emax (binary_round_aux prec emax s (Z.pos mz) ez loc_Exact) = true).
  { intros mz ez Hez. rewrite binary_round_aux_eq by lia.
    pose proof (rnd_canonical (Z.pos mz) ez loc_Exact ltac:(lia) Hez) as Hc.
    destruct (rnd_m prec emax (Z.pos mz) ez loc_Exact) as [|p|p] eqn:Ep; try reflexivity.
    destruct (Z.leb_spec (rnd_e prec emax (Z.pos mz) ez loc_Exact) (emax - prec)); [|reflexivity].
    simpl. unfold bounded, canonical_mantissa.
    apply andb_true_iff. split; [apply Z.eqb_eq; apply Hc; lia | apply Z.leb_le; assumption]. }
  destruct (Z_le_gt_dec e F) as [Hle | Hgt].
  - rewrite shl_align_id by assumption. apply Hres. exact Hle.
  - destruct (shl_align_spec m e F ltac:(lia)) as [Hv He'].
    destruct (shl_align m e F) as [mz ez]. cbn [fst snd] in Hv, He'. subst ez.
    apply Hres.
    assert (Hd : Zdigits2 (Z.pos mz) = Zdigits2 (Z.pos m) + (e - F)).
    { pose proof (Zdigits2_lt_pow (Z.pos m) ltac:(lia)) as H1.
      pose proof (Zdigits2_ge_pow (Z.pos m) ltac:(lia)) as H2.
      pose proof (Zdigits2_pos (Z.pos m) ltac:(lia)) as H3.
      assert (0 < 2 ^ (e - F)) by (apply Z.pow_pos_nonneg; lia).
      apply Zdigits2_unique; [lia|]. rewrite Hv. split.
      - replace (Zdigits2 (Z.pos m) + (e - F) - 1) with ((Zdigits2 (Z.pos m) - 1) + (e - F)) by lia.
        rewrite Z.pow_add_r by lia. nia.
      - rewrite Z.pow_add_r by lia. nia. }
    rewrite Hd. replace (Zdigits2 (Z.pos m) + (e - F) + F) with (Z.pos (digits2_pos m) + e)
      by (simpl; lia).
    fold F. lia.
Qed.

End Valid.

(** ** The display scale *)

Lemma leb_neg_pos_le (prec emax : Z) (m : positive) (e : Z) (mB : positive) (eB : Z) :
  0 < prec ->
  valid_binary prec emax (S754_finite true m e) = true ->
  SFleb (S754_finite true mB eB) (S754_finite true m e) = true ->
  pos_le prec (S754_finite false m e) (Z.pos mB) eB.
Proof.
  intros Hprec Hv Hle. simpl. split.
  - simpl in Hv. unfold bounded, canonical_mantissa in Hv.
    apply andb_true_iff in Hv as [Hc _]. apply Z.eqb_eq in Hc.
    pose proof (fexp_ge prec emax (Z.pos (digits2_pos m) + e)).
    pose proof (digits2_pos_bounds m) as [_ Hlt].
    apply Z.lt_le_trans with (1 := Hlt). apply Z.pow_le_mono_r; lia.
  - unfold SFleb, SFcompare in Hle.
    change (Pos.compare_cont Eq mB m) with (mB ?= m)%positive in Hle.
    destruct (Z.compare_spec eB e); try lia; try discriminate.
    destruct (Pos.compare_spec mB m); try lia; discriminate.
Qed.

Section Rescale.
Variable ea : Z.
Hypothesis Hea : -100 <= ea <= 100.

Let offset : float := S754_finite false ma ea.
Let range : F64.double := S754_finite false mc (ea - 28).

(** step A: the sum is at most twice the offset *)
Lemma add_offset_bound (angle : float) :
  F32.valid angle = true ->
  F32.le (S754_finite true ma ea) angle = true ->
  F32.le angle offset = true ->
  pos_le 24 (F32.add angle offset) (Z.pos ma) (ea + 1).
Proof.
  intros Hv Hlo Hhi.
  assert (Hp24 : (0 < 24)%Z) by lia.
  destruct angle as [s|s| |s m e].
  - simpl. split; [reflexivity | lia].
  - destruct s; discriminate.
  - discriminate.
  - unfold F32.add, offset, SFadd. set (ez := Z.min e ea).
    destruct (shl_align_spec m e ez ltac:(lia)) as [HX _].
    destruct (shl_align_spec ma ea ez ltac:(lia)) as [HC _].
    set (X := fst (shl_align m e ez)) in *. set (C := fst (shl_align ma ea ez)) in *.
    assert (Hval : Z.pos m * 2 ^ (e - ez) <= Z.pos ma * 2 ^ (ea - ez)).
    { apply (pos_le_value 24 Hp24); [ | vm_compute; discriminate | lia | lia ].
      destruct s.
      - apply (leb_neg_pos_le 24 128); assumption.
      - apply (leb_pos_le 24 128); assumption. }
    rewrite <- HX, <- HC in Hval.
    assert (Hcan : SpecFloat.fexp F32.prec F32.emax (Zdigits2 (Z.pos ma) + (ea + 1)) = ea + 1).
    { unfold SpecFloat.fexp, SpecFloat.emin, F32.prec, F32.emax. simpl Zdigits2. lia. }
    assert (Hpow : 2 ^ (ea + 1 - ez) = 2 * 2 ^ (ea - ez)).
    { replace (ea + 1 - ez) with (1 + (ea - ez)) by lia. rewrite Z.pow_add_r by lia. reflexivity. }
    destruct s; unfold cond_Zopp.
    + (* negative angle *)
      unfold binary_normalize.
      destruct (- Z.pos X + Z.pos C) as [|p|p] eqn:E; [exact I | | lia].
      apply (binary_round_pos_le F32.prec F32.emax Hp24 p ez (Z.pos ma) (ea + 1) ez);
        try assumption; try lia.
      * unfold F32.emax, F32.prec. lia.
      * rewrite Z.sub_diag. change (2 ^ 0) with 1. rewrite Hpow.
        assert (0 < 2 ^ (ea - ez)) by (apply Z.pow_pos_nonneg; lia). nia.
    + change (Z.pos X + Z.pos C) with (Z.pos (X + C)). unfold binary_normalize.
      apply (binary_round_pos_le F32.prec F32.emax Hp24 (X + C) ez (Z.pos ma) (ea + 1) ez);
        try assumption; try lia.
      * unfold F32.emax, F32.prec. lia.
      * rewrite Z.sub_diag. change (2 ^ 0) with 1. rewrite Hpow, Pos2Z.inj_add.
        assert (0 < 2 ^ (ea - ez)) by (apply Z.pow_pos_nonneg; lia). nia.
Qed.

(** step B: the conversion to double keeps the bound *)
Lemma of_float_bound (x : float) :
  pos_le 24 x (Z.pos ma) (ea + 1) ->
  pos_le 53 (F64.of_float x) (Z.pos ma * 2 ^ 29) (ea - 28).
Proof.
  intros Hx. destruct x as [s|s| |s m e]; try exact Hx.
  destruct s; [destruct Hx|].
  assert (Hp24 : (0 < 24)%Z) by lia. assert (Hp53 : (0 < 53)%Z) by lia.
  unfold F64.of_float.
  set (z := Z.min e (ea - 28)).
  pose proof (pos_le_value 24 Hp24 m e (Z.pos ma) (ea + 1) z Hx
                ltac:(vm_compute; discriminate) ltac:(lia) ltac:(lia)) as Hval.
  apply (binary_round_pos_le F64.prec F64.emax Hp53 m e _ (ea - 28) z); try lia.
  - unfold SpecFloat.fexp, SpecFloat.emin, F64.prec, F64.emax.
    change (Zdigits2 (Z.pos ma * 2 ^ 29)) with 53. lia.
  - unfold F64.emax, F64.prec. lia.
  - replace (ea + 1 - z) with (29 + (ea - 28 - z)) in Hval by lia.
    rewrite Z.pow_add_r in Hval by lia.
    assert (0 < 2 ^ (ea - 28 - z)) by (apply Z.pow_pos_nonneg; lia). nia.
Qed.

(** step C: the quotient by the range is at most 1 + 2^-25 *)
Lemma div_range_bound (x : F64.double) :
  pos_le 53 x (Z.pos ma * 2 ^ 29) (ea - 28) ->
  pos_le 53 (F64.div x range) (2 ^ 52 + 2 ^ 27) (-52).
Proof.
  intros Hx. destruct x as [s|s| |s m e]; try exact Hx; try exact I.
  destruct s; [destruct Hx|].
  assert (Hp53 : (0 < 53)%Z) by lia.
  pose proof (pos_le_value 53 Hp53 m e _ (ea - 28) e Hx
                ltac:(vm_compute; discriminate) ltac:(lia)) as Hval.
  destruct Hx as [Hm Hlex].
  assert (He : e <= ea - 28) by lia. specialize (Hval He).
  rewrite Z.sub_diag in Hval. change (2 ^ 0) with 1 in Hval. rewrite Z.mul_1_r in Hval.
  unfold F64.div, range, SFdiv, SFdiv_core_binary.
  change (Zdigits2 (Z.pos mc)) with 53.
  assert (Hd : Zdigits2 (Z.pos m) <= 53) by (apply Zdigits2_le; lia).
  pose proof (Zdigits2_nonneg (Z.pos m)) as Hd0.
  set (d1 := Zdigits2 (Z.pos m)) in *.
  set (e' := Z.min (SpecFloat.fexp F64.prec F64.emax (d1 + e - (53 + (ea - 28)))) (e - (ea - 28))).
  assert (He' : e' <= -53).
  { unfold e', SpecFloat.fexp, SpecFloat.emin, F64.prec, F64.emax. lia. }
  set (sh := e - (ea - 28) - e').
  assert (Hsh : 0 <= sh) by (unfold sh, e'; lia).
  set (m' := match sh with Z.pos _ => Z.shiftl (Z.pos m) sh | 0 => Z.pos m | Z.neg _ => 0 end).
  assert (Hm' : m' = Z.pos m * 2 ^ sh).
  { unfold m'. destruct sh as [|p|p] eqn:E; try lia.
    rewrite Z.shiftl_mul_pow2 by lia. reflexivity. }
  pose proof (Z_div_mod m' (Z.pos mc) ltac:(lia)) as Hdm.
  destruct (Z.div_eucl m' (Z.pos mc)) as [q r]. destruct Hdm as [Hdm Hr].
  set (t := -52 - e').
  assert (Ht : 1 <= t) by (unfold t; lia).
  assert (Hpt : 2 <= 2 ^ t).
  { change 2 with (2 ^ 1) at 1. apply Z.pow_le_mono_r; lia. }
  assert (Hq0 : 0 <= q).
  { assert (0 <= m') by (rewrite Hm'; apply Z.mul_nonneg_nonneg; [lia | apply Z.pow_nonneg; lia]).
    destruct (Z_lt_le_dec q 0); [nia | assumption]. }
  (* q * mc <= ma * 2^29 * 2^(-e') *)
  assert (Hbound : q * Z.pos mc <= Z.pos ma * 2 ^ 29 * 2 ^ 52 * 2 ^ t).
  { assert (Hm2 : m' <= Z.pos ma * 2 ^ 29 * 2 ^ (ea - 28 - e) * 2 ^ sh).
    { rewrite Hm'. apply Z.mul_le_mono_nonneg_r; [apply Z.pow_nonneg; lia | assumption]. }
    replace (Z.pos ma * 2 ^ 29 * 2 ^ (ea - 28 - e) * 2 ^ sh)
      with (Z.pos ma * 2 ^ 29 * (2 ^ (ea - 28 - e) * 2 ^ sh)) in Hm2 by ring.
    rewrite <- Z.pow_add_r in Hm2 by lia.
    replace (ea - 28 - e + sh) with (52 + t) in Hm2 by (unfold sh, t; lia).
    rewrite Z.pow_add_r in Hm2 by lia. nia. }
  assert (Hkey : 2 * (Z.pos ma * 2 ^ 29) * 2 ^ 52 + Z.pos mc
                 <= (2 * (2 ^ 52 + 2 ^ 27) + 1) * Z.pos mc)
    by (vm_compute; discriminate).
  assert (Hgoal : 2 * (q + 1) <= (2 * (2 ^ 52 + 2 ^ 27) + 1) * 2 ^ t).
  { assert (H : 2 * (q + 1) * Z.pos mc <= (2 * (2 ^ 52 + 2 ^ 27) + 1) * 2 ^ t * Z.pos mc).
    { apply Z.le_trans with ((2 * (Z.pos ma * 2 ^ 29) * 2 ^ 52 + Z.pos mc) * 2 ^ t); [nia|].
      replace ((2 * (2 ^ 52 + 2 ^ 27) + 1) * 2 ^ t * Z.pos mc)
        with ((2 * (2 ^ 52 + 2 ^ 27) + 1) * Z.pos mc * 2 ^ t) by ring.
      apply Z.mul_le_mono_nonneg_r; [lia | assumption]. }
    apply Z.mul_le_mono_pos_r in H; [assumption | lia]. }
  apply (bra_pos_le F64.prec F64.emax Hp53); try assumption; try lia.
  - reflexivity.
  - fold t. lia.
  - intros _. fold t. assumption.
Qed.

End Rescale.

(** step D: times 18 *)
Lemma mul_eighteen_bound (x : F64.double) :
  pos_le 53 x (2 ^ 52 + 2 ^ 27) (-52) ->
  pos_le 53 (F64.mul x (F64.of_Z 18)) (9 * 2 ^ 49 + 9 * 2 ^ 24) (-48).
Proof.
  intros Hx.
  change (F64.of_Z 18) with (S754_finite false 5066549580791808 (-48)).
  destruct x as [s|s| |s m e]; try exact Hx; try exact I.
  destruct s; [destruct Hx|].
  assert (Hp53 : (0 < 53)%Z) by lia.
  pose proof (pos_le_value 53 Hp53 m e _ (-52) e Hx
                ltac:(vm_compute; discriminate) ltac:(lia)) as Hval.
  destruct Hx as [Hm Hlex].
  assert (He : e <= -52) by lia. specialize (Hval He).
  rewrite Z.sub_diag in Hval. change (2 ^ 0) with 1 in Hval. rewrite Z.mul_1_r in Hval.
  unfold F64.mul, SFmul. change (xorb false false) with false.
  apply (bra_pos_le F64.prec F64.emax Hp53); try lia.
  - reflexivity.
  - unfold F64.emax, F64.prec. lia.
  - rewrite Pos2Z.inj_mul.
    replace (-48 - (e + -48)) with (52 + (-52 - e)) by lia.
    rewrite Z.pow_add_r by lia.
    assert (0 < 2 ^ (-52 - e)) by (apply Z.pow_pos_nonneg; lia).
    assert (Hk : (2 ^ 52 + 2 ^ 27) * 5066549580791808 = (9 * 2 ^ 49 + 9 * 2 ^ 24) * 2 ^ 52)
      by reflexivity.
    nia.
  - congruence.
Qed.

(** step E: back to float *)
Lemma of_double_bound (x : F64.double) :
  pos_le 53 x (9 * 2 ^ 49 + 9 * 2 ^ 24) (-48) ->
  pos_le 24 (F32.of_double x) 9437184 (-19).
Proof.
  intros Hx. destruct x as [s|s| |s m e]; try exact Hx.
  destruct s; [destruct Hx|].
  assert (Hp24 : (0 < 24)%Z) by lia. assert (Hp53 : (0 < 53)%Z) by lia.
  unfold F32.of_double.
  set (z := Z.min e (-48)).
  pose proof (pos_le_value 53 Hp53 m e _ (-48) z Hx
                ltac:(vm_compute; discriminate) ltac:(lia) ltac:(lia)) as Hval.
  apply (binary_round_pos_le F32.prec F32.emax Hp24 m e _ (-19) z); try lia.
  - reflexivity.
  - unfold F32.emax, F32.prec. lia.
  - replace (-19 - z) with (29 + (-48 - z)) by lia.
    rewrite Z.pow_add_r by lia.
    assert (0 < 2 ^ (-48 - z)) by (apply Z.pow_pos_nonneg; lia).
    assert (Hk : 2 * (9 * 2 ^ 49 + 9 * 2 ^ 24) < (2 * 9437184 + 1) * 2 ^ 29)
      by reflexivity.
    nia.
Qed.

Lemma rescale_in_scale (ea : Z) (angle : float) :
  -100 <= ea <= 100 ->
  F32.valid angle = true ->
  F32.le (S754_finite true ma ea) angle = true ->
  F32.le angle (S754_finite false ma ea) = true ->
  in_scale (rescale (S754_finite false ma ea) (S754_finite false mc (ea - 28)) angle) = true.
Proof.
  intros Hea Hv Hlo Hhi. unfold rescale.
  pose proof (of_double_bound _ (mul_eighteen_bound _ (div_range_bound ea _
                (of_float_bound ea Hea _ (add_offset_bound ea Hea angle Hv Hlo Hhi))))) as H.
  unfold in_scale. apply andb_true_iff. split.
  - apply (pos_le_nonneg 24 _ _ _ H).
  - apply (pos_le_leb 24 _ 9437184 (-19) H).
Qed.

Lemma rescale_valid (offset : float) (range : F64.double) (angle : float) :
  F32.valid (rescale offset range angle) = true.
Proof.
  unfold rescale, F32.of_double, F32.valid.
  destruct (F64.mul _ _); try reflexivity.
  apply binary_round_valid. reflexivity.
Qed.

(** ** Magnitudes of the decoder's intermediate values *)

Lemma abs_binary_round_aux (prec emax : Z) (sx : bool) (m e : Z) (l : location) :
  0 <= m ->
  SFabs (binary_round_aux prec emax sx m e l) = binary_round_aux prec emax false m e l.
Proof.
  intros Hm. rewrite !binary_round_aux_eq by assumption.
  destruct (rnd_m prec emax m e l); try reflexivity.
  destruct (_ <=? _); reflexivity.
Qed.

Lemma abs_binary_round (prec emax : Z) (sx : bool) (m : positive) (e : Z) :
  SFabs (binary_round prec emax sx m e) = binary_round prec emax false m e.
Proof.
  unfold binary_round. destruct (shl_align m e _) as [mz ez].
  apply abs_binary_round_aux. lia.
Qed.

Lemma bounded_by_mono (k k' : Z) (x : float) :
  bounded_by k x -> k <= k' -> bounded_by k' x.
Proof.
  unfold bounded_by. destruct x as [s|s| |s m e]; cbn [SFabs pos_le]; try tauto.
  intros [Hm Hlex] Hk. split; [assumption|].
  destruct Hlex as [Hlt | [He Hle]]; [left; lia|].
  destruct (Z.eq_dec k k') as [<- | Hne]; [right; split; assumption | left; lia].
Qed.

Lemma bounded_by_unit (c : float) : unit_component c = true -> bounded_by 1 c.
Proof.
  unfold unit_component. intros H. apply andb_true_iff in H as [Hv Hle].
  destruct c as [s|s| |s m e]; try discriminate; [exact I|].
  unfold bounded_by. simpl SFabs.
  apply (leb_pos_le 24 128 m e 8388608 (-22)).
  - destruct s; exact Hv.
  - exact Hle.
Qed.

Lemma bounded_not_nan (k : Z) (x : float) : bounded_by k x -> is_nan x = false.
Proof. destruct x; simpl; try reflexivity. unfold bounded_by. simpl. tauto. Qed.

Lemma pow2_split (a b : Z) : 0 <= a -> 0 <= b -> 2 ^ (a + b) = 2 ^ a * 2 ^ b.
Proof. intros. apply Z.pow_add_r; assumption. Qed.

Lemma can_pow2 (k : Z) :
  -100 <= k <= 100 ->
  SpecFloat.fexp F32.prec F32.emax (Zdigits2 (2 ^ 23) + (k - 23)) = k - 23.
Proof.
  intros Hk. change (Zdigits2 (2 ^ 23)) with 24.
  unfold SpecFloat.fexp, SpecFloat.emin, F32.prec, F32.emax. lia.
Qed.

Lemma mul_bounded (k1 k2 : Z) (x y : float) :
  bounded_by k1 x -> bounded_by k2 y -> -100 <= k1 + k2 <= 100 ->
  bounded_by (k1 + k2) (F32.mul x y).
Proof.
  unfold bounded_by. intros Hx Hy Hk.
  destruct x as [sx|sx| |sx mx ex]; try (destruct Hx; fail);
  destruct y as [sy|sy| |sy my ey]; try (destruct Hy; fail); try exact I.
  unfold F32.mul, SFmul. rewrite abs_binary_round_aux by lia.
  simpl SFabs in Hx, Hy.
  assert (Hp24 : (0 < 24)%Z) by lia.
  pose proof (pos_le_value 24 Hp24 mx ex _ _ ex Hx ltac:(vm_compute; discriminate) ltac:(lia)) as Vx.
  pose proof (pos_le_value 24 Hp24 my ey _ _ ey Hy ltac:(vm_compute; discriminate) ltac:(lia)) as Vy.
  destruct Hx as [Hmx Hlx]. destruct Hy as [Hmy Hly].
  assert (Hex : ex <= k1 - 23) by lia. assert (Hey : ey <= k2 - 23) by lia.
  specialize (Vx Hex). specialize (Vy Hey).
  rewrite Z.sub_diag in Vx, Vy. change (2 ^ 0) with 1 in Vx, Vy.
  rewrite Z.mul_1_r in Vx, Vy.
  apply (bra_pos_le F32.prec F32.emax Hp24); try lia.
  - apply can_pow2. lia.
  - unfold F32.emax, F32.prec. lia.
  - rewrite Pos2Z.inj_mul.
    replace (k1 + k2 - 23 - (ex + ey)) with (23 + ((k1 - 23 - ex) + (k2 - 23 - ey))) by lia.
    rewrite (pow2_split 23) by lia. rewrite (pow2_split (k1 - 23 - ex)) by lia.
    set (P := 2 ^ (k1 - 23 - ex)) in *. set (Q := 2 ^ (k2 - 23 - ey)) in *.
    assert (0 < P) by (apply Z.pow_pos_nonneg; lia).
    assert (0 < Q) by (apply Z.pow_pos_nonneg; lia).
    assert (Z.pos mx * Z.pos my <= (2 ^ 23 * P) * (2 ^ 23 * Q))
      by (apply Z.mul_le_mono_nonneg; lia).
    nia.
  - congruence.
Qed.

Lemma round_bounded (k : Z) (p : positive) (ez : Z) (sx : bool) :
  -100 <= k <= 99 -> ez <= k - 23 ->
  Z.pos p <= 2 * (2 ^ 23 * 2 ^ (k - 23 - ez)) ->
  bounded_by (k + 1) (binary_round F32.prec F32.emax sx p ez).
Proof.
  intros Hk Hez Hp. unfold bounded_by. rewrite abs_binary_round.
  assert (Hp24 : (0 < 24)%Z) by lia.
  assert (Hpow : 2 ^ (k + 1 - 23 - ez) = 2 * 2 ^ (k - 23 - ez)).
  { replace (k + 1 - 23 - ez) with (1 + (k - 23 - ez)) by lia.
    rewrite Z.pow_add_r by lia. reflexivity. }
  assert (HP : 0 < 2 ^ (k - 23 - ez)) by (apply Z.pow_pos_nonneg; lia).
  apply (binary_round_pos_le F32.prec F32.emax Hp24 p ez (2 ^ 23) (k + 1 - 23) ez).
  - reflexivity.
  - apply can_pow2. lia.
  - unfold F32.emax, F32.prec. lia.
  - lia.
  - lia.
  - rewrite Z.sub_diag. change (2 ^ 0) with 1. rewrite Hpow. nia.
Qed.

(** the sum or difference of two aligned mantissas, rounded *)
Lemma normalize_bounded (k : Z) (X Y : positive) (sx sy : bool) (ez : Z) (op : Z -> Z -> Z) :
  (op = Z.add \/ op = Z.sub) ->
  -100 <= k <= 99 -> ez <= k - 23 ->
  Z.pos X <= 2 ^ 23 * 2 ^ (k - 23 - ez) ->
  Z.pos Y <= 2 ^ 23 * 2 ^ (k - 23 - ez) ->
  bounded_by (k + 1)
    (binary_normalize F32.prec F32.emax
       (op (cond_Zopp sx (Z.pos X)) (cond_Zopp sy (Z.pos Y))) ez false).
Proof.
  intros Hop Hk Hez HX HY. unfold binary_normalize.
  assert (Habs : Z.abs (op (cond_Zopp sx (Z.pos X)) (cond_Zopp sy (Z.pos Y)))
                 <= Z.pos X + Z.pos Y).
  { destruct Hop as [-> | ->]; destruct sx, sy; unfold cond_Zopp; lia. }
  destruct (op _ _) as [|p|p]; [exact I | | ];
    apply round_bounded; try assumption; simpl Z.abs in Habs; lia.
Qed.

Lemma add_bounded (k : Z) (x y : float) :
  bounded_by k x -> bounded_by k y -> -100 <= k <= 99 ->
  bounded_by (k + 1) (F32.add x y).
Proof.
  intros Hx Hy Hk.
  pose proof (bounded_by_mono k (k + 1) x Hx ltac:(lia)) as Hx1.
  pose proof (bounded_by_mono k (k + 1) y Hy ltac:(lia)) as Hy1.
  destruct x as [sx|sx| |sx mx ex]; try (destruct Hx; fail);
  destruct y as [sy|sy| |sy my ey]; try (destruct Hy; fail);
    try assumption; try (destruct sx, sy; exact I).
  unfold F32.add, SFadd. set (ez := Z.min ex ey).
  assert (Hp24 : (0 < 24)%Z) by lia.
  unfold bounded_by in Hx, Hy. simpl SFabs in Hx, Hy.
  pose proof (pos_le_value 24 Hp24 mx ex _ _ ez Hx ltac:(vm_compute; discriminate) ltac:(lia)) as Vx.
  pose proof (pos_le_value 24 Hp24 my ey _ _ ez Hy ltac:(vm_compute; discriminate) ltac:(lia)) as Vy.
  destruct Hx as [_ Hlx]. destruct Hy as [_ Hly].
  assert (Hez : ez <= k - 23) by lia.
  specialize (Vx Hez). specialize (Vy Hez).
  destruct (shl_align_spec mx ex ez ltac:(lia)) as [HX _].
  destruct (shl_align_spec my ey ez ltac:(lia)) as [HY _].
  apply (normalize_bounded k _ _ sx sy ez Z.add); auto; lia.
Qed.

Lemma sub_bounded (k : Z) (x y : float) :
  bounded_by k x -> bounded_by k y -> -100 <= k <= 99 ->
  bounded_by (k + 1) (F32.sub x y).
Proof.
  intros Hx Hy Hk.
  pose proof (bounded_by_mono k (k + 1) x Hx ltac:(lia)) as Hx1.
  pose proof (bounded_by_mono k (k + 1) y Hy ltac:(lia)) as Hy1.
  destruct x as [sx|sx| |sx mx ex]; try (destruct Hx; fail);
  destruct y as [sy|sy| |sy my ey]; try (destruct Hy; fail);
    try assumption; try (destruct sx, sy; exact I).
  unfold F32.sub, SFsub. set (ez := Z.min ex ey).
  assert (Hp24 : (0 < 24)%Z) by lia.
  unfold bounded_by in Hx, Hy. simpl SFabs in Hx, Hy.
  pose proof (pos_le_value 24 Hp24 mx ex _ _ ez Hx ltac:(vm_compute; discriminate) ltac:(lia)) as Vx.
  pose proof (pos_le_value 24 Hp24 my ey _ _ ez Hy ltac:(vm_compute; discriminate) ltac:(lia)) as Vy.
  destruct Hx as [_ Hlx]. destruct Hy as [_ Hly].
  assert (Hez : ez <= k - 23) by lia.
  specialize (Vx Hez). specialize (Vy Hez).
  destruct (shl_align_spec mx ex ez ltac:(lia)) as [HX _].
  destruct (shl_align_spec my ey ez ltac:(lia)) as [HY _].
  apply (normalize_bounded k _ _ sx sy ez Z.sub); auto; lia.
Qed.

(** ** The decoder *)

Lemma ltb_leb (x y : float) : SFltb x y = true -> SFleb x y = true.
Proof. unfold SFltb, SFleb. destruct (SFcompare x y) as [[]|]; congruence. Qed.

(** the argument of [asin] is within [-1, 1], whatever the product is *)
Lemma clamp_range (v : float) :
  F32.le F32.minus_one (fmax F32.minus_one (fmin F32.one v)) = true /\
  F32.le (fmax F32.minus_one (fmin F32.one v)) F32.one = true.
Proof.
  unfold fmax, fmin, F32.le, F32.lt.
  destruct (SFltb v F32.one) eqn:E1.
  - destruct (SFltb F32.minus_one v) eqn:E2.
    + split; apply ltb_leb; assumption.
    + split; reflexivity.
  - change (SFltb F32.minus_one F32.one) with true. cbv iota. split; reflexivity.
Qed.

Lemma atan2_arg1_bounded (a b c d : float) :
  unit_component a = true -> unit_component b = true ->
  unit_component c = true -> unit_component d = true ->
  bounded_by 4 (F32.mul F32.two (F32.add (F32.mul a b) (F32.mul c d))).
Proof.
  intros Ha Hb Hc Hd.
  apply bounded_by_unit in Ha, Hb, Hc, Hd.
  apply (mul_bounded 1 3);
    [exact (conj eq_refl (or_intror (conj eq_refl (Z.le_refl _)))) | | lia].
  apply (add_bounded 2); [ | | lia]; apply (mul_bounded 1 1); assumption || lia.
Qed.

Lemma atan2_arg2_bounded (a b : float) :
  unit_component a = true -> unit_component b = true ->
  bounded_by 5
    (F32.sub F32.one (F32.mul F32.two (F32.add (F32.mul a a) (F32.mul b b)))).
Proof.
  intros Ha Hb.
  apply (sub_bounded 4); [ | | lia].
  - apply (bounded_by_mono 1); [|lia]. apply bounded_by_unit. reflexivity.
  - apply atan2_arg1_bounded; assumption.
Qed.

Lemma pi_f_eq : pi_f = S754_finite false ma (-22).
Proof. reflexivity. Qed.

Lemma half_pi_f_eq : F32.div pi_f F32.two = S754_finite false ma (-23).
Proof. reflexivity. Qed.

Lemma two_pi_eq :
  F64.mul M_PI (F64.of_float F32.two) = S754_finite false mc (-22 - 28).
Proof. reflexivity. Qed.

Lemma M_PI_eq : M_PI = S754_finite false mc (-23 - 28).
Proof. reflexivity. Qed.

Lemma atan2_rescaled (atan2f : float -> float -> float) (y x : float) :
  atan2_contract atan2f -> is_nan y = false -> is_nan x = false ->
  in_scale (rescale pi_f (F64.mul M_PI (F64.of_float F32.two)) (atan2f y x)) = true.
Proof.
  intros Hatan2 Hy Hx. destruct (Hatan2 y x Hy Hx) as (Hv & Hlo & Hhi).
  rewrite pi_f_eq in *. rewrite two_pi_eq.
  apply rescale_in_scale; try assumption. lia.
Qed.

Lemma asin_rescaled (asinf : float -> float) (v : float) :
  asin_contract asinf ->
  F32.le F32.minus_one v = true -> F32.le v F32.one = true ->
  in_scale (rescale (F32.div pi_f F32.two) M_PI (asinf v)) = true.
Proof.
  intros Hasin H1 H2. destruct (Hasin v H1 H2) as (Hv & Hlo & Hhi).
  rewrite half_pi_f_eq in *. rewrite M_PI_eq.
  apply rescale_in_scale; try assumption. lia.
Qed.

Lemma unit_components_inv (q : Quaternion) :
  unit_components q ->
  unit_component (qw q) = true /\ unit_component (qx q) = true /\
  unit_component (qy q) = true /\ unit_component (qz q) = true.
Proof.
  unfold unit_components. intros Hq.
  apply andb_true_iff in Hq as [Hq Hz]. apply andb_true_iff in Hq as [Hq Hy].
  apply andb_true_iff in Hq as [Hw Hx]. auto.
Qed.

Lemma decoder_in_scale
    (atan2f : float -> float -> float) (asinf : float -> float) (q : Quaternion) :
  atan2_contract atan2f -> asin_contract asinf -> unit_components q ->
  in_scale (decoded_roll atan2f q) = true /\
  in_scale (decoded_pitch asinf q) = true /\
  in_scale (decoded_yaw atan2f q) = true.
Proof.
  intros Hatan2 Hasin Hq.
  destruct (unit_components_inv q Hq) as (Hw & Hx & Hy & Hz).
  destruct (clamp_range
              (F32.mul F32.two
                 (F32.sub (F32.mul (qw q) (qy q)) (F32.mul (qz q) (qx q)))))
    as [Hc1 Hc2].
  unfold decoded_roll, decoded_pitch, decoded_yaw, roll_angle, pitch_angle, yaw_angle.
  repeat split.
  - apply atan2_rescaled; [assumption | | ].
    + apply (bounded_not_nan 4). apply atan2_arg1_bounded; assumption.
    + apply (bounded_not_nan 5). apply atan2_arg2_bounded; assumption.
  - apply asin_rescaled; assumption.
  - apply atan2_rescaled; [assumption | | ].
    + apply (bounded_not_nan 4). apply atan2_arg1_bounded; assumption.
    + apply (bounded_not_nan 5). apply atan2_arg2_bounded; assumption.
Qed.

(** Claim C2.  For every quaternion whose components have magnitude at
    most two, as those of a unit quaternion have, and with [atan2] and
    [asin] keeping to the ranges the C library documents, each of the three
    display values lies in [0, 18]; the argument handed to [asin] lies in
    [-1, 1] whatever the quaternion is. *)
Theorem decoder_display_values_in_scale
    (atan2f : float -> float -> float) (asinf : float -> float) (q : Quaternion) :
  atan2_contract atan2f -> asin_contract asinf -> unit_components q ->
  in_scale (decoded_roll atan2f q) = true /\
  in_scale (decoded_pitch asinf q) = true /\
  in_scale (decoded_yaw atan2f q) = true /\
  F32.le F32.minus_one (pitch_arg q) = true /\
  F32.le (pitch_arg q) F32.one = true.
Proof.
  intros Hatan2 Hasin Hq.
  destruct (decoder_in_scale atan2f asinf q Hatan2 Hasin Hq) as (H1 & H2 & H3).
  destruct (clamp_range
              (F32.mul F32.two
                 (F32.sub (F32.mul (qw q) (qy q)) (F32.mul (qz q) (qx q)))))
    as [Hc1 Hc2].
  repeat split; assumption.
Qed.

Lemma atan2_zero_contract : atan2_contract atan2_zero.
Proof. intros y x _ _. repeat split. Qed.

Lemma asin_zero_contract : asin_contract asin_zero.
Proof. intros v _ _. repeat split. Qed.

Lemma decoder_display_values_in_scale_witness :
  in_scale (decoded_roll atan2_zero identity_rotation) = true /\
  in_scale (decoded_pitch asin_zero identity_rotation) = true /\
  in_scale (decoded_yaw atan2_zero identity_rotation) = true /\
  F32.le F32.minus_one (pitch_arg identity_rotation) = true /\
  F32.le (pitch_arg identity_rotation) F32.one = true.
Proof.
  apply (decoder_display_values_in_scale atan2_zero asin_zero identity_rotation).
  - exact atan2_zero_contract.
  - exact asin_zero_contract.
  - reflexivity.
Defined.

(** the event the decoder produces is one the tracker theorems accept *)
Lemma onOrientationData_decoded
    (atan2f : float -> float -> float) (asinf : float -> float) (q : Quaternion) :
  atan2_contract atan2f -> asin_contract asinf -> unit_components q ->
  decoded (onOrientationData atan2f asinf q) = true.
Proof.
  intros Ha Hs Hq.
  destruct (decoder_in_scale atan2f asinf q Ha Hs Hq) as (H1 & H2 & H3).
  unfold onOrientationData, decoded. rewrite H1, H2, H3. reflexivity.
Qed.

Lemma decoded_values_valid
    (atan2f : float -> float -> float) (asinf : float -> float) (q : Quaternion) :
  F32.valid (decoded_roll atan2f q) = true /\
  F32.valid (decoded_pitch asinf q) = true /\
  F32.valid (decoded_yaw atan2f q) = true.
Proof. repeat split; apply rescale_valid. Qed.

(** ** The home test *)

Lemma binary_round_aux_nonneg (prec emax m e : Z) (l : location) :
  0 <= m -> is_nonneg (binary_round_aux prec emax false m e l) = true.
Proof.
  intros Hm. rewrite binary_round_aux_eq by assumption.
  pose proof (rnd_m_nonneg prec emax m e l Hm).
  destruct (rnd_m prec emax m e l); [reflexivity | | lia].
  destruct (_ <=? _); reflexivity.
Qed.

Lemma binary_round_nonneg (prec emax : Z) (m : positive) (e : Z) :
  is_nonneg (binary_round prec emax false m e) = true.
Proof.
  unfold binary_round. destruct (shl_align m e _) as [mz ez].
  apply binary_round_aux_nonneg. lia.
Qed.

Lemma nonneg_above_minus_one (r : float) :
  is_nonneg r = true -> SFltb F32.minus_one r = true.
Proof. destruct r as [s|s| |s m e]; try destruct s; try discriminate; reflexivity. Qed.

Lemma small_above_minus_one (r : float) (mB : Z) :
  pos_le 24 (SFabs r) mB (-24) -> SFltb F32.minus_one r = true.
Proof.
  destruct r as [s|s| |s m e]; cbn [SFabs pos_le]; try tauto; try reflexivity.
  intros [_ Hlex]. destruct s; [|reflexivity].
  unfold SFltb, SFcompare, F32.minus_one.
  destruct (Z.compare_spec (-23) e); try lia; reflexivity.
Qed.

Lemma sub_tol_above_minus_one (x : float) :
  F32.le F32.zero x = true ->
  F32.lt F32.minus_one (F32.sub x F32.tol) = true.
Proof.
  intros Hx. destruct x as [s | s | | s m e]; try (destruct s); try discriminate Hx;
    try reflexivity.
  unfold F32.lt, F32.sub, F32.tol, SFsub, binary_normalize, cond_Zopp.
  set (ez := Z.min e (-24)).
  destruct (shl_align_spec m e ez ltac:(lia)) as [HX _].
  destruct (shl_align_spec 11744051 (-24) ez ltac:(lia)) as [HC _].
  destruct (Z.pos (fst (shl_align m e ez)) - Z.pos (fst (shl_align 11744051 (-24) ez)))
    as [|p|p] eqn:E.
  - reflexivity.
  - apply nonneg_above_minus_one, binary_round_nonneg.
  - apply (small_above_minus_one _ 11744051). rewrite abs_binary_round.
    apply (binary_round_pos_le F32.prec F32.emax ltac:(reflexivity) p ez 11744051 (-24) ez).
    + reflexivity.
    + reflexivity.
    + discriminate.
    + lia.
    + lia.
    + rewrite Z.sub_diag. change (2 ^ 0) with 1.
      assert (0 < 2 ^ (-24 - ez)) by (apply Z.pow_pos_nonneg; lia). nia.
Qed.

(** an orientation equal to the home reference passes the home test *)
Lemma epsilonCompare_self (h : float) :
  F32.valid h = true -> F32.le F32.zero h = true ->
  epsilonCompare h h F32.tol = true.
Proof.
  intros Hv Hle.
  destruct h as [s|s| |s m e]; try (destruct s); try discriminate Hle; try reflexivity.
  assert (Hcan : SpecFloat.fexp F32.prec F32.emax (Zdigits2 (Z.pos m) + e) = e).
  { unfold F32.valid in Hv. simpl in Hv. unfold bounded, canonical_mantissa in Hv.
    apply andb_true_iff in Hv as [Hc _]. apply Z.eqb_eq in Hc. exact Hc. }
  assert (Hfin : e <= F32.emax - F32.prec).
  { unfold F32.valid in Hv. simpl in Hv. unfold bounded in Hv.
    apply andb_true_iff in Hv as [_ Hb]. apply Z.leb_le in Hb. exact Hb. }
  unfold epsilonCompare. apply negb_true_iff. apply orb_false_iff. split.
  - (* h < h - tol is false *)
    unfold F32.lt, F32.sub, F32.tol, SFsub, binary_normalize, cond_Zopp.
    set (ez := Z.min e (-24)).
    destruct (shl_align_spec m e ez ltac:(lia)) as [HX _].
    destruct (shl_align_spec 11744051 (-24) ez ltac:(lia)) as [HC _].
    destruct (Z.pos (fst (shl_align m e ez)) - Z.pos (fst (shl_align 11744051 (-24) ez)))
      as [|p|p] eqn:E.
    + reflexivity.
    + apply leb_not_ltb. apply (pos_le_leb 24).
      apply (binary_round_pos_le F32.prec F32.emax ltac:(reflexivity) p ez (Z.pos m) e ez);
        try assumption; try lia.
      rewrite Z.sub_diag. change (2 ^ 0) with 1.
      assert (0 < 2 ^ (e - ez)) by (apply Z.pow_pos_nonneg; lia). nia.
    + pose proof (binary_round_has_sign F32.prec F32.emax true p ez) as Hs.
      destruct (binary_round F32.prec F32.emax true p ez) as [s|s| |s m' e'];
        simpl in Hs; try contradiction; subst s; reflexivity.
  - (* h > h + tol is false *)
    unfold F32.gt, F32.add, F32.tol, SFadd, binary_normalize, cond_Zopp.
    set (ez := Z.min e (-24)).
    destruct (shl_align_spec m e ez ltac:(lia)) as [HX _].
    change (Z.pos (fst (shl_align m e ez)) + Z.pos (fst (shl_align 11744051 (-24) ez)))
      with (Z.pos (fst (shl_align m e ez) + fst (shl_align 11744051 (-24) ez))).
    apply pos_ge_not_ltb.
    apply (binary_round_pos_ge F32.prec F32.emax _ ez (Z.pos m) e ez);
      try assumption; try lia; try reflexivity.
    rewrite Z.sub_diag. change (2 ^ 0) with 1. rewrite Pos2Z.inj_add, HX. lia.
Qed.

Lemma valid_finite_inv (s : bool) (m : positive) (e : Z) :
  F32.valid (S754_finite s m e) = true ->
  SpecFloat.fexp F32.prec F32.emax (Zdigits2 (Z.pos m) + e) = e /\
  e <= F32.emax - F32.prec.
Proof.
  unfold F32.valid. simpl. unfold bounded, canonical_mantissa. intros Hv.
  apply andb_true_iff in Hv as [Hc Hb].
  apply Z.eqb_eq in Hc. apply Z.leb_le in Hb. auto.
Qed.

(** two canonical representations of one value coincide *)
Lemma canonical_unique (m m' : positive) (e e' z : Z) :
  SpecFloat.fexp F32.prec F32.emax (Zdigits2 (Z.pos m) + e) = e ->
  SpecFloat.fexp F32.prec F32.emax (Zdigits2 (Z.pos m') + e') = e' ->
  z <= e -> z <= e' ->
  Z.pos m * 2 ^ (e - z) = Z.pos m' * 2 ^ (e' - z) ->
  m = m' /\ e = e'.
Proof.
  intros Hc Hc' Hz Hz' Hv.
  pose proof (Zdigits2_lt_pow (Z.pos m) ltac:(lia)) as H1.
  pose proof (Zdigits2_ge_pow (Z.pos m) ltac:(lia)) as H2.
  pose proof (Zdigits2_lt_pow (Z.pos m') ltac:(lia)) as H1'.
  pose proof (Zdigits2_ge_pow (Z.pos m') ltac:(lia)) as H2'.
  pose proof (Zdigits2_pos (Z.pos m) ltac:(lia)) as H3.
  pose proof (Zdigits2_pos (Z.pos m') ltac:(lia)) as H3'.
  set (D := Zdigits2 (Z.pos m)) in *. set (D' := Zdigits2 (Z.pos m')) in *.
  assert (Hp : 0 < 2 ^ (e - z)) by (apply Z.pow_pos_nonneg; lia).
  assert (Hp' : 0 < 2 ^ (e' - z)) by (apply Z.pow_pos_nonneg; lia).
  assert (HD : D + e = D' + e').
  { assert (A : 2 ^ (D - 1 + (e - z)) < 2 ^ (D' + (e' - z))).
    { rewrite !Z.pow_add_r by lia. nia. }
    assert (B : 2 ^ (D' - 1 + (e' - z)) < 2 ^ (D + (e - z))).
    { rewrite !Z.pow_add_r by lia. nia. }
    apply Z.pow_lt_mono_r_iff in A; try lia. apply Z.pow_lt_mono_r_iff in B; lia. }
  assert (He : e = e') by (rewrite <- Hc, <- Hc', HD; reflexivity).
  subst e'. split; [|reflexivity].
  apply Z.mul_cancel_r in Hv; [|lia]. congruence.
Qed.

Lemma binary_round_not_zero (s : bool) (p : positive) (ez : Z) :
  SpecFloat.emin F32.prec F32.emax <= ez ->
  SFltb F32.zero (SFabs (binary_round F32.prec F32.emax s p ez)) = true.
Proof.
  intros Hez. rewrite abs_binary_round.
  pose proof (binary_round_pos_ge F32.prec F32.emax p ez 1 (SpecFloat.emin F32.prec F32.emax)
                (SpecFloat.emin F32.prec F32.emax) ltac:(reflexivity) ltac:(lia)
                ltac:(reflexivity) Hez ltac:(lia)) as H.
  rewrite Z.sub_diag in H. change (2 ^ 0) with 1 in H.
  assert (Hv : 1 * 1 <= Z.pos p * 2 ^ (ez - SpecFloat.emin F32.prec F32.emax)).
  { assert (0 < 2 ^ (ez - SpecFloat.emin F32.prec F32.emax)) by (apply Z.pow_pos_nonneg; lia).
    nia. }
  specialize (H Hv).
  destruct (binary_round F32.prec F32.emax false p ez) as [s'|s'| |s' m e];
    cbn [pos_ge] in H; try contradiction; destruct s'; try contradiction; reflexivity.
Qed.

(** a roll outside the tolerance differs from the home roll *)
Lemma deviation_positive (r h : float) :
  F32.valid r = true -> F32.valid h = true ->
  in_scale r = true -> in_scale h = true ->
  epsilonCompare r h F32.tol = false ->
  F32.gt (F32.abs (F32.sub r h)) F32.zero = true.
Proof.
  intros Vr Vh Sr Sh Hfar.
  unfold in_scale in Sr, Sh.
  apply andb_true_iff in Sr as [Sr0 Sr18]. apply andb_true_iff in Sh as [Sh0 Sh18].
  destruct r as [sr|sr| |sr mr er]; try (destruct sr); try discriminate;
  destruct h as [sh|sh| |sh mh eh]; try (destruct sh); try discriminate;
    try reflexivity.
  destruct (valid_finite_inv _ _ _ Vr) as [Cr _].
  destruct (valid_finite_inv _ _ _ Vh) as [Ch _].
  pose proof (fexp_ge_emin F32.prec F32.emax (Zdigits2 (Z.pos mr) + er)) as Er.
  pose proof (fexp_ge_emin F32.prec F32.emax (Zdigits2 (Z.pos mh) + eh)) as Eh.
  rewrite Cr in Er. rewrite Ch in Eh.
  unfold F32.gt, F32.abs, F32.sub, SFsub, cond_Zopp.
  set (ez := Z.min er eh).
  destruct (shl_align_spec mr er ez ltac:(lia)) as [HX _].
  destruct (shl_align_spec mh eh ez ltac:(lia)) as [HY _].
  unfold binary_normalize.
  destruct (Z.pos (fst (shl_align mr er ez)) - Z.pos (fst (shl_align mh eh ez)))
    as [|p|p] eqn:E.
  - exfalso.
    destruct (canonical_unique mr mh er eh ez Cr Ch ltac:(lia) ltac:(lia)) as [-> ->]; [lia|].
    rewrite epsilonCompare_self in Hfar by assumption. discriminate.
  - apply binary_round_not_zero. lia.
  - apply binary_round_not_zero. lia.
Qed.

(** ** Comparisons *)

Lemma SFltb_asym (x y : float) : SFltb x y = true -> SFltb y x = false.
Proof.
  unfold SFltb, SFcompare.
  destruct x as [sx|sx| |sx mx ex], y as [sy|sy| |sy my ey];
    try destruct sx; try destruct sy; try discriminate; try reflexivity;
  change (Pos.compare_cont Eq mx my) with (mx ?= my)%positive;
  change (Pos.compare_cont Eq my mx) with (my ?= mx)%positive;
  destruct (Z.compare_spec ex ey), (Z.compare_spec ey ex); try lia;
    try discriminate; try reflexivity;
  destruct (Pos.compare_spec mx my), (Pos.compare_spec my mx); try lia;
    try discriminate; reflexivity.
Qed.

Lemma gt_asym (x y : float) : F32.gt x y = true -> F32.gt y x = false.
Proof. unfold F32.gt. apply SFltb_asym. Qed.

Lemma print_other (c : DataCollector) :
  onArm c = true -> is_other (currentPose c) = true -> print c = other_branch c.
Proof. intros Ha Hp. unfold print. rewrite Ha. destruct (currentPose c); try discriminate; reflexivity. Qed.

Lemma print_fist (c : DataCollector) :
  onArm c = true -> currentPose c = fist -> print c = fist_branch c.
Proof. intros Ha Hp. unfold print. rewrite Ha, Hp. reflexivity. Qed.

Lemma fired_app (o1 o2 : list output) : fired (o1 ++ o2) = fired o1 || fired o2.
Proof. apply existsb_app. Qed.

Lemma append_labels_not_fired (c : DataCollector) : fired (snd (append_labels c)) = false.
Proof.
  unfold append_labels.
  repeat match goal with |- context [if ?b then _ else _] => destruct b end; reflexivity.
Qed.

Lemma count_fired_append_labels (c : DataCollector) : count_fired (snd (append_labels c)) = 0%nat.
Proof.
  unfold append_labels.
  repeat match goal with |- context [if ?b then _ else _] => destruct b end; reflexivity.
Qed.

Lemma fired_print (c : DataCollector) :
  fired (snd (print c)) = onArm c && is_other (currentPose c) && at_home c.
Proof.
  unfold print. destruct (onArm c); [|reflexivity].
  destruct (currentPose c); simpl; try reflexivity;
  unfold other_branch; destruct (at_home c); simpl; try reflexivity;
  unfold home_reached; destruct (append_labels c); reflexivity.
Qed.

Lemma append_empty_r (s : string) : s +:+ "" = s.
Proof.
  induction s as [|a s IH]; [reflexivity|].
  change (String a s +:+ "") with (String a (s +:+ "")). now rewrite IH.
Qed.

Lemma append_labels_gestures (c : DataCollector) :
  gestures (fst (append_labels c)) = gestures c +:+ dominant_label c.
Proof.
  unfold append_labels, dominant_label.
  destruct (F32.gt (max_yaw c) (max_roll c)) eqn:Eyr;
  destruct (F32.gt (max_yaw c) (max_pitch c)) eqn:Eyp;
  destruct (F32.gt (max_roll c) (max_yaw c)) eqn:Ery;
  destruct (F32.gt (max_roll c) (max_pitch c)) eqn:Erp;
  destruct (F32.gt (max_pitch c) (max_roll c)) eqn:Epr;
  destruct (F32.gt (max_pitch c) (max_yaw c)) eqn:Epy; simpl;
  repeat (progress (rewrite ?Eyr, ?Eyp, ?Ery, ?Erp, ?Epr, ?Epy; simpl));
  rewrite ?append_empty_r;
  try reflexivity;
  try (apply gt_asym in Eyr; congruence);
  try (apply gt_asym in Eyp; congruence);
  try (apply gt_asym in Erp; congruence).
Qed.

Lemma append_labels_frame (c : DataCollector) :
  let c' := fst (append_labels c) in
  word c' = word c /\ onArm c' = onArm c /\ currentPose c' = currentPose c /\
  roll_w c' = roll_w c /\ pitch_w c' = pitch_w c /\ yaw_w c' = yaw_w c /\
  home_roll c' = home_roll c /\ home_pitch c' = home_pitch c /\
  home_yaw c' = home_yaw c.
Proof.
  unfold append_labels.
  repeat match goal with |- context [if ?b then _ else _] => destruct b end;
    simpl; repeat split; reflexivity.
Qed.

Lemma observe_delta_frame (c : DataCollector) :
  let c' := observe_delta c in
  word c' = word c /\ gestures c' = gestures c /\ onArm c' = onArm c /\
  currentPose c' = currentPose c /\
  roll_w c' = roll_w c /\ pitch_w c' = pitch_w c /\ yaw_w c' = yaw_w c /\
  home_roll c' = home_roll c /\ home_pitch c' = home_pitch c /\
  home_yaw c' = home_yaw c.
Proof.
  unfold observe_delta.
  repeat match goal with |- context [if ?b then _ else _] => destruct b end;
    simpl; repeat split; reflexivity.
Qed.

Lemma observe_delta_max (c : DataCollector) :
  let c' := observe_delta c in
  max_roll c' = accumulate (roll_w c) (home_roll c) (max_roll c) /\
  max_pitch c' = accumulate (pitch_w c) (home_pitch c) (max_pitch c) /\
  max_yaw c' =
    if F32.ne (F32.abs (F32.sub (yaw_w c) (home_yaw c))) F32.seventeen
    then accumulate (yaw_w c) (home_yaw c) (max_yaw c) else max_yaw c.
Proof.
  unfold observe_delta, accumulate.
  destruct (F32.gt (F32.abs (F32.sub (roll_w c) (home_roll c))) (max_roll c)); simpl;
  destruct (F32.gt (F32.abs (F32.sub (yaw_w c) (home_yaw c))) (max_yaw c)); simpl;
  destruct (F32.ne (F32.abs (F32.sub (yaw_w c) (home_yaw c))) F32.seventeen); simpl;
  destruct (F32.gt (F32.abs (F32.sub (pitch_w c) (home_pitch c))) (max_pitch c)); simpl;
  repeat split; reflexivity.
Qed.

Lemma home_reached_spec (c : DataCollector) :
  let c' := fst (home_reached c) in
  gestures c' = gestures c +:+ dominant_label c /\
  max_roll c' = F32.zero /\ max_pitch c' = F32.zero /\ max_yaw c' = F32.zero /\
  word c' = word c /\ onArm c' = onArm c /\ currentPose c' = currentPose c /\
  roll_w c' = roll_w c /\ pitch_w c' = pitch_w c /\ yaw_w c' = yaw_w c /\
  home_roll c' = home_roll c /\ home_pitch c' = home_pitch c /\
  home_yaw c' = home_yaw c.
Proof.
  unfold home_reached.
  pose proof (append_labels_gestures c) as Hg.
  pose proof (append_labels_frame c) as Hf.
  destruct (append_labels c) as [c1 o]. simpl in *. tauto.
Qed.

Lemma count_fired_app (o1 o2 : list output) :
  count_fired (o1 ++ o2) = (count_fired o1 + count_fired o2)%nat.
Proof. unfold count_fired. rewrite List.filter_app, List.length_app. reflexivity. Qed.

Lemma count_fired_home_reached (c : DataCollector) :
  count_fired (snd (home_reached c)) = 1%nat.
Proof.
  unfold home_reached. pose proof (count_fired_append_labels c) as H.
  destruct (append_labels c) as [c1 o]. simpl in *.
  change (S (count_fired (o ++ [Wait2s])) = 1%nat).
  rewrite count_fired_app, H. reflexivity.
Qed.

(** ** The letter table *)

Lemma lookup_foldl_assign_notin (l : list (string * string))
    (m : gmap string string) (g : string) :
  ~ In g (map fst l) -> foldl assign m l !! g = m !! g.
Proof.
  revert m; induction l as [|[k v] l IH]; intros m Hn; simpl in *; [reflexivity|].
  rewrite IH by tauto. unfold assign; simpl.
  apply lookup_insert_ne. intros ->. tauto.
Qed.

Lemma in_nonempty_keys (g : string) :
  g <> "" -> ~ In g nonempty_keys -> ~ In g (map fst letter_assignments).
Proof.
  intros Hg Hn Hin. apply Hn. unfold nonempty_keys.
  apply List.filter_In. split; [assumption|].
  destruct (String.eqb_spec g ""); [contradiction | reflexivity].
Qed.

Lemma nonempty_keys_count :
  length nonempty_keys = 11%nat /\ size letterMap = 10%nat.
Proof. vm_compute. split; reflexivity. Qed.

Lemma matchLetterToGesture_unknown (g : string) :
  g <> "" -> ~ In g nonempty_keys -> matchLetterToGesture g = "".
Proof.
  intros Hg Hn. unfold matchLetterToGesture, letterMap.
  rewrite lookup_foldl_assign_notin by (apply in_nonempty_keys; assumption).
  reflexivity.
Qed.

(** Claim C7.  Later assignments to a key already in the table overwrite
    the earlier ones: "rollpitch" reads "d" although "b" was assigned to it
    first, and "rollpitchyaw" reads "g" although "e" was assigned first. *)
Theorem duplicate_keys_last_wins :
  matchLetterToGesture "rollpitch" = "d" /\
  matchLetterToGesture "rollpitchyaw" = "g" /\
  In ("rollpitch", "b") letter_assignments /\
  In ("rollpitchyaw", "e") letter_assignments.
Proof. vm_compute. repeat split; auto 10. Qed.


(** ** The tracker *)

Lemma fired_print_inv (c : DataCollector) :
  fired (snd (print c)) = true ->
  onArm c = true /\ is_other (currentPose c) = true /\ at_home c = true.
Proof.
  rewrite fired_print. intros H.
  apply andb_true_iff in H as [H H3]. apply andb_true_iff in H as [H1 H2]. auto.
Qed.

Lemma print_at_home (c : DataCollector) :
  onArm c = true -> is_other (currentPose c) = true -> at_home c = true ->
  print c = (observe_delta (fst (home_reached c)), snd (home_reached c)).
Proof.
  intros Ha Hp Hh. rewrite print_other by assumption.
  unfold other_branch. rewrite Hh. destruct (home_reached c); reflexivity.
Qed.

Lemma print_away (c : DataCollector) :
  onArm c = true -> is_other (currentPose c) = true -> at_home c = false ->
  print c = (observe_delta c, []).
Proof.
  intros Ha Hp Hh. rewrite print_other by assumption.
  unfold other_branch. rewrite Hh. reflexivity.
Qed.

(** Claim C3.  On an update in which "home reached" fires, the label
    appended to the gesture buffer is the one of the axis whose accumulator
    is strictly greater than each of the other two; when no accumulator is
    strictly greatest the buffer is unchanged. *)
Theorem home_reached_appends_dominant_label (c : DataCollector) :
  fired (snd (print c)) = true ->
  let g' := gestures (fst (print c)) in
  (F32.gt (max_roll c) (max_pitch c) && F32.gt (max_roll c) (max_yaw c) = true ->
   g' = gestures c +:+ "roll") /\
  (F32.gt (max_pitch c) (max_roll c) && F32.gt (max_pitch c) (max_yaw c) = true ->
   g' = gestures c +:+ "pitch") /\
  (F32.gt (max_yaw c) (max_roll c) && F32.gt (max_yaw c) (max_pitch c) = true ->
   g' = gestures c +:+ "yaw") /\
  (F32.gt (max_roll c) (max_pitch c) && F32.gt (max_roll c) (max_yaw c) = false ->
   F32.gt (max_pitch c) (max_roll c) && F32.gt (max_pitch c) (max_yaw c) = false ->
   F32.gt (max_yaw c) (max_roll c) && F32.gt (max_yaw c) (max_pitch c) = false ->
   g' = gestures c).
Proof.
  intros Hf g'. apply fired_print_inv in Hf as (Ha & Hp & Hh).
  assert (Hg : g' = gestures c +:+ dominant_label c).
  { unfold g'. rewrite print_at_home by assumption. simpl.
    destruct (observe_delta_frame (fst (home_reached c))) as (_ & -> & _).
    apply home_reached_spec. }
  rewrite Hg. unfold dominant_label. repeat split.
  - intros ->. reflexivity.
  - intros H. rewrite H.
    destruct (F32.gt (max_roll c) (max_pitch c)) eqn:E; [|reflexivity].
    apply andb_true_iff in H as [H _]. apply gt_asym in E. congruence.
  - intros H. rewrite H.
    apply andb_true_iff in H as [H1 H2].
    rewrite (gt_asym _ _ H1), (gt_asym _ _ H2), !andb_false_r. reflexivity.
  - intros -> -> ->. apply append_empty_r.
Qed.

(** Claim C4, amended.  With the display values on the scale, the arm
    synced, a pose that reaches the last branch, and the orientation
    within tolerance of the home reference on all three axes, "home
    reached" is written exactly once in the update, and exactly once again
    in the update that follows it, which finds the display values on the
    scale as well: nothing latches the event while the orientation stays
    within tolerance. *)
Theorem home_reached_fires_on_every_update_at_home (c : DataCollector) :
  on_display c = true ->
  onArm c = true -> is_other (currentPose c) = true -> at_home c = true ->
  count_fired (snd (print c)) = 1%nat /\
  count_fired (snd (print (fst (print c)))) = 1%nat /\
  on_display (fst (print c)) = true.
Proof.
  intros Hd Ha Hp Hh.
  rewrite (print_at_home c) by assumption. simpl.
  split; [apply count_fired_home_reached|].
  destruct (home_reached_spec c) as (_ & _ & _ & _ & _ & Ha1 & Hp1 & Hr & Hpi & Hy & Hhr & Hhp & Hhy).
  destruct (observe_delta_frame (fst (home_reached c)))
    as (_ & _ & Ha2 & Hp2 & Hr2 & Hpi2 & Hy2 & Hhr2 & Hhp2 & Hhy2).
  set (c' := observe_delta (fst (home_reached c))) in *.
  assert (Hh' : at_home c' = true).
  { unfold at_home in *. rewrite Hr2, Hpi2, Hy2, Hhr2, Hhp2, Hhy2.
    rewrite Hr, Hpi, Hy, Hhr, Hhp, Hhy. assumption. }
  split.
  - rewrite (print_at_home c') by congruence.
    apply count_fired_home_reached.
  - unfold on_display in *. rewrite Hr2, Hpi2, Hy2, Hr, Hpi, Hy. assumption.
Qed.

(** Claim C5, amended.  At the end of an update in which "home reached"
    fires, each accumulator holds what one "observe delta" step leaves
    starting from zero: the absolute difference between the current value
    and the home value of its axis when that is greater than zero (for yaw
    also when it is not 17), and zero otherwise. *)
Theorem accumulators_after_home_reached (c : DataCollector) :
  fired (snd (print c)) = true ->
  let c' := fst (print c) in
  max_roll c' = accumulate (roll_w c) (home_roll c) F32.zero /\
  max_pitch c' = accumulate (pitch_w c) (home_pitch c) F32.zero /\
  max_yaw c' =
    if F32.ne (F32.abs (F32.sub (yaw_w c) (home_yaw c))) F32.seventeen
    then accumulate (yaw_w c) (home_yaw c) F32.zero else F32.zero.
Proof.
  intros Hf. apply fired_print_inv in Hf as (Ha & Hp & Hh).
  rewrite print_at_home by assumption. simpl.
  destruct (home_reached_spec c) as (_ & Hmr & Hmp & Hmy & _ & _ & _ & Hr & Hpi & Hy & Hhr & Hhp & Hhy).
  destruct (observe_delta_max (fst (home_reached c))) as (H1 & H2 & H3).
  rewrite H1, H2, H3, Hmr, Hmp, Hmy, Hr, Hpi, Hy, Hhr, Hhp, Hhy. auto.
Qed.

(** Claim C8.  In an accumulator update in which the absolute difference
    between the current yaw and the home yaw is exactly 17, the yaw
    accumulator keeps its value, while the roll and pitch accumulators are
    updated as usual. *)
Theorem yaw_difference_seventeen_is_skipped (c : DataCollector) :
  F32.ne (F32.abs (F32.sub (yaw_w c) (home_yaw c))) F32.seventeen = false ->
  max_yaw (observe_delta c) = max_yaw c /\
  max_roll (observe_delta c) = accumulate (roll_w c) (home_roll c) (max_roll c) /\
  max_pitch (observe_delta c) = accumulate (pitch_w c) (home_pitch c) (max_pitch c).
Proof.
  intros H. destruct (observe_delta_max c) as (H1 & H2 & H3).
  rewrite H1, H2, H3, H. auto.
Qed.

Lemma home_kept_unless_fist (c : DataCollector) :
  onArm c && match currentPose c with fist => true | _ => false end = false ->
  let c1 := fst (print c) in
  home_roll c1 = home_roll c /\ home_pitch c1 = home_pitch c /\ home_yaw c1 = home_yaw c.
Proof.
  intros H. unfold print. destruct (onArm c); [|simpl; auto].
  destruct (currentPose c) eqn:E; try discriminate; simpl; auto;
  unfold other_branch; destruct (at_home c).
  all: try (destruct (home_reached_spec c) as (_ & _ & _ & _ & _ & _ & _ & _ & _ & _ & Hhr & Hhp & Hhy);
       destruct (observe_delta_frame (fst (home_reached c))) as (_ & _ & _ & _ & _ & _ & _ & Hhr2 & Hhp2 & Hhy2);
       destruct (home_reached c); simpl in *; repeat split; congruence).
  all: destruct (observe_delta_frame c) as (_ & _ & _ & _ & _ & _ & _ & Hhr2 & Hhp2 & Hhy2);
       simpl; auto.
Qed.

Lemma print_frame (c : DataCollector) :
  let c' := fst (print c) in
  onArm c' = onArm c /\ currentPose c' = currentPose c /\
  roll_w c' = roll_w c /\ pitch_w c' = pitch_w c /\ yaw_w c' = yaw_w c.
Proof.
  unfold print. destruct (onArm c) eqn:Ea; [|simpl; auto].
  destruct (currentPose c) eqn:Ep; simpl; auto;
  unfold other_branch; destruct (at_home c).
  all: try (destruct (home_reached_spec c) as (_ & _ & _ & _ & _ & A1 & A2 & A3 & A4 & A5 & _);
       destruct (observe_delta_frame (fst (home_reached c))) as (_ & _ & B1 & B2 & B3 & B4 & B5 & _);
       destruct (home_reached c); simpl in *; repeat split; congruence).
  all: destruct (observe_delta_frame c) as (_ & _ & B1 & B2 & B3 & B4 & B5 & _);
       simpl in *; repeat split; congruence.
Qed.

(** Claim C9, amended.  Home Reference is captured from the current
    Orientation exactly at the updates made while the arm is synced and the
    pose is "fist", and no other update or event changes it; the updates
    are those that find the display values on the scale.  No transition is
    looked for: an update leaves the arm, the pose and the display values
    as they are, so that a following update captures again while the pose
    stays "fist". *)
Theorem home_captured_exactly_at_fist_updates (c : DataCollector) (e : event) :
  (is_print e = true -> on_display c = true) ->
  home_reference (fst (handle c e)) =
    (if is_fist_update c e then current_orientation c else home_reference c) /\
  is_fist_update (fst (handle c e)) e = is_fist_update c e /\
  (is_print e = true -> on_display (fst (handle c e)) = true).
Proof.
  intros Hd. unfold home_reference, current_orientation.
  destruct e; try (repeat split; try reflexivity; discriminate). simpl.
  destruct (print_frame c) as (Ha & Hp & Hr & Hpi & Hy). rewrite Ha, Hp.
  split; [|split; [reflexivity|]];
    [|intros _; unfold on_display; rewrite Hr, Hpi, Hy; apply Hd; reflexivity].
  destruct (onArm c) eqn:Ea.
  - destruct (currentPose c) eqn:Ep; simpl;
      try (destruct (home_kept_unless_fist c) as (-> & -> & ->);
           [rewrite Ea, Ep; reflexivity | reflexivity]).
    rewrite print_fist by assumption. reflexivity.
  - destruct (home_kept_unless_fist c) as (-> & -> & ->);
      [rewrite Ea; reflexivity | reflexivity].
Qed.

Lemma home_test_fails_when_unset (c : DataCollector) :
  F32.le F32.zero (roll_w c) = true -> home_unset c -> at_home c = false.
Proof.
  intros Hr (Hh & _). unfold at_home, epsilonCompare. rewrite Hh.
  rewrite (sub_tol_above_minus_one _ Hr). reflexivity.
Qed.

Lemma handle_on_scale (c : DataCollector) (e : event) :
  decoded e = true -> on_scale c -> on_scale (fst (handle c e)).
Proof.
  intros He Hc. destruct e; simpl in *; try assumption; try reflexivity.
  unfold on_scale in *. destruct (print_frame c) as (_ & _ & -> & -> & ->). assumption.
Qed.

Lemma run_on_scale (es : list event) (c : DataCollector) :
  forallb decoded es = true -> on_scale c -> on_scale (fst (run c es)).
Proof.
  revert c. induction es as [|e es IH]; intros c Hes Hc; simpl in *; [assumption|].
  apply andb_true_iff in Hes as [He Hes].
  pose proof (handle_on_scale c e He Hc) as H1.
  destruct (handle c e) as [c1 o1]. simpl in H1.
  specialize (IH c1 Hes H1). destruct (run c1 es) as [c2 o2]. assumption.
Qed.

(** Claim C6.  In every state reached from a new collector by events whose
    orientation values are on the display scale, if Home Reference is still
    at its sentinel on all three axes then an update does not fire "home
    reached". *)
Theorem home_unset_never_fires (a : Arm) (mr0 my0 mp0 : float) (es : list event) :
  forallb decoded es = true ->
  let c := fst (run (DataCollector_new a mr0 my0 mp0) es) in
  home_unset c -> fired (snd (print c)) = false.
Proof.
  intros Hes c Hu.
  assert (Hc : on_scale c) by (apply run_on_scale; [assumption | reflexivity]).
  rewrite fired_print, (home_test_fails_when_unset c); [apply andb_false_r | | assumption].
  unfold on_scale, in_scale in Hc.
  repeat (apply andb_true_iff in Hc as [Hc _]). assumption.
Qed.

Lemma home_unset_never_fires_witness :
  fired (snd (print (fst (run (DataCollector_new armRight f9 f9 f9)
    [OnArmSync armRight; OnOrientationData f9 f9 f9; OnPose rest; Print; Print]))))
  = false.
Proof.
  apply (home_unset_never_fires armRight f9 f9 f9
           [OnArmSync armRight; OnOrientationData f9 f9 f9; OnPose rest; Print; Print]).
  - reflexivity.
  - repeat split.
Defined.

(** ** The scenario of the specification *)

Lemma sub_self (x : float) : is_finite x = true -> F32.sub x x = F32.zero.
Proof.
  destruct x as [s|s| |s m e]; try discriminate; intros _.
  - destruct s; reflexivity.
  - unfold F32.sub, SFsub. rewrite Z.sub_diag. reflexivity.
Qed.

Lemma run_fst_cons (c : DataCollector) (e : event) (es : list event) :
  fst (run c (e :: es)) = fst (run (fst (handle c e)) es).
Proof. simpl. destruct (handle c e) as [c1 o1]. simpl. destruct (run c1 es). reflexivity. Qed.

Lemma observe_delta_eq (c : DataCollector) :
  observe_delta c =
  set_max_pitch
    (set_max_yaw
       (set_max_roll c (accumulate (roll_w c) (home_roll c) (max_roll c)))
       (if F32.ne (F32.abs (F32.sub (yaw_w c) (home_yaw c))) F32.seventeen
        then accumulate (yaw_w c) (home_yaw c) (max_yaw c) else max_yaw c))
    (accumulate (pitch_w c) (home_pitch c) (max_pitch c)).
Proof.
  unfold observe_delta, accumulate.
  destruct c as [oa wa iu rw pw yw cp hr hy hp mr my mp g w]; simpl.
  destruct (F32.gt (F32.abs (F32.sub rw hr)) mr); simpl;
  destruct (F32.gt (F32.abs (F32.sub yw hy)) my); simpl;
  destruct (F32.ne (F32.abs (F32.sub yw hy)) F32.seventeen); simpl;
  destruct (F32.gt (F32.abs (F32.sub pw hp)) mp); reflexivity.
Qed.

Lemma home_reached_eq (c : DataCollector) :
  fst (home_reached c) =
  set_max_pitch
    (set_max_yaw
       (set_max_roll (set_gestures c (gestures c +:+ dominant_label c)) F32.zero)
       F32.zero) F32.zero.
Proof.
  unfold home_reached. pose proof (append_labels_gestures c) as Hg.
  unfold append_labels in *.
  destruct c as [oa wa iu rw pw yw cp hr hy hp mr my mp g w]; simpl in *.
  destruct (F32.gt my mr && F32.gt my mp); simpl in *;
  destruct (F32.gt mr my && F32.gt mr mp); simpl in *;
  destruct (F32.gt mp mr && F32.gt mp my); simpl in *;
  rewrite <- Hg; reflexivity.
Qed.

Ltac dc_norm :=
  cbn [handle set_home set_max_roll set_max_yaw set_max_pitch set_gestures
       set_word set_orientation set_pose set_arm set_unlocked DataCollector_new
       onArm whichArm isUnlocked roll_w pitch_w yaw_w currentPose home_roll
       home_yaw home_pitch max_roll max_yaw max_pitch gestures word fst snd].

Lemma display_value_inv (x : float) :
  display_value x = true ->
  F32.valid x = true /\ in_scale x = true /\ F32.le F32.zero x = true /\
  is_finite x = true.
Proof.
  unfold display_value, in_scale. intros H.
  apply andb_true_iff in H as [Hv Hs].
  pose proof Hs as Hs'. apply andb_true_iff in Hs' as [H0 H18].
  repeat split; try assumption.
  destruct x as [s|s| |s m e]; try reflexivity; try discriminate.
  destruct s; discriminate.
Qed.

(** Claim C1, amended.  In the pose sequence [fist, (roll deviates, then
    home reached), fist], started on a new collector whose accumulators are
    below the roll deviation, with display values on the scale and the
    deviating roll outside the tolerance, the word after the second fist is
    a space followed by "c": the first fist commits the empty buffer as a
    space. *)
Theorem scenario_word (a : Arm) (other : Pose) (mr0 my0 mp0 hr hp hy r : float) :
  is_other other = true ->
  display_value hr = true -> display_value hp = true ->
  display_value hy = true -> display_value r = true ->
  epsilonCompare r hr F32.tol = false ->
  F32.gt (F32.abs (F32.sub r hr)) mr0 = true ->
  F32.gt (F32.abs (F32.sub r hr)) my0 = true ->
  F32.gt (F32.abs (F32.sub r hr)) mp0 = true ->
  word (fst (run (DataCollector_new a mr0 my0 mp0) (scenario a other hr hp hy r))) = " c".
Proof.
  intros Ho Vhr Vhp Vhy Vr Eaway Dr Dy Dp.
  destruct (display_value_inv hr Vhr) as (Vr1 & Sr1 & Zr1 & Fr).
  destruct (display_value_inv hp Vhp) as (Vp1 & Sp1 & Zp1 & Fp).
  destruct (display_value_inv hy Vhy) as (Vy1 & Sy1 & Zy1 & Fy).
  destruct (display_value_inv r Vr) as (Vr2 & Sr2 & _ & _).
  pose proof (epsilonCompare_self hr Vr1 Zr1) as Er.
  pose proof (epsilonCompare_self hp Vp1 Zp1) as Ep.
  pose proof (epsilonCompare_self hy Vy1 Zy1) as Ey.
  pose proof (deviation_positive r hr Vr2 Vr1 Sr2 Sr1 Eaway) as D0.
  assert (Hsp : matchLetterToGesture "" = " ") by (vm_compute; reflexivity).
  assert (Hc : matchLetterToGesture "roll" = "c") by (vm_compute; reflexivity).
  pose proof (sub_self hr Fr) as Sr.
  pose proof (sub_self hp Fp) as Sp.
  pose proof (sub_self hy Fy) as Sy.
  unfold scenario.
  (* first fist *)
  do 4 (rewrite run_fst_cons; dc_norm).
  rewrite print_fist by reflexivity. unfold fist_branch. dc_norm. rewrite Hsp.
  (* roll deviates *)
  do 3 (rewrite run_fst_cons; dc_norm).
  rewrite print_away;
    [ | reflexivity | assumption | unfold at_home; dc_norm; rewrite Eaway; reflexivity ].
  dc_norm. rewrite observe_delta_eq. dc_norm.
  unfold accumulate at 1. rewrite Dr.
  unfold accumulate. rewrite Sy, Sp.
  change (F32.abs F32.zero) with F32.zero.
  change (F32.ne F32.zero F32.seventeen) with true. cbv iota.
  (* home reached *)
  do 2 (rewrite run_fst_cons; dc_norm).
  rewrite print_at_home;
    [ | reflexivity | assumption | unfold at_home; dc_norm; rewrite Er, Ep, Ey; reflexivity ].
  dc_norm. rewrite home_reached_eq. dc_norm.
  assert (Hd : forall m0, F32.gt (F32.abs (F32.sub r hr)) m0 = true ->
     F32.gt (F32.abs (F32.sub r hr)) (if F32.gt F32.zero m0 then F32.zero else m0) = true).
  { intros m0 H. destruct (F32.gt F32.zero m0); assumption. }
  unfold dominant_label. dc_norm. rewrite (Hd _ Dy), (Hd _ Dp). cbv iota beta.
  change (andb true true) with true. cbv iota.
  rewrite observe_delta_eq. dc_norm.
  (* second fist *)
  do 2 (rewrite run_fst_cons; dc_norm).
  rewrite print_fist by reflexivity. unfold fist_branch. dc_norm.
  change ("" +:+ "roll") with "roll". rewrite Hc. reflexivity.
Qed.

Lemma scenario_word_witness :
  word (fst (run (DataCollector_new armLeft F32.zero F32.zero F32.zero)
               (scenario armLeft rest f9 f9 f9 f12))) = " c".
Proof.
  apply (scenario_word armLeft rest F32.zero F32.zero F32.zero f9 f9 f9 f12);
    reflexivity.
Defined.

(** ** Concrete runs *)

Lemma scenario_word_is_not_c :
  word (fst (run (DataCollector_new armLeft F32.zero F32.zero F32.zero)
               (scenario armLeft rest f9 f9 f9 f12))) <> "c".
Proof. vm_compute. discriminate. Qed.

Lemma home_reached_appends_dominant_label_witness :
  fired (snd (print back_home_after_roll)) = true /\
  gestures (fst (print back_home_after_roll)) = "roll".
Proof.
  split; [reflexivity|].
  apply (home_reached_appends_dominant_label back_home_after_roll); reflexivity.
Defined.

Lemma home_reached_fires_again :
  count_fired
    (snd (run (after_fist_at f9 f9 f9 f9 f9 f9) [Print; Print])) = 2%nat /\
  max_roll (fst (run (after_fist_at f9 f9 f9 f9 f9 f9) [Print])) = F32.zero /\
  max_roll (fst (run (after_fist_at f9 f9 f9 f9 f9 f9) [Print; Print])) = F32.zero.
Proof. vm_compute. repeat split; reflexivity. Qed.

Lemma home_reached_fires_on_every_update_at_home_witness :
  count_fired (snd (print (after_fist_at f9 f9 f9 f9_5 f9 f9))) = 1%nat /\
  count_fired (snd (print (fst (print (after_fist_at f9 f9 f9 f9_5 f9 f9))))) = 1%nat /\
  on_display (fst (print (after_fist_at f9 f9 f9 f9_5 f9 f9))) = true.
Proof.
  apply (home_reached_fires_on_every_update_at_home (after_fist_at f9 f9 f9 f9_5 f9 f9));
    reflexivity.
Defined.

Lemma accumulators_not_zero_after_home_reached :
  fired (snd (print (after_fist_at f9 f9 f9 f9_5 f9 f9))) = true /\
  max_roll (fst (print (after_fist_at f9 f9 f9 f9_5 f9 f9))) = f0_5 /\
  f0_5 <> F32.zero.
Proof. vm_compute. repeat split; try reflexivity. discriminate. Qed.

Lemma accumulators_after_home_reached_witness :
  max_roll (fst (print (after_fist_at f9 f9 f9 f9_5 f9 f9))) = accumulate f9_5 f9 F32.zero /\
  max_pitch (fst (print (after_fist_at f9 f9 f9 f9_5 f9 f9))) = accumulate f9 f9 F32.zero /\
  max_yaw (fst (print (after_fist_at f9 f9 f9 f9_5 f9 f9))) = accumulate f9 f9 F32.zero.
Proof.
  apply (accumulators_after_home_reached (after_fist_at f9 f9 f9 f9_5 f9 f9)).
  reflexivity.
Defined.

Lemma yaw_difference_seventeen_is_skipped_witness :
  max_yaw (observe_delta (after_fist_at f9 f9 f1 f12 f9 F32.eighteen)) = F32.zero /\
  max_roll (observe_delta (after_fist_at f9 f9 f1 f12 f9 F32.eighteen)) =
    accumulate f12 f9 F32.zero /\
  max_pitch (observe_delta (after_fist_at f9 f9 f1 f12 f9 F32.eighteen)) =
    accumulate f9 f9 F32.zero.
Proof.
  apply (yaw_difference_seventeen_is_skipped (after_fist_at f9 f9 f1 f12 f9 F32.eighteen)).
  reflexivity.
Defined.

Lemma home_captured_exactly_at_fist_updates_witness :
  home_reference (fst (handle fist_at_9_12_1 Print)) =
    (if is_fist_update fist_at_9_12_1 Print
     then current_orientation fist_at_9_12_1 else home_reference fist_at_9_12_1) /\
  is_fist_update (fst (handle fist_at_9_12_1 Print)) Print =
    is_fist_update fist_at_9_12_1 Print /\
  (is_print Print = true -> on_display (fst (handle fist_at_9_12_1 Print)) = true).
Proof.
  apply (home_captured_exactly_at_fist_updates fist_at_9_12_1 Print).
  intros _. reflexivity.
Defined.

Lemma home_recaptured_while_fist :
  home_roll (fst (run (DataCollector_new armLeft F32.zero F32.zero F32.zero)
                    [ OnArmSync armLeft; OnOrientationData f9 f9 f9;
                      OnPose fist; Print ])) = f9 /\
  home_roll (fst (run (DataCollector_new armLeft F32.zero F32.zero F32.zero)
                    [ OnArmSync armLeft; OnOrientationData f9 f9 f9;
                      OnPose fist; Print;
                      OnOrientationData f12 f9 f9; Print ])) = f12 /\
  f12 <> f9.
Proof. vm_compute. repeat split; try reflexivity. discriminate. Qed.

(** * Further properties of the code *)

(** ** The home test *)

Lemma SFltb_nan_l (x : float) : SFltb S754_nan x = false.
Proof. reflexivity. Qed.

Lemma SFltb_nan_r (x : float) : SFltb x S754_nan = false.
Proof. destruct x as [s|s| |s m e]; try destruct s; reflexivity. Qed.

Lemma is_nan_eq (x : float) : is_nan x = true -> x = S754_nan.
Proof. destruct x; try discriminate; reflexivity. Qed.

Lemma sub_nan_l (x : float) : F32.sub S754_nan x = S754_nan.
Proof. reflexivity. Qed.
Lemma sub_nan_r (x : float) : F32.sub x S754_nan = S754_nan.
Proof. destruct x; reflexivity. Qed.
Lemma add_nan_l (x : float) : F32.add S754_nan x = S754_nan.
Proof. reflexivity. Qed.
Lemma add_nan_r (x : float) : F32.add x S754_nan = S754_nan.
Proof. destruct x; reflexivity. Qed.

(** Property X1.  [epsilonCompare] answers true as soon as one of its
    operands is NaN: both comparisons of line 224 are then false. *)
Theorem epsilonCompare_nan (var1 var2 err : float) :
  is_nan var1 || is_nan var2 || is_nan err = true ->
  epsilonCompare var1 var2 err = true.
Proof.
  intros H. unfold epsilonCompare, F32.lt, F32.gt.
  apply orb_true_iff in H as [H | H]; [apply orb_true_iff in H as [H | H]|];
    apply is_nan_eq in H; subst.
  - rewrite sub_nan_l, add_nan_l, SFltb_nan_l, SFltb_nan_r. reflexivity.
  - rewrite SFltb_nan_l, SFltb_nan_r. reflexivity.
  - rewrite sub_nan_r, add_nan_r, SFltb_nan_l, SFltb_nan_r. reflexivity.
Qed.

Lemma epsilonCompare_nan_witness :
  epsilonCompare S754_nan F32.minus_one F32.tol = true.
Proof. apply (epsilonCompare_nan S754_nan F32.minus_one F32.tol). reflexivity. Defined.

Lemma not_ltb_leb (x y : float) :
  is_nan x = false -> is_nan y = false -> SFltb x y = false -> SFleb y x = true.
Proof.
  unfold SFleb, SFltb. rewrite (SFcompare_antisym x y).
  destruct x as [sx|sx| |sx mx ex], y as [sy|sy| |sy my ey]; try discriminate;
    intros _ _; destruct (SFcompare _ _) as [[]|] eqn:E; simpl; try congruence;
    (destruct sx, sy; simpl in E; try discriminate E).
Qed.

(** Property X2.  For operands that are not NaN, [epsilonCompare] is the
    test that [var2] lies in the closed interval from [var1 - err] to [var1
    + err], both ends computed in binary32. *)
Theorem epsilonCompare_closed_interval (var1 var2 err : float) :
  is_nan var2 = false ->
  is_nan (F32.sub var1 err) = false -> is_nan (F32.add var1 err) = false ->
  epsilonCompare var1 var2 err =
    F32.le (F32.sub var1 err) var2 && F32.le var2 (F32.add var1 err).
Proof.
  intros H2 Hlo Hhi. unfold epsilonCompare, F32.lt, F32.gt, F32.le.
  destruct (SFltb var2 (F32.sub var1 err)) eqn:E1.
  - simpl. destruct (SFleb (F32.sub var1 err) var2) eqn:E; [|reflexivity].
    apply leb_not_ltb in E. congruence.
  - rewrite (not_ltb_leb _ _ H2 Hlo E1). simpl.
    destruct (SFltb (F32.add var1 err) var2) eqn:E2; simpl.
    + destruct (SFleb var2 (F32.add var1 err)) eqn:E; [|reflexivity].
      apply leb_not_ltb in E. congruence.
    + symmetry. apply not_ltb_leb; assumption.
Qed.

Lemma epsilonCompare_closed_interval_witness :
  epsilonCompare f9 f9_5 F32.tol =
    F32.le (F32.sub f9 F32.tol) f9_5 && F32.le f9_5 (F32.add f9 F32.tol).
Proof.
  apply (epsilonCompare_closed_interval f9 f9_5 F32.tol); reflexivity.
Defined.


(** ** The letter table *)

Lemma matchLetterToGesture_cases (g : string) :
  (g = "" /\ matchLetterToGesture g = " ") \/
  (g = "pitchyawpitch" /\ matchLetterToGesture g = "a") \/
  (g = "roll" /\ matchLetterToGesture g = "c") \/
  (g = "rollpitch" /\ matchLetterToGesture g = "d") \/
  (g = "pitchpitchyaw" /\ matchLetterToGesture g = "f") \/
  (g = "rollpitchyaw" /\ matchLetterToGesture g = "g") \/
  (g = "pitchroll" /\ matchLetterToGesture g = "h") \/
  (g = "yawpitchyaw" /\ matchLetterToGesture g = "i") \/
  (g = "yawpitchroll" /\ matchLetterToGesture g = "j") \/
  (g = "pitchyawyaw" /\ matchLetterToGesture g = "k") \/
  (g <> "" /\ ~ In g nonempty_keys /\ matchLetterToGesture g = "").
Proof.
  destruct (String.eqb_spec g "") as [-> | H0]; [left; split; vm_compute; reflexivity|].
  destruct (String.eqb_spec g "pitchyawpitch") as [-> | H1];
    [right; left; split; vm_compute; reflexivity|].
  destruct (String.eqb_spec g "roll") as [-> | H2];
    [do 2 right; left; split; vm_compute; reflexivity|].
  destruct (String.eqb_spec g "rollpitch") as [-> | H3];
    [do 3 right; left; split; vm_compute; reflexivity|].
  destruct (String.eqb_spec g "pitchpitchyaw") as [-> | H4];
    [do 4 right; left; split; vm_compute; reflexivity|].
  destruct (String.eqb_spec g "rollpitchyaw") as [-> | H5];
    [do 5 right; left; split; vm_compute; reflexivity|].
  destruct (String.eqb_spec g "pitchroll") as [-> | H6];
    [do 6 right; left; split; vm_compute; reflexivity|].
  destruct (String.eqb_spec g "yawpitchyaw") as [-> | H7];
    [do 7 right; left; split; vm_compute; reflexivity|].
  destruct (String.eqb_spec g "yawpitchroll") as [-> | H8];
    [do 8 right; left; split; vm_compute; reflexivity|].
  destruct (String.eqb_spec g "pitchyawyaw") as [-> | H9];
    [do 9 right; left; split; vm_compute; reflexivity|].
  do 10 right.
  assert (Hn : ~ In g nonempty_keys).
  { change nonempty_keys with
      ["pitchyawpitch"; "rollpitch"; "roll"; "rollpitch"; "rollpitchyaw";
       "pitchpitchyaw"; "rollpitchyaw"; "pitchroll"; "yawpitchyaw";
       "yawpitchroll"; "pitchyawyaw"].
    simpl. intuition congruence. }
  repeat split; try assumption. apply matchLetterToGesture_unknown; assumption.
Qed.

(** Property X4.  Whatever the gesture buffer holds, the committed letter is
    the empty string or one of ten letters; "b" and "e", which the table
    construction assigns and then overwrites, are never returned, and the
    space is returned for the empty buffer only. *)
Theorem committed_letter_range (g : string) :
  In (matchLetterToGesture g) ("" :: letters) /\
  matchLetterToGesture g <> "b" /\ matchLetterToGesture g <> "e" /\
  (matchLetterToGesture g = " " <-> g = "").
Proof.
  destruct (matchLetterToGesture_cases g)
    as [[-> ->]|[[-> ->]|[[-> ->]|[[-> ->]|[[-> ->]|[[-> ->]|[[-> ->]|[[-> ->]|
        [[-> ->]|[[-> ->]|(Hg & _ & ->)]]]]]]]]]];
    (split; [simpl; tauto|]); (split; [discriminate|]); (split; [discriminate|]);
    split; intros H; try discriminate H; try reflexivity; contradiction.
Qed.

(** ** The word *)

Lemma append_cons (a : ascii) (s t : string) : String a s +:+ t = String a (s +:+ t).
Proof. reflexivity. Qed.

Lemma append_assoc (s t u : string) : (s +:+ t) +:+ u = s +:+ (t +:+ u).
Proof.
  induction s as [|a s IH]; [reflexivity|].
  rewrite !append_cons, IH. reflexivity.
Qed.

Lemma length_append (s t : string) :
  String.length (s +:+ t) = (String.length s + String.length t)%nat.
Proof.
  induction s as [|a s IH]; [reflexivity|].
  rewrite append_cons. simpl. rewrite IH. reflexivity.
Qed.

Lemma over_letters_append (s t : string) :
  over_letters (s +:+ t) = over_letters s && over_letters t.
Proof.
  induction s as [|a s IH]; [reflexivity|].
  rewrite append_cons. simpl. rewrite IH, andb_assoc. reflexivity.
Qed.

Lemma letters_over_letters (l : string) :
  In l ("" :: letters) -> over_letters l = true /\ (String.length l <= 1)%nat.
Proof.
  simpl. intros H.
  repeat (destruct H as [<- | H]; [split; [reflexivity | simpl; lia]|]).
  contradiction.
Qed.

Lemma committed_letter_in (g : string) :
  In (matchLetterToGesture g) ("" :: letters).
Proof.
  destruct (matchLetterToGesture_cases g)
    as [[_ ->]|[[_ ->]|[[_ ->]|[[_ ->]|[[_ ->]|[[_ ->]|[[_ ->]|[[_ ->]|
        [[_ ->]|[[_ ->]|(_ & _ & ->)]]]]]]]]]];
    simpl; tauto.
Qed.

Lemma other_branch_word (c : DataCollector) : word (fst (other_branch c)) = word c.
Proof.
  unfold other_branch. destruct (at_home c).
  - pose proof (home_reached_spec c) as H. destruct (home_reached c) as [c1 o].
    simpl in *. destruct (observe_delta_frame c1) as (-> & _). apply H.
  - simpl. apply observe_delta_frame.
Qed.

(** what one update does to the word *)
Lemma print_word (c : DataCollector) :
  word (fst (print c)) =
    word c +:+ (if onArm c && String.eqb (toString (currentPose c)) "fist"
                then matchLetterToGesture (gestures c) else "").
Proof.
  unfold print. destruct (onArm c); [|symmetry; apply append_empty_r].
  destruct (currentPose c); simpl; rewrite ?other_branch_word, ?append_empty_r; reflexivity.
Qed.

Lemma handle_word (c : DataCollector) (e : event) :
  exists l, In l ("" :: letters) /\ word (fst (handle c e)) = word c +:+ l /\
            (String.length l <= if is_print e then 1 else 0)%nat.
Proof.
  destruct e; try (exists ""; simpl; rewrite append_empty_r; repeat split; auto; fail).
  simpl. rewrite print_word.
  destruct (onArm c && String.eqb (toString (currentPose c)) "fist").
  - exists (matchLetterToGesture (gestures c)).
    pose proof (committed_letter_in (gestures c)) as Hin.
    repeat split; [assumption|]. apply letters_over_letters. assumption.
  - exists "". simpl. repeat split; auto.
Qed.

(** Property X5.  The word is only ever extended: after any events it is the
    former word followed by letters of the table, at most one for each
    update that was made. *)
Theorem word_is_append_only (es : list event) (c : DataCollector) :
  exists s, word (fst (run c es)) = word c +:+ s /\ over_letters s = true /\
            (String.length s <= count_updates es)%nat.
Proof.
  revert c. induction es as [|e es IH]; intros c.
  - exists "". simpl. rewrite append_empty_r. repeat split. unfold count_updates. simpl. lia.
  - rewrite run_fst_cons.
    destruct (handle_word c e) as (l & Hl & Hw & Hlen).
    destruct (IH (fst (handle c e))) as (s & Hs & Ho & Hn).
    exists (l +:+ s). rewrite Hs, Hw, append_assoc, over_letters_append, length_append.
    destruct (letters_over_letters l Hl) as [-> _]. rewrite Ho.
    repeat split. unfold count_updates in *. simpl.
    destruct (is_print e); simpl; lia.
Qed.

Lemma run_snd_cons (c : DataCollector) (e : event) (es : list event) :
  snd (run c (e :: es)) = snd (handle c e) ++ snd (run (fst (handle c e)) es).
Proof. simpl. destruct (handle c e) as [c1 o1]. simpl. destruct (run c1 es). reflexivity. Qed.

Lemma commands_app (o1 o2 : list output) : commands (o1 ++ o2) = commands o1 ++ commands o2.
Proof. apply flat_map_app. Qed.

Lemma other_branch_commands (c : DataCollector) : commands (snd (other_branch c)) = [].
Proof.
  unfold other_branch. destruct (at_home c); [|reflexivity].
  unfold home_reached, append_labels.
  repeat match goal with |- context [if ?b then _ else _] => destruct b end; reflexivity.
Qed.

Lemma handle_commands (c : DataCollector) (e : event) (cmd : string) :
  In cmd (commands (snd (handle c e))) ->
  cmd = "python testgrid.py " +:+ word c \/ cmd = "python testtwil.py " +:+ word c.
Proof.
  destruct e; simpl; try tauto.
  unfold print. destruct (onArm c); [|simpl; tauto].
  destruct (currentPose c); simpl; rewrite ?other_branch_commands; simpl;
    try tauto; intros [<- | []]; auto.
Qed.

Lemma run_commands (es : list event) (c : DataCollector) (cmd : string) :
  over_letters (word c) = true ->
  In cmd (commands (snd (run c es))) ->
  exists w, over_letters w = true /\
    (cmd = "python testgrid.py " +:+ w \/ cmd = "python testtwil.py " +:+ w).
Proof.
  revert c. induction es as [|e es IH]; intros c Hc Hin; [destruct Hin|].
  rewrite run_snd_cons, commands_app in Hin. apply in_app_or in Hin as [Hin | Hin].
  - exists (word c). split; [assumption|]. apply (handle_commands c e). assumption.
  - apply (IH (fst (handle c e))); [|assumption].
    destruct (handle_word c e) as (l & Hl & -> & _).
    rewrite over_letters_append, Hc. apply letters_over_letters. assumption.
Qed.

(** Property X6.  Every command a run hands to [system], from a new
    collector on, is one of the two fixed prefixes followed by a string of
    table letters. *)
Theorem system_commands_shape
    (a : Arm) (mr0 my0 mp0 : float) (es : list event) (cmd : string) :
  In cmd (commands (snd (run (DataCollector_new a mr0 my0 mp0) es))) ->
  exists w, over_letters w = true /\
    (cmd = "python testgrid.py " +:+ w \/ cmd = "python testtwil.py " +:+ w).
Proof. apply run_commands. reflexivity. Qed.

Lemma system_commands_shape_witness :
  exists w, over_letters w = true /\
    ("python testgrid.py " = "python testgrid.py " +:+ w \/
     "python testgrid.py " = "python testtwil.py " +:+ w).
Proof.
  apply (system_commands_shape armLeft F32.zero F32.zero F32.zero
           [OnArmSync armLeft; OnPose fingersSpread; Print] "python testgrid.py ").
  vm_compute. left. reflexivity.
Defined.

(** ** The gesture buffer *)

Lemma concat_all_app (l1 l2 : list string) :
  concat_all (l1 ++ l2) = concat_all l1 +:+ concat_all l2.
Proof.
  induction l1 as [|a l1 IH]; [reflexivity|].
  simpl. rewrite IH, append_assoc. reflexivity.
Qed.

Lemma dominant_label_in (c : DataCollector) :
  dominant_label c = "" \/ In (dominant_label c) labels.
Proof.
  unfold dominant_label, labels.
  repeat match goal with |- context [if ?b then _ else _] => destruct b end;
    simpl; tauto.
Qed.

Lemma other_branch_gestures (c : DataCollector) :
  gestures (fst (other_branch c)) =
    if at_home c then gestures c +:+ dominant_label c else gestures c.
Proof.
  unfold other_branch. destruct (at_home c).
  - pose proof (home_reached_spec c) as H. destruct (home_reached c) as [c1 o].
    simpl in *. destruct (observe_delta_frame c1) as (_ & -> & _). apply H.
  - simpl. apply observe_delta_frame.
Qed.

Lemma print_gestures (c : DataCollector) :
  gestures (fst (print c)) = "" \/ gestures (fst (print c)) = gestures c \/
  exists l, In l labels /\ gestures (fst (print c)) = gestures c +:+ l.
Proof.
  unfold print. destruct (onArm c); [|simpl; auto].
  destruct (currentPose c); simpl; auto; rewrite other_branch_gestures;
    destruct (at_home c); auto;
    destruct (dominant_label_in c) as [-> | H];
    rewrite ?append_empty_r; auto;
    (right; right; exists (dominant_label c); split; [exact H | reflexivity]).
Qed.

Lemma handle_gestures (c : DataCollector) (e : event) :
  gestures (fst (handle c e)) = "" \/ gestures (fst (handle c e)) = gestures c \/
  (is_print e = true /\
   exists l, In l labels /\ gestures (fst (handle c e)) = gestures c +:+ l).
Proof.
  destruct e; simpl; auto.
  destruct (print_gestures c) as [H | [H | H]]; auto.
Qed.

Lemma run_gestures (es : list event) (c : DataCollector) (ls : list string) :
  Forall (fun l => In l labels) ls -> gestures c = concat_all ls ->
  exists ls', Forall (fun l => In l labels) ls' /\
    gestures (fst (run c es)) = concat_all ls' /\
    (length ls' <= length ls + count_updates es)%nat.
Proof.
  revert c ls. induction es as [|e es IH]; intros c ls Hls Hc.
  - exists ls. repeat split; try assumption. simpl. lia.
  - rewrite run_fst_cons.
    assert (Hcount : (count_updates (e :: es) =
                      (if is_print e then 1 else 0) + count_updates es)%nat).
    { unfold count_updates. simpl. destruct (is_print e); reflexivity. }
    destruct (handle_gestures c e) as [H | [H | (Hp & l & Hl & H)]].
    + destruct (IH (fst (handle c e)) []) as (ls' & H1 & H2 & H3);
        [constructor | exact H |].
      exists ls'. repeat split; try assumption. simpl in H3. lia.
    + destruct (IH (fst (handle c e)) ls Hls) as (ls' & H1 & H2 & H3); [congruence|].
      exists ls'. repeat split; try assumption. lia.
    + destruct (IH (fst (handle c e)) (ls ++ [l])) as (ls' & H1 & H2 & H3).
      * apply Forall_app. split; [assumption|]. constructor; [assumption|constructor].
      * rewrite H, Hc, concat_all_app. simpl. rewrite append_empty_r. reflexivity.
      * exists ls'. repeat split; try assumption.
        rewrite length_app in H3. simpl in H3. rewrite Hcount, Hp. lia.
Qed.

(** Property X7.  From a new collector on, the gesture buffer is always a
    concatenation of the labels "yaw", "roll" and "pitch", with at most one
    label for each update that was made. *)
Theorem gesture_buffer_is_label_sequence
    (a : Arm) (mr0 my0 mp0 : float) (es : list event) :
  exists ls, Forall (fun l => In l labels) ls /\
    gestures (fst (run (DataCollector_new a mr0 my0 mp0) es)) = concat_all ls /\
    (length ls <= count_updates es)%nat.
Proof.
  destruct (run_gestures es (DataCollector_new a mr0 my0 mp0) [])
    as (ls & H1 & H2 & H3); [constructor | reflexivity |].
  exists ls. repeat split; assumption.
Qed.

(** ** Callbacks and updates *)

Lemma other_branch_callback_state (c : DataCollector) :
  callback_state (fst (other_branch c)) = callback_state c.
Proof.
  unfold other_branch. destruct (at_home c); simpl.
  - pose proof (home_reached_eq c) as H. destruct (home_reached c) as [c1 o].
    simpl in *. subst c1. rewrite observe_delta_eq. reflexivity.
  - rewrite observe_delta_eq. reflexivity.
Qed.

Lemma print_callback_state (c : DataCollector) :
  callback_state (fst (print c)) = callback_state c.
Proof.
  unfold print. destruct (onArm c) eqn:Ea; [|reflexivity].
  destruct (currentPose c) eqn:Ep; simpl; rewrite ?other_branch_callback_state;
    try reflexivity.
Qed.

(** Property X8.  The callbacks and [print] write disjoint parts of the
    collector: a callback leaves the home reference, the accumulators, the
    gesture buffer and the word as they are and writes nothing; an update
    leaves the arm, the lock state, the orientation and the pose as they
    are. *)
Theorem callbacks_and_updates_write_disjoint_fields (c : DataCollector) (e : event) :
  if is_print e
  then callback_state (fst (handle c e)) = callback_state c
  else tracker_state (fst (handle c e)) = tracker_state c /\ snd (handle c e) = [].
Proof.
  destruct e; simpl; try (split; reflexivity). apply print_callback_state.
Qed.

Lemma handle_unsynced (c : DataCollector) (e : event) :
  onArm c = false -> is_arm_sync e = false ->
  onArm (fst (handle c e)) = false /\ snd (handle c e) = [] /\
  tracker_state (fst (handle c e)) = tracker_state c.
Proof.
  intros Ha He. destruct e; try discriminate He; simpl; try (repeat split; assumption).
  unfold print. rewrite Ha. repeat split. assumption.
Qed.

(** Property X9.  While the arm is not synced nothing is written and the
    home reference, the accumulators, the gesture buffer and the word stay
    as they are, whatever poses and orientations arrive and however many
    updates are made. *)
Theorem unsynced_arm_is_silent (es : list event) (c : DataCollector) :
  onArm c = false -> forallb (fun e => negb (is_arm_sync e)) es = true ->
  snd (run c es) = [] /\ tracker_state (fst (run c es)) = tracker_state c.
Proof.
  revert c. induction es as [|e es IH]; intros c Ha Hes; [split; reflexivity|].
  simpl in Hes. apply andb_true_iff in Hes as [He Hes]. apply negb_true_iff in He.
  destruct (handle_unsynced c e Ha He) as (Ha1 & Ho & Ht).
  rewrite run_snd_cons, run_fst_cons, Ho.
  destruct (IH (fst (handle c e)) Ha1 Hes) as [-> ->]. split; [reflexivity | assumption].
Qed.

Lemma unsynced_arm_is_silent_witness :
  snd (run (DataCollector_new armLeft f9 f9 f9)
         [OnOrientationData f9 f9 f9; OnPose fist; Print; OnPose rest; Print]) = [] /\
  tracker_state (fst (run (DataCollector_new armLeft f9 f9 f9)
         [OnOrientationData f9 f9 f9; OnPose fist; Print; OnPose rest; Print])) =
  tracker_state (DataCollector_new armLeft f9 f9 f9).
Proof.
  apply (unsynced_arm_is_silent
           [OnOrientationData f9 f9 f9; OnPose fist; Print; OnPose rest; Print]
           (DataCollector_new armLeft f9 f9 f9)); reflexivity.
Defined.

(** ** The status line *)

(** the whole numbers from 1 to 18 in canonical form *)
Lemma whole_canonical (N : Z) :
  1 <= N <= 18 ->
  exists mB eB : Z,
    2 ^ 23 <= mB < 2 ^ 24 /\ -23 <= eB <= -19 /\
    SpecFloat.fexp F32.prec F32.emax (Zdigits2 mB + eB) = eB /\
    mB = N * 2 ^ (- eB).
Proof.
  intros HN.
  exists (N * 2 ^ (24 - Zdigits2 N)), (Zdigits2 N - 24).
  assert (Hk : (1 <= Z.to_nat N < 19)%nat) by lia.
  rewrite <- (Z2Nat.id N) by lia. revert Hk. generalize (Z.to_nat N) as k. intros k Hk.
  destruct k as [|k]; [lia|].
  do 18 (destruct k as [|k]; [vm_compute; intuition (discriminate || reflexivity)|]).
  lia.
Qed.

Lemma pow2_pos (k : Z) : 0 <= k -> 0 < 2 ^ k.
Proof. intros. apply Z.pow_pos_nonneg; lia. Qed.

(** a canonical value at or above a canonical bound, as integers *)
Lemma pos_ge_value (mr : positive) (er mB eB N : Z) :
  pos_ge (S754_finite false mr er) mB eB ->
  SpecFloat.fexp F32.prec F32.emax (Zdigits2 (Z.pos mr) + er) = er ->
  mB < 2 ^ 24 -> -23 <= eB -> er <= 0 -> mB = N * 2 ^ (- eB) ->
  N * 2 ^ (- er) <= Z.pos mr.
Proof.
  intros Hge Hcan HmB HeB Her HN. simpl in Hge.
  destruct Hge as [Hlt | [-> Hle]]; [|lia].
  assert (Hd : Zdigits2 (Z.pos mr) = 24).
  { unfold SpecFloat.fexp, SpecFloat.emin, F32.prec, F32.emax in Hcan. lia. }
  pose proof (Zdigits2_ge_pow (Z.pos mr) ltac:(lia)) as Hlo. rewrite Hd in Hlo.
  change (2 ^ (24 - 1)) with (2 ^ 23) in Hlo.
  assert (Hsplit : 2 ^ (- eB) = 2 ^ (- er) * 2 ^ (er - eB)).
  { rewrite <- Z.pow_add_r by lia. f_equal. lia. }
  assert (HP : 2 <= 2 ^ (er - eB)).
  { change 2 with (2 ^ 1) at 1. apply Z.pow_le_mono_r; lia. }
  pose proof (pow2_pos (- er) ltac:(lia)) as HX.
  change (2 ^ 24) with (2 * 2 ^ 23) in HmB.
  rewrite HN, Hsplit in HmB.
  set (X := 2 ^ (- er)) in *. set (P := 2 ^ (er - eB)) in *.
  destruct (Z_le_gt_dec N 0) as [HN0 | HN0]; [nia|].
  assert (N * X * 2 <= N * X * P) by nia. nia.
Qed.

(** a canonical value at or below a canonical bound, as integers *)
Lemma pos_le_whole (mr : positive) (er mB eB N : Z) :
  pos_le 24 (S754_finite false mr er) mB eB ->
  2 ^ 23 <= mB -> eB <= 0 -> mB = N * 2 ^ (- eB) ->
  er <= eB /\ Z.pos mr <= N * 2 ^ (- er).
Proof.
  intros Hle HmB HeB HN.
  assert (Her : er <= eB) by (destruct Hle as [_ [H | [H _]]]; lia).
  split; [assumption|].
  pose proof (pos_le_value 24 ltac:(lia) mr er mB eB er Hle HmB ltac:(lia) Her) as Hv.
  rewrite Z.sub_diag in Hv. change (2 ^ 0) with 1 in Hv. rewrite Z.mul_1_r in Hv.
  rewrite HN, <- Z.mul_assoc, <- Z.pow_add_r in Hv by lia.
  replace (- eB + (eB - er)) with (- er) in Hv by lia. assumption.
Qed.

(** the count of a rounded positive value between two whole numbers *)
Lemma to_count_binary_round (p : positive) (e N : Z) :
  e <= -19 -> 1 <= N <= 18 ->
  (N - 1) * 2 ^ (- e) < Z.pos p <= N * 2 ^ (- e) ->
  exists b, to_count (binary_round F32.prec F32.emax false p e) = Some b /\
            N - 1 <= b <= N.
Proof.
  intros He HN [Hlo Hhi].
  pose proof (pow2_pos (- e) ltac:(lia)) as HE.
  assert (Hp24 : 0 < F32.prec) by reflexivity.
  destruct (whole_canonical N HN) as (mB & eB & HmB & HeB & Hcan & HNB).
  assert (Hz : 2 ^ (- (e - 4)) = 16 * 2 ^ (- e)).
  { replace (- (e - 4)) with (4 + - e) by lia. rewrite Z.pow_add_r by lia. reflexivity. }
  assert (Hup : pos_le F32.prec (binary_round F32.prec F32.emax false p e) mB eB).
  { apply (binary_round_pos_le F32.prec F32.emax Hp24 p e mB eB (e - 4));
      try lia; try assumption.
    - unfold F32.emax, F32.prec. lia.
    - replace (e - (e - 4)) with 4 by lia. change (2 ^ 4) with 16.
      pose proof (pow2_pos (eB - (e - 4)) ltac:(lia)) as HQ.
      assert (HmQ : mB * 2 ^ (eB - (e - 4)) = N * (16 * 2 ^ (- e))).
      { rewrite HNB, <- Z.mul_assoc, <- Z.pow_add_r by lia.
        replace (- eB + (eB - (e - 4))) with (- (e - 4)) by lia. rewrite Hz. reflexivity. }
      nia. }
  pose proof (binary_round_valid F32.prec F32.emax Hp24 false p e) as Hval.
  destruct (binary_round F32.prec F32.emax false p e) as [s|s| |s mr er] eqn:Er;
    try (destruct Hup; fail).
  - (* the result is zero: only possible below one *)
    exists 0. split; [reflexivity|].
    destruct (Z.eq_dec N 1) as [-> | HN1]; [lia|].
    exfalso.
    destruct (whole_canonical (N - 1) ltac:(lia)) as (mB' & eB' & HmB' & HeB' & Hcan' & HNB').
    pose proof (binary_round_pos_ge F32.prec F32.emax p e mB' eB' (e - 4) Hp24
                  ltac:(lia) Hcan' ltac:(lia) ltac:(lia)) as Hge.
    rewrite Er in Hge. apply Hge.
    replace (e - (e - 4)) with 4 by lia. change (2 ^ 4) with 16.
    rewrite HNB', <- Z.mul_assoc, <- Z.pow_add_r by lia.
    replace (- eB' + (eB' - (e - 4))) with (- (e - 4)) by lia. rewrite Hz. nia.
  - destruct s; [destruct Hup|].
    destruct (pos_le_whole mr er mB eB N Hup ltac:(lia) ltac:(lia) HNB) as [Her Hmr].
    destruct (valid_finite_inv false mr er Hval) as [Hcanr _].
    pose proof (pow2_pos (- er) ltac:(lia)) as HX.
    exists (Z.pos mr / 2 ^ (- er)). split.
    + unfold to_count. destruct (Z.leb_spec 0 er); [lia | reflexivity].
    + split.
      * destruct (Z.eq_dec N 1) as [-> | HN1].
        { apply Z.div_pos; lia. }
        destruct (whole_canonical (N - 1) ltac:(lia))
          as (mB' & eB' & HmB' & HeB' & Hcan' & HNB').
        pose proof (binary_round_pos_ge F32.prec F32.emax p e mB' eB' (e - 4) Hp24
                      ltac:(lia) Hcan' ltac:(lia) ltac:(lia)) as Hge.
        rewrite Er in Hge.
        assert (Hge' : pos_ge (S754_finite false mr er) mB' eB').
        { apply Hge.
          replace (e - (e - 4)) with 4 by lia. change (2 ^ 4) with 16.
          rewrite HNB', <- Z.mul_assoc, <- Z.pow_add_r by lia.
          replace (- eB' + (eB' - (e - 4))) with (- (e - 4)) by lia. rewrite Hz. nia. }
        pose proof (pos_ge_value mr er mB' eB' (N - 1) Hge' Hcanr ltac:(lia) ltac:(lia)
                      ltac:(lia) HNB') as Hlow.
        apply Z.div_le_lower_bound; lia.
      * apply Z.div_le_upper_bound; lia.
Qed.

Lemma eighteen_pow (e : Z) : e <= -19 -> 9437184 * 2 ^ (-19 - e) = 18 * 2 ^ (- e).
Proof.
  intros He. replace (- e) with (19 + (-19 - e)) by lia.
  rewrite Z.pow_add_r by lia. change (2 ^ 19) with 524288. lia.
Qed.

(** the two counts of a gauge: the stars and the blanks *)
Lemma gauge_counts (v : float) :
  display_value v = true ->
  exists a b, to_count v = Some a /\ to_count (F32.sub F32.eighteen v) = Some b /\
              0 <= a <= 18 /\ 0 <= b /\ 17 <= a + b <= 18.
Proof.
  unfold display_value, in_scale. intros H.
  apply andb_true_iff in H as [Hv H]. apply andb_true_iff in H as [H0 H18].
  destruct v as [s|[]| |s m e]; try discriminate H0; try discriminate H18.
  - exists 0, 18. repeat split; try lia; destruct s; reflexivity.
  - destruct s; [discriminate H0|].
    pose proof (leb_pos_le 24 128 m e 9437184 (-19) Hv H18) as Hle.
    assert (He : e <= -19) by (destruct Hle as [_ [He | [He _]]]; lia).
    pose proof (pos_le_value 24 ltac:(lia) m e 9437184 (-19) e Hle
                  ltac:(vm_compute; discriminate) ltac:(lia) He) as Hm.
    rewrite Z.sub_diag in Hm. change (2 ^ 0) with 1 in Hm. rewrite Z.mul_1_r in Hm.
    rewrite (eighteen_pow e He) in Hm.
    pose proof (pow2_pos (- e) ltac:(lia)) as HE.
    set (a := Z.pos m / 2 ^ (- e)).
    assert (Ha1 : a * 2 ^ (- e) <= Z.pos m).
    { unfold a. rewrite Z.mul_comm. apply Z.mul_div_le. assumption. }
    assert (Ha2 : Z.pos m < (a + 1) * 2 ^ (- e)).
    { pose proof (Z.mul_succ_div_gt (Z.pos m) (2 ^ (- e)) HE) as Hgt.
      fold a in Hgt. lia. }
    assert (Ha0 : 0 <= a) by (apply Z.div_pos; lia).
    assert (Ha18 : a <= 18) by (apply Z.div_le_upper_bound; lia).
    assert (Hta : to_count (S754_finite false m e) = Some a).
    { unfold to_count. destruct (Z.leb_spec 0 e); [lia | reflexivity]. }
    unfold F32.sub, F32.eighteen, SFsub.
    replace (Z.min (-19) e) with e by lia.
    destruct (shl_align_spec 9437184 (-19) e He) as [HM _].
    destruct (shl_align_spec m e e ltac:(lia)) as [Hm' _].
    rewrite Z.sub_diag in Hm'. change (2 ^ 0) with 1 in Hm'. rewrite Z.mul_1_r in Hm'.
    rewrite (eighteen_pow e He) in HM.
    unfold cond_Zopp, binary_normalize. rewrite HM, Hm'.
    set (E := 2 ^ (- e)) in *.
    destruct (18 * E - Z.pos m) as [|p|p] eqn:ED.
    + assert (a = 18) by nia.
      exists a, 0. repeat split; try assumption; try reflexivity; lia.
    + assert (Ha17 : a <= 17) by nia.
      destruct (to_count_binary_round p e (18 - a)) as (b & Hb & Hb1 & Hb2);
        [assumption | lia | fold E; nia |].
      exists a, b. repeat split; try assumption; lia.
    + lia.
Qed.

Lemma length_fill (n : nat) (ch : ascii) : String.length (fill n ch) = n.
Proof. induction n as [|n IH]; simpl; congruence. Qed.

(** Property X15.  On the display scale a gauge is written, with at most 18
    stars; stars and blanks together are 18 or 17: the truncations of [v]
    and of [18 - v] lose up to one place between them. *)
Theorem gauge_width (v : float) :
  display_value v = true ->
  exists a b : nat,
    gauge v = Some ("[" +:+ fill a "*" +:+ fill b " " +:+ "]") /\
    (a <= 18)%nat /\ (a + b = 17 \/ a + b = 18)%nat.
Proof.
  intros Hv. destruct (gauge_counts v Hv) as (a & b & Ha & Hb & Ha18 & Hb0 & Hab).
  exists (Z.to_nat a), (Z.to_nat b). unfold gauge. rewrite Ha, Hb.
  repeat split; lia.
Qed.

Lemma gauge_width_witness :
  exists a b : nat,
    gauge f9_5 = Some ("[" +:+ fill a "*" +:+ fill b " " +:+ "]") /\
    (a <= 18)%nat /\ (a + b = 17 \/ a + b = 18)%nat.
Proof. apply (gauge_width f9_5). reflexivity. Defined.

(** Property X16.  A whole value [n] fills the gauge: [n] stars and [18 - n]
    blanks. A value half way to the next whole number leaves it one place
    short: [n] stars and [17 - n] blanks. *)
Theorem gauge_of_whole_and_half (n : Z) :
  0 <= n <= 17 ->
  gauge (F32.of_Z n) =
    Some ("[" +:+ fill (Z.to_nat n) "*" +:+ fill (Z.to_nat (18 - n)) " " +:+ "]") /\
  gauge (and_a_half n) =
    Some ("[" +:+ fill (Z.to_nat n) "*" +:+ fill (Z.to_nat (17 - n)) " " +:+ "]").
Proof.
  intros Hn.
  assert (Hk : (Z.to_nat n < 18)%nat) by lia.
  rewrite <- (Z2Nat.id n) by lia. revert Hk. generalize (Z.to_nat n) as k. intros k Hk.
  do 18 (destruct k as [|k]; [vm_compute; split; reflexivity|]). lia.
Qed.

Lemma gauge_of_whole_and_half_witness :
  gauge (F32.of_Z 9) = Some "[*********         ]" /\
  gauge (and_a_half 9) = Some "[*********        ]".
Proof. apply (gauge_of_whole_and_half 9). lia. Defined.

Lemma status_fields_length (c : DataCollector) :
  exists f, status_fields c = Some f /\ String.length f = 29%nat.
Proof.
  unfold status_fields. destruct (onArm c).
  - destruct (currentPose c), (isUnlocked c), (whichArm c); eexists; split; reflexivity.
  - eexists. split; reflexivity.
Qed.

Lemma gauge_length (v : float) :
  display_value v = true ->
  exists g, gauge v = Some g /\ (19 <= String.length g <= 20)%nat.
Proof.
  intros Hv. destruct (gauge_counts v Hv) as (a & b & Ha & Hb & Ha18 & Hb0 & Hab).
  unfold gauge. rewrite Ha, Hb. eexists. split; [reflexivity|].
  rewrite !length_append, !length_fill. simpl. lia.
Qed.

(** Property X17.  With the three display values on the scale the status
    line is written whatever the rest of the state is, and it is between 87
    and 90 characters long: the fields after the gauges take 29 characters
    with the arm synced or not, each gauge takes 19 or 20. *)
Theorem status_line_width (c : DataCollector) :
  display_value (roll_w c) = true -> display_value (pitch_w c) = true ->
  display_value (yaw_w c) = true ->
  exists s, status_line c = Some s /\ (87 <= String.length s <= 90)%nat.
Proof.
  intros Hr Hp Hy. unfold status_line.
  destruct (gauge_length _ Hr) as (r & -> & Lr).
  destruct (gauge_length _ Hp) as (p & -> & Lp).
  destruct (gauge_length _ Hy) as (y & -> & Ly).
  destruct (status_fields_length c) as (f & -> & Lf).
  eexists. split; [reflexivity|].
  simpl. rewrite !length_append. lia.
Qed.

Lemma status_line_width_witness :
  exists s, status_line (after_fist_at f9 f9 f9 f9_5 f9 f9) = Some s /\
            (87 <= String.length s <= 90)%nat.
Proof. apply (status_line_width (after_fist_at f9 f9 f9 f9_5 f9 f9)); reflexivity. Defined.

Lemma status_line_written (c : DataCollector) :
  on_display c = true -> exists s, status_line c = Some s.
Proof.
  unfold on_display. intros H.
  apply andb_true_iff in H as [H Hy]. apply andb_true_iff in H as [Hr Hp].
  unfold status_line.
  destruct (gauge_length _ Hr) as (r & -> & _).
  destruct (gauge_length _ Hp) as (p & -> & _).
  destruct (gauge_length _ Hy) as (y & -> & _).
  destruct (status_fields_length c) as (f & -> & _).
  eexists. reflexivity.
Qed.





(** ** Poses held over several updates *)

Lemma updates_S (n : nat) (c : DataCollector) :
  updates (S n) c = fst (print (updates n c)).
Proof. reflexivity. Qed.

Lemma updates_callback_state (n : nat) (c : DataCollector) :
  callback_state (updates n c) = callback_state c.
Proof.
  induction n as [|n IH]; [reflexivity|].
  rewrite updates_S, print_callback_state. assumption.
Qed.

Lemma callback_state_inv (c c' : DataCollector) :
  callback_state c' = callback_state c ->
  onArm c' = onArm c /\ currentPose c' = currentPose c /\
  roll_w c' = roll_w c /\ pitch_w c' = pitch_w c /\ yaw_w c' = yaw_w c.
Proof. unfold callback_state, current_orientation. intros H. inversion H. auto. Qed.

Lemma spaces_S (n : nat) : spaces (S n) = spaces n +:+ " ".
Proof.
  unfold spaces. induction n as [|n IH]; [reflexivity|].
  change (concat_all (repeat " " (S (S n)))) with (" " +:+ concat_all (repeat " " (S n))).
  rewrite IH at 1.
  change (concat_all (repeat " " (S n))) with (" " +:+ concat_all (repeat " " n)).
  rewrite append_assoc. reflexivity.
Qed.

Lemma on_display_updates (n : nat) (c : DataCollector) :
  on_display (updates n c) = on_display c.
Proof.
  destruct (callback_state_inv _ _ (updates_callback_state n c)) as (_ & _ & Hr & Hp & Hy).
  unfold on_display. rewrite Hr, Hp, Hy. reflexivity.
Qed.

(** Property X10.  While the pose stays "fist" and the display values are
    on the scale, every update commits: the first one the letter of the
    gesture buffer, and each further one a space, the letter of the buffer
    the commit before it has emptied. *)
Theorem held_fist_appends_spaces (c : DataCollector) (n : nat) :
  on_display c = true ->
  onArm c = true -> currentPose c = fist ->
  word (updates (S n) c) =
    (word c +:+ matchLetterToGesture (gestures c)) +:+ spaces n /\
  gestures (updates (S n) c) = "" /\
  on_display (updates (S n) c) = true.
Proof.
  intros Hd Ha Hp.
  assert (H : word (updates (S n) c) =
                (word c +:+ matchLetterToGesture (gestures c)) +:+ spaces n /\
              gestures (updates (S n) c) = "").
  { induction n as [|n [IHw IHg]].
    - change (updates 1 c) with (fst (print c)).
      rewrite print_fist by assumption. simpl. rewrite append_empty_r. split; reflexivity.
    - rewrite updates_S.
      destruct (callback_state_inv _ _ (updates_callback_state (S n) c)) as (Ha' & Hp' & _).
      rewrite print_fist by congruence.
      unfold fist_branch. dc_norm. rewrite IHg, IHw, spaces_S.
      change (matchLetterToGesture "") with " ".
      rewrite <- append_assoc. split; reflexivity. }
  destruct H as [Hw Hg]. repeat split; try assumption.
  rewrite on_display_updates. assumption.
Qed.

Lemma held_fist_appends_spaces_witness :
  word (updates 3 (collector_with fist "roll")) = "c  " /\
  gestures (updates 3 (collector_with fist "roll")) = "" /\
  on_display (updates 3 (collector_with fist "roll")) = true.
Proof.
  apply (held_fist_appends_spaces (collector_with fist "roll") 2); reflexivity.
Defined.

(** Property X11.  While the pose stays "fingersSpread" or "waveOut" and
    the display values are on the scale, every update writes the status
    line and runs the command again, with the same word, and leaves the
    collector as it is. *)
Theorem held_command_pose_runs_again (c : DataCollector) (pre : string) (n : nat) :
  on_display c = true ->
  onArm c = true -> command_prefix (currentPose c) = Some pre ->
  run c (repeat Print n) = (c, repeat (RunSystem (pre +:+ word c)) n) /\
  exists s, print_complete c = Some (c, (s, [RunSystem (pre +:+ word c)])).
Proof.
  intros Hd Ha Hp.
  assert (Hprint : print c = (c, [RunSystem (pre +:+ word c)])).
  { unfold print. rewrite Ha. unfold command_prefix in Hp.
    destruct (String.eqb (toString (currentPose c)) "fist"); [discriminate|].
    destruct (String.eqb (toString (currentPose c)) "fingersSpread").
    - injection Hp as <-. reflexivity.
    - destruct (String.eqb (toString (currentPose c)) "waveOut"); [|discriminate].
      injection Hp as <-. reflexivity. }
  split.
  - induction n as [|n IH]; [reflexivity|].
    simpl. rewrite Hprint, IH. reflexivity.
  - destruct (status_line_written c Hd) as (s & Hs). exists s.
    unfold print_complete. rewrite Hs, Hprint. reflexivity.
Qed.

Lemma held_command_pose_runs_again_witness :
  run (collector_with waveOut "") (repeat Print 3) =
    (collector_with waveOut "",
     repeat (RunSystem ("python testtwil.py " +:+ word (collector_with waveOut ""))) 3) /\
  exists s, print_complete (collector_with waveOut "") =
    Some (collector_with waveOut "",
          (s, [RunSystem ("python testtwil.py " +:+ word (collector_with waveOut ""))])).
Proof.
  apply (held_command_pose_runs_again (collector_with waveOut "") "python testtwil.py " 3);
    reflexivity.
Defined.

(** ** The accumulators *)

Lemma SFltb_irrefl (x : float) : SFltb x x = false.
Proof.
  destruct (SFltb x x) eqn:E; [|reflexivity].
  pose proof (SFltb_asym x x E). congruence.
Qed.

Lemma accumulate_not_below_acc (cur home acc : float) :
  F32.lt (accumulate cur home acc) acc = false.
Proof.
  unfold accumulate, F32.gt, F32.lt.
  destruct (SFltb acc (F32.abs (F32.sub cur home))) eqn:E.
  - apply SFltb_asym. assumption.
  - apply SFltb_irrefl.
Qed.

Lemma accumulate_not_below_deviation (cur home acc : float) :
  F32.lt (accumulate cur home acc) (F32.abs (F32.sub cur home)) = false.
Proof.
  unfold accumulate, F32.gt, F32.lt.
  destruct (SFltb acc (F32.abs (F32.sub cur home))) eqn:E.
  - apply SFltb_irrefl.
  - assumption.
Qed.

(** Property X12.  "Observe delta" never lowers an accumulator, and it
    leaves the roll and pitch accumulators not below the deviation of the
    update. *)
Theorem observe_delta_keeps_maximum (c : DataCollector) :
  F32.lt (max_roll (observe_delta c)) (max_roll c) = false /\
  F32.lt (max_pitch (observe_delta c)) (max_pitch c) = false /\
  F32.lt (max_yaw (observe_delta c)) (max_yaw c) = false /\
  F32.lt (max_roll (observe_delta c))
         (F32.abs (F32.sub (roll_w c) (home_roll c))) = false /\
  F32.lt (max_pitch (observe_delta c))
         (F32.abs (F32.sub (pitch_w c) (home_pitch c))) = false.
Proof.
  destruct (observe_delta_max c) as (-> & -> & ->).
  repeat split;
    try apply accumulate_not_below_acc; try apply accumulate_not_below_deviation.
  destruct (F32.ne _ _); [apply accumulate_not_below_acc | apply SFltb_irrefl].
Qed.

Lemma accumulate_self (x : float) :
  is_finite x = true -> accumulate x x F32.zero = F32.zero.
Proof. intros H. unfold accumulate. rewrite (sub_self x H). reflexivity. Qed.

Lemma print_at_home_eq (c : DataCollector) :
  onArm c = true -> is_other (currentPose c) = true -> at_home c = true ->
  fst (print c) =
  set_max_pitch
    (set_max_yaw
       (set_max_roll (set_gestures c (gestures c +:+ dominant_label c))
          (accumulate (roll_w c) (home_roll c) F32.zero))
       (if F32.ne (F32.abs (F32.sub (yaw_w c) (home_yaw c))) F32.seventeen
        then accumulate (yaw_w c) (home_yaw c) F32.zero else F32.zero))
    (accumulate (pitch_w c) (home_pitch c) F32.zero).
Proof.
  intros Ha Hp Hh. rewrite print_at_home by assumption. cbn [fst].
  rewrite home_reached_eq, observe_delta_eq. reflexivity.
Qed.

(** ** Home reached without a movement *)

(** Property X13.  After a fist update at an orientation on the display
    scale, the first update in a pose that reaches the last branch fires
    "home reached" if the orientation has not changed, and leaves the three
    accumulators at zero. *)
Theorem home_reached_right_after_fist (c : DataCollector) (other : Pose) :
  onArm c = true -> currentPose c = fist -> is_other other = true ->
  display_value (roll_w c) = true -> display_value (pitch_w c) = true ->
  display_value (yaw_w c) = true ->
  fired (snd (print (set_pose (fst (print c)) other))) = true /\
  max_roll (fst (print (set_pose (fst (print c)) other))) = F32.zero /\
  max_pitch (fst (print (set_pose (fst (print c)) other))) = F32.zero /\
  max_yaw (fst (print (set_pose (fst (print c)) other))) = F32.zero.
Proof.
  intros Ha Hp Ho Vr Vp Vy.
  destruct (display_value_inv _ Vr) as (Vr1 & _ & Zr & Fr).
  destruct (display_value_inv _ Vp) as (Vp1 & _ & Zp & Fp).
  destruct (display_value_inv _ Vy) as (Vy1 & _ & Zy & Fy).
  rewrite (print_fist c) by assumption. unfold fist_branch. dc_norm.
  set (c1 := set_pose _ other).
  assert (Hh : at_home c1 = true).
  { unfold at_home, c1. dc_norm.
    rewrite !epsilonCompare_self by assumption. reflexivity. }
  assert (Ha1 : onArm c1 = true) by (unfold c1; dc_norm; exact Ha).
  assert (Ho1 : is_other (currentPose c1) = true) by (unfold c1; dc_norm; exact Ho).
  split; [rewrite fired_print, Hh, Ha1, Ho1; reflexivity|].
  rewrite (print_at_home_eq c1 Ha1 Ho1 Hh).
  unfold c1. dc_norm.
  rewrite !accumulate_self by assumption.
  destruct (F32.ne _ _); repeat split; reflexivity.
Qed.

Lemma home_reached_right_after_fist_witness :
  fired (snd (print (set_pose (fst (print fist_at_9_12_1)) rest))) = true /\
  max_roll (fst (print (set_pose (fst (print fist_at_9_12_1)) rest))) = F32.zero /\
  max_pitch (fst (print (set_pose (fst (print fist_at_9_12_1)) rest))) = F32.zero /\
  max_yaw (fst (print (set_pose (fst (print fist_at_9_12_1)) rest))) = F32.zero.
Proof.
  apply (home_reached_right_after_fist fist_at_9_12_1 rest); reflexivity.
Defined.

Lemma at_home_ext (c c' : DataCollector) :
  callback_state c' = callback_state c -> home_reference c' = home_reference c ->
  at_home c' = at_home c.
Proof.
  unfold callback_state, current_orientation, home_reference, at_home.
  intros H1 H2. inversion H1. inversion H2. congruence.
Qed.

Lemma residual_step (c : DataCollector) :
  onArm c = true -> is_other (currentPose c) = true -> at_home c = true ->
  F32.gt (F32.abs (F32.sub (roll_w c) (home_roll c))) F32.zero = true ->
  is_finite (pitch_w c) = true -> home_pitch c = pitch_w c ->
  is_finite (yaw_w c) = true -> home_yaw c = yaw_w c ->
  callback_state (fst (print c)) = callback_state c /\
  home_reference (fst (print c)) = home_reference c /\
  max_roll (fst (print c)) = F32.abs (F32.sub (roll_w c) (home_roll c)) /\
  max_pitch (fst (print c)) = F32.zero /\ max_yaw (fst (print c)) = F32.zero /\
  gestures (fst (print c)) = gestures c +:+ dominant_label c.
Proof.
  intros Ha Ho Hh Hd Fp Hp Fy Hy.
  rewrite (print_at_home_eq c Ha Ho Hh).
  unfold callback_state, home_reference, current_orientation. dc_norm.
  rewrite Hp, Hy, !accumulate_self by assumption.
  unfold accumulate. rewrite Hd.
  destruct (F32.ne _ _); repeat split; reflexivity.
Qed.

(** Property X14.  While the arm rests within the tolerance, at display
    values on the scale, with a roll that differs from the home roll,
    pitch and yaw being those of the home reference, every update after
    the first fires "home reached" again and appends "roll" to the gesture
    buffer: the deviation stored after the reset of one update is the
    dominant one at the next. *)
Theorem residual_deviation_repeats_label (c : DataCollector) (n : nat) :
  on_display c = true ->
  onArm c = true -> is_other (currentPose c) = true -> at_home c = true ->
  F32.gt (F32.abs (F32.sub (roll_w c) (home_roll c))) F32.zero = true ->
  home_pitch c = pitch_w c -> home_yaw c = yaw_w c ->
  fired (snd (print (updates (S n) c))) = true /\
  gestures (updates (S (S n)) c) = gestures (updates (S n) c) +:+ "roll" /\
  on_display (updates (S n) c) = true.
Proof.
  intros Hdisp Ha Ho Hh Hd Hp Hy.
  assert (Fp : is_finite (pitch_w c) = true /\ is_finite (yaw_w c) = true).
  { unfold on_display in Hdisp.
    apply andb_true_iff in Hdisp as [H Vy]. apply andb_true_iff in H as [_ Vp].
    split; [apply (display_value_inv _ Vp) | apply (display_value_inv _ Vy)]. }
  destruct Fp as [Fp Fy].
  assert (Hinv : forall k,
    callback_state (updates k c) = callback_state c /\
    home_reference (updates k c) = home_reference c /\
    (k <> O ->
     max_roll (updates k c) = F32.abs (F32.sub (roll_w c) (home_roll c)) /\
     max_pitch (updates k c) = F32.zero /\ max_yaw (updates k c) = F32.zero)).
  { induction k as [|k (Hc & Hr & _)]; [repeat split; congruence|].
    rewrite updates_S.
    destruct (callback_state_inv _ _ Hc) as (E1 & E2 & E3 & E4 & E5).
    assert (E6 : home_roll (updates k c) = home_roll c /\
                 home_pitch (updates k c) = home_pitch c /\
                 home_yaw (updates k c) = home_yaw c).
    { unfold home_reference in Hr. inversion Hr. auto. }
    destruct E6 as (E6 & E7 & E8).
    assert (Hh' : at_home (updates k c) = true)
      by (rewrite (at_home_ext c _ Hc Hr); assumption).
    assert (Hd' : F32.gt (F32.abs (F32.sub (roll_w (updates k c))
                                      (home_roll (updates k c)))) F32.zero = true)
      by (rewrite E3, E6; assumption).
    destruct (residual_step (updates k c)) as (S1 & S2 & S3 & S4 & S5 & _);
      [congruence .. |].
    repeat split; congruence. }
  destruct (Hinv (S n)) as (Hc & Hr & Hm). destruct Hm as (M1 & M2 & M3); [discriminate|].
  destruct (callback_state_inv _ _ Hc) as (E1 & E2 & E3 & E4 & E5).
  assert (E6 : home_roll (updates (S n) c) = home_roll c /\
               home_pitch (updates (S n) c) = home_pitch c /\
               home_yaw (updates (S n) c) = home_yaw c).
  { unfold home_reference in Hr. inversion Hr. auto. }
  destruct E6 as (E6 & E7 & E8).
  assert (Hh' : at_home (updates (S n) c) = true)
    by (rewrite (at_home_ext c _ Hc Hr); assumption).
  split; [|split].
  - rewrite fired_print, Hh', E1, E2, Ha, Ho. reflexivity.
  - rewrite (updates_S (S n)).
    assert (Hd' : F32.gt (F32.abs (F32.sub (roll_w (updates (S n) c))
                                      (home_roll (updates (S n) c)))) F32.zero = true)
      by (rewrite E3, E6; assumption).
    destruct (residual_step (updates (S n) c)) as (_ & _ & _ & _ & _ & ->);
      try congruence.
    unfold dominant_label. rewrite M1, M2, M3, Hd. reflexivity.
  - rewrite on_display_updates. assumption.
Qed.

Lemma residual_deviation_repeats_label_witness :
  fired (snd (print (updates 2 (after_fist_at f9 f9 f9 f9_5 f9 f9)))) = true /\
  gestures (updates 3 (after_fist_at f9 f9 f9 f9_5 f9 f9)) =
    gestures (updates 2 (after_fist_at f9 f9 f9 f9_5 f9 f9)) +:+ "roll" /\
  on_display (updates 2 (after_fist_at f9 f9 f9 f9_5 f9 f9)) = true.
Proof.
  apply (residual_deviation_repeats_label (after_fist_at f9 f9 f9 f9_5 f9 f9) 1);
    reflexivity.
Defined.

(** ** The commit of an unknown gesture *)

(** Claim C10.  A non-empty gesture string that is none of the eleven
    non-empty keys written in the table construction reads as the empty
    string, and a fist update with such a gesture buffer, made with the
    display values on the scale, leaves the word as it was; the update
    runs to its end: it writes the status line and then its usual
    lines. *)
Theorem unknown_gesture_commits_nothing (g : string) (c : DataCollector) :
  g <> "" -> ~ In g nonempty_keys ->
  on_display c = true ->
  onArm c = true -> currentPose c = fist -> gestures c = g ->
  matchLetterToGesture g = "" /\
  word (fst (print c)) = word c /\
  snd (print c) = [SayFist; Wait2s; SayLetter ""; SayWord (word c)] /\
  exists s, print_complete c =
    Some (fst (print c), (s, [SayFist; Wait2s; SayLetter ""; SayWord (word c)])).
Proof.
  intros Hg Hn Hd Ha Hp Hc.
  pose proof (matchLetterToGesture_unknown g Hg Hn) as Hm.
  destruct (status_line_written c Hd) as (s & Hs).
  unfold print_complete. rewrite Hs.
  rewrite print_fist by assumption. unfold fist_branch. simpl.
  rewrite Hc, Hm, append_empty_r. repeat split. exists s. reflexivity.
Qed.

Lemma unknown_gesture_commits_nothing_witness :
  matchLetterToGesture "yaw" = "" /\
  word (fst (print (collector_with fist "yaw"))) = word (collector_with fist "yaw") /\
  snd (print (collector_with fist "yaw")) =
    [SayFist; Wait2s; SayLetter ""; SayWord (word (collector_with fist "yaw"))] /\
  exists s, print_complete (collector_with fist "yaw") =
    Some (fst (print (collector_with fist "yaw")),
          (s, [SayFist; Wait2s; SayLetter "";
               SayWord (word (collector_with fist "yaw"))])).
Proof.
  apply (unknown_gesture_commits_nothing "yaw" (collector_with fist "yaw")).
  - discriminate.
  - vm_compute. intuition discriminate.
  - reflexivity.
  - reflexivity.
  - reflexivity.
  - reflexivity.
Defined.

(** ** The uninitialised arm *)

Lemma handle_arm_unread (c : DataCollector) (a : Arm) (e : event) :
  onArm c = false ->
  snd (handle (set_arm c false a) e) = snd (handle c e) /\
  (fst (handle (set_arm c false a) e) = fst (handle c e) \/
   (onArm (fst (handle c e)) = false /\
    fst (handle (set_arm c false a) e) = set_arm (fst (handle c e)) false a)).
Proof.
  intros Ha. destruct c as [oa wa iu rw pw yw cp hr hy hp mr my mp g w].
  simpl in Ha. subst oa.
  destruct e; simpl; split; try reflexivity; try (right; split; reflexivity).
  left. reflexivity.
Qed.

Lemma status_line_arm_unread (c : DataCollector) (a : Arm) :
  onArm c = false -> status_line (set_arm c false a) = status_line c.
Proof.
  intros Ha. unfold status_line, status_fields. dc_norm. rewrite Ha. reflexivity.
Qed.

Lemma run_arm_unread (es : list event) (c : DataCollector) (a : Arm) :
  onArm c = false ->
  snd (run (set_arm c false a) es) = snd (run c es) /\
  status_line (fst (run (set_arm c false a) es)) = status_line (fst (run c es)) /\
  tracker_state (fst (run (set_arm c false a) es)) = tracker_state (fst (run c es)).
Proof.
  revert c. induction es as [|e es IH]; intros c Ha.
  - simpl. split; [reflexivity|]. split; [apply status_line_arm_unread; assumption|].
    reflexivity.
  - rewrite !run_snd_cons, !run_fst_cons.
    destruct (handle_arm_unread c a e Ha) as (-> & [-> | (Ha' & ->)]).
    + repeat split; reflexivity.
    + destruct (IH (fst (handle c e)) Ha') as (-> & -> & ->). repeat split; reflexivity.
Qed.

(** Property X18.  The constructor leaves [whichArm] uninitialised, and
    nothing ever reads that value: what is written, the status line and the
    tracker fields after any events are the same whatever it was. *)
Theorem uninitialised_arm_is_never_read
    (a1 a2 : Arm) (mr0 my0 mp0 : float) (es : list event) :
  snd (run (DataCollector_new a1 mr0 my0 mp0) es) =
    snd (run (DataCollector_new a2 mr0 my0 mp0) es) /\
  status_line (fst (run (DataCollector_new a1 mr0 my0 mp0) es)) =
    status_line (fst (run (DataCollector_new a2 mr0 my0 mp0) es)) /\
  tracker_state (fst (run (DataCollector_new a1 mr0 my0 mp0) es)) =
    tracker_state (fst (run (DataCollector_new a2 mr0 my0 mp0) es)).
Proof.
  change (DataCollector_new a1 mr0 my0 mp0)
    with (set_arm (DataCollector_new a2 mr0 my0 mp0) false a1).
  apply run_arm_unread. reflexivity.
Qed.

(** ** The decoder *)

Lemma mul_opp_opp (a b : float) : F32.mul (F32.opp a) (F32.opp b) = F32.mul a b.
Proof.
  unfold F32.mul, F32.opp.
  destruct a as [sa|sa| |sa ma ea], b as [sb|sb| |sb mb eb]; simpl;
    try reflexivity; destruct sa, sb; reflexivity.
Qed.

(** Property X19.  The decoder gives the same three display values for a
    quaternion and for its negation, bit for bit: every component enters
    through a product of two components only. *)
Theorem decoder_ignores_quaternion_sign
    (atan2f : float -> float -> float) (asinf : float -> float) (q : Quaternion) :
  onOrientationData atan2f asinf (negate q) = onOrientationData atan2f asinf q.
Proof.
  unfold onOrientationData, decoded_roll, decoded_pitch, decoded_yaw,
    roll_angle, pitch_angle, pitch_arg, yaw_angle, negate. simpl.
  rewrite !mul_opp_opp. reflexivity.
Qed.
